(** * Minio: multipart coordinator, namespace locks and erasure healing

    A shallow embedding of the parts of the object server that the
    design specification makes checkable statements about:

    - [PartFile]: the [NNNNN.etag] part-file names of the FS backend
      ([encodePartFile] / [decodePartFile]);
    - [Multipart]: the FS multipart coordinator ([backgroundAppend],
      [PutObjectPart], [CompleteMultipartUpload], [AbortMultipartUpload]);
    - [NSLock]: the namespace lock map ([lock], [unlock], [ForceUnlock]);
    - [Heal]: the stripe arithmetic and the write loop of [HealFile].

    Go's [int] and [int64] are 64-bit two's complement integers and [uint]
    is a 64-bit unsigned integer; they are embedded in [Z], with the
    wrap-around written out where the code does arithmetic on them. *)

From Stdlib Require Import ZArith Lia List Ascii String Bool Sorted.
From stdpp Require Import gmap strings list fin_maps sorting.

Local Open Scope Z_scope.

(** ** Machine integers *)

Definition int64_min : Z := - 2 ^ 63.
Definition int64_max : Z := 2 ^ 63 - 1.
Definition uint64_mod : Z := 2 ^ 64.

Definition in_int64 (z : Z) : Prop := int64_min <= z <= int64_max.

Definition in_int64b (z : Z) : bool := (int64_min <=? z) && (z <=? int64_max).

(** Two's complement wrap-around of a signed 64-bit result. *)
Definition wrap64 (z : Z) : Z := (z + 2 ^ 63) mod 2 ^ 64 - 2 ^ 63.

(** Wrap-around of an unsigned 64-bit result. *)
Definition wrapU64 (z : Z) : Z := z mod uint64_mod.

(** ** Errors

    The error values of the modelled code: the storage layer's sentinel
    errors and the object-API errors built from them. *)

Inductive error :=
| errUnexpected
| errFileNotFound
| errFileAccessDenied
| errVolumeNotFound
| errInvalidArgument
| errBitrotHashAlgoInvalid
| errOther (msg : string)
| BucketNotFound (Bucket : string)
| ObjectNotFound (Bucket Object : string)
| PrefixAccessDenied (Bucket Object : string)
| InvalidUploadID (UploadID : string)
| InvalidPart
| PartTooSmall (PartNumber PartSize : Z) (PartETag : string)
| PartsSizeUnequal
| IncompleteBody
| OperationTimedOut (Path : string).

(** Modelled from the spec: the text [Error()] gives for an error value;
    the declarations of the errors are not among the sources, and the
    text here names the error's kind from "not-found, already-exists,
    access-denied, ..." and its fields. *)
Definition errorString (e : error) : string :=
  match e with
  | errUnexpected => "unexpected error"
  | errFileNotFound => "file not found"
  | errFileAccessDenied => "file access denied"
  | errVolumeNotFound => "volume not found"
  | errInvalidArgument => "invalid arguments specified"
  | errBitrotHashAlgoInvalid => "bitrot hash algorithm is invalid"
  | errOther msg => msg
  | BucketNotFound b => "bucket not found: " +:+ b
  | ObjectNotFound b o => "object not found: " +:+ b +:+ "#" +:+ o
  | PrefixAccessDenied b o => "prefix access is denied: " +:+ b +:+ "/" +:+ o
  | InvalidUploadID u => "invalid upload id " +:+ u
  | InvalidPart => "one or more of the specified parts could not be found"
  | PartTooSmall _ _ _ => "part size is less than the minimum"
  | PartsSizeUnequal => "all parts except the last part should be of the same size"
  | IncompleteBody => "incomplete body"
  | OperationTimedOut p => "operation timed out: " +:+ p
  end.

(** ** Part-file names *)

Module PartFile.

Local Open Scope string_scope.
Local Open Scope Z_scope.

(** *** [strconv] and [fmt] on decimal integers *)

Definition digit_char (d : Z) : ascii := ascii_of_N (48 + Z.to_N d).

(** [ch -= '0'; if ch > 9 { error }] on a byte. *)
Definition digit_val (c : ascii) : option Z :=
  let n := Z.of_N (N_of_ascii c) in
  if (48 <=? n) && (n <=? 57) then Some (n - 48) else None.

(** The digit loop of [fmt]'s integer formatting: the least significant
    digit is produced first and written in front of what is already
    there. [fuel] bounds the number of digits. *)
Fixpoint fmt_digits (fuel : nat) (u : Z) (acc : string) : string :=
  match fuel with
  | O => acc
  | S fuel' =>
      if u <? 10 then String (digit_char u) acc
      else fmt_digits fuel' (u / 10) (String (digit_char (u mod 10)) acc)
  end.

Definition FormatUint (u : Z) : string :=
  fmt_digits (S (Z.to_nat (Z.log2 u))) u "".

Fixpoint zeros (n : nat) : string :=
  match n with
  | O => ""
  | S n' => String "0" (zeros n')
  end.

(** [fmt.Sprintf("%.5d", n)]: the precision of an integer verb is the
    minimum number of digits; the sign comes in front of the padding. *)
Definition padded (n : Z) : string :=
  let ds := FormatUint (Z.abs n) in
  zeros (5 - String.length ds) +:+ ds.

Definition Sprintf_5d (n : Z) : string :=
  if n <? 0 then String "-" (padded n) else padded n.

(** [strconv.Itoa]. *)
Definition Itoa (n : Z) : string :=
  let ds := FormatUint (Z.abs n) in
  if n <? 0 then String "-" ds else ds.

(** The digit loop of [strconv.ParseUint] in base 10, without the range
    check, which [Atoi] below does on the result. *)
Fixpoint parse_digits (s : string) (acc : Z) : option Z :=
  match s with
  | EmptyString => Some acc
  | String c s' =>
      match digit_val c with
      | Some d => parse_digits s' (acc * 10 + d)
      | None => None
      end
  end.

(** [strconv.Atoi]: an optional sign, at least one decimal digit, nothing
    else, and a value in the range of [int]. *)
Definition Atoi (s : string) : option Z :=
  let '(neg, body) :=
    match s with
    | String c r =>
        if Ascii.eqb c "-" then (true, r)
        else if Ascii.eqb c "+" then (false, r)
        else (false, s)
    | EmptyString => (false, s)
    end in
  match body with
  | EmptyString => None
  | _ =>
      match parse_digits body 0 with
      | Some v =>
          let n := if neg : bool then - v else v in
          if in_int64b n then Some n else None
      | None => None
      end
  end.

(** [strings.Split(s, sep)] for a one-byte separator. *)
Fixpoint SplitOn (sep : ascii) (s : string) : list string :=
  match s with
  | EmptyString => [""]
  | String c r =>
      if Ascii.eqb c sep then "" :: SplitOn sep r
      else match SplitOn sep r with
           | h :: t => String c h :: t
           | [] => [String c ""]
           end
  end.

(** [strings.Split(s, ".")]. *)
Definition Split (s : string) : list string := SplitOn "." s.

(** *** The source functions *)

(** Returns partNumber.etag *)
Definition encodePartFile (partNumber : Z) (etag : string) : string :=
  Sprintf_5d partNumber +:+ "." +:+ etag.

(** Returns partNumber and etag *)
Definition decodePartFile (name : string) : error + (Z * string) :=
  match Split name with
  | [r0; r1] =>
      match Atoi r0 with
      | Some partNumber => inr (partNumber, r1)
      | None => inl errUnexpected
      end
  | _ => inl errUnexpected
  end.

(** Strings of decimal digits, and strings without a dot. *)
Fixpoint digits_only (s : string) : bool :=
  match s with
  | EmptyString => true
  | String c r =>
      match digit_val c with
      | Some _ => digits_only r
      | None => false
      end
  end.

Fixpoint no_dot (s : string) : bool :=
  match s with
  | EmptyString => true
  | String c r => negb (Ascii.eqb c ".") && no_dot r
  end.

(** The [w] lowest decimal digits of [n], the most significant first. *)
Fixpoint digitsW (w : nat) (n : Z) : string :=
  match w with
  | O => ""
  | S w' => String (digit_char (n / 10 ^ Z.of_nat w' mod 10)) (digitsW w' n)
  end.

End PartFile.

(** ** The FS multipart coordinator *)

Module Multipart.

Import PartFile.

Local Open Scope string_scope.
Local Open Scope list_scope.
Local Open Scope Z_scope.

(** *** The file system under [fs.fsPath]

    A path is the list of its components below [fs.fsPath]. A regular
    file is represented by what [os.FileInfo] reports of it, its size and
    modification time: no statement below depends on the bytes of a
    file, only on their number. *)

Inductive node :=
| File (size : Z) (modTime : Z)
| Dir.

Abbreviation path := (list string).
Abbreviation fsys := (gmap (list string) node).

Record FileInfo := { fiSize : Z; fiModTime : Z }.

Definition fsMetaJSONFile : string := "fs.json".
Definition minioMetaBucket : path := [".minio.sys"].
Definition minioMetaMultipartBucket : path := [".minio.sys"; "multipart"].
Definition minioMetaTmpBucket : path := [".minio.sys"; "tmp"].
Definition bucketMetaPrefix : string := "buckets".
Definition slashSeparator : string := "/".

(** Modelled from the spec: [globalMinPartSize], whose declaration is
    not among the sources; "S3 minimum part size (5 MiB)". *)
Definition globalMinPartSize : Z := 5 * 1024 * 1024.

(** Modelled from the spec: [isMinAllowedPartSize], not among the
    sources; a part of "5 MiB" is accepted, one of "5 MiB - 1" is not. *)
Definition isMinAllowedPartSize (size : Z) : bool := globalMinPartSize <=? size.

(** Modelled from the spec: [fsStatFile], not among the sources; "stat"
    of the disk abstraction, with the errors not-found (nothing at the
    path) and access-denied (the path is a directory). *)
Definition fsStatFile (t : fsys) (p : path) : error + FileInfo :=
  match t !! p with
  | Some (File sz mt) => inr {| fiSize := sz; fiModTime := mt |}
  | Some Dir => inl errFileAccessDenied
  | None => inl errFileNotFound
  end.

(** Modelled from the spec: [fs.statBucketDir], not among the sources;
    the bucket is the directory of that name under [fs.fsPath], and a
    missing one is reported as volume-not-found. *)
Definition statBucketDir (t : fsys) (bucket : string) : error + unit :=
  match t !! [bucket] with
  | Some Dir => inr tt
  | _ => inl errVolumeNotFound
  end.

(** What is left of [k] below the directory [d], if [k] is inside it. *)
Fixpoint strip_prefix (d k : path) : option path :=
  match d, k with
  | [], _ => Some k
  | x :: d', y :: k' => if String.eqb x y then strip_prefix d' k' else None
  | _ :: _, [] => None
  end.

(** The name under which [readDir] lists the entry at [kv.1], when it is
    directly inside [dir]: directories carry a trailing slash. *)
Definition entry_name (dir : path) (kv : path * node) : option string :=
  match strip_prefix dir kv.1 with
  | Some [name] =>
      match kv.2 with
      | File _ _ => Some name
      | Dir => Some (name +:+ slashSeparator)
      end
  | _ => None
  end.

(** Modelled from the spec: [readDir], not among the sources;
    "ListDir(volume, path): returns entries in unspecified order". *)
Definition readDir (t : fsys) (dir : path) : error + list string :=
  match t !! dir with
  | Some Dir => inr (omap (entry_name dir) (map_to_list t))
  | _ => inl errFileNotFound
  end.

(** Modelled from the spec: [fsRemoveAll], not among the sources;
    "DeleteFile / DeleteDir: recursive for directories". Its callers
    ignore its error. *)
Definition fsRemoveAll (t : fsys) (dir : path) : fsys :=
  filter (fun kv => strip_prefix dir kv.1 = None) t.

(** Modelled from the spec: [fsRemoveFile], not among the sources; it
    deletes a regular file, and its callers ignore its error. *)
Definition fsRemoveFile (t : fsys) (p : path) : fsys :=
  match t !! p with
  | Some (File _ _) => delete p t
  | _ => t
  end.

(** Modelled from the spec: [fsRenameFile], not among the sources;
    "RenameFile: must be atomic on success". *)
Definition fsRenameFile (t : fsys) (src dst : path) : error + fsys :=
  match t !! src with
  | Some (File sz mt) =>
      match t !! dst with
      | Some Dir => inl errFileAccessDenied
      | _ => inr (<[dst := File sz mt]> (delete src t))
      end
  | Some Dir => inl errFileAccessDenied
  | None => inl errFileNotFound
  end.

(** Modelled from the spec: [mioutil.AppendFile(dst, src)], not among
    the sources; it appends the bytes of [src] to [dst], which it
    creates when missing. *)
Definition AppendFile (t : fsys) (dst src : path) : error + fsys :=
  match t !! src with
  | Some (File sz _) =>
      match t !! dst with
      | Some (File dsz dmt) => inr (<[dst := File (dsz + sz) dmt]> t)
      | Some Dir => inl errFileAccessDenied
      | None => inr (<[dst := File sz 0]> t)
      end
  | Some Dir => inl errFileAccessDenied
  | None => inl errFileNotFound
  end.

(** *** Data *)

(** A [hash.Reader]: the size announced for the stream, the number of
    bytes the stream delivers, and the hex MD5 of what was read (empty
    when the reader does not expose one). *)
Record Reader := { rSize : Z; rAvail : Z; rMD5Current : string }.

(** Modelled from the spec: [fsCreateFile], not among the sources;
    "CreateFile(volume, path, reader, size) -> written: streams exactly
    size bytes", fewer when the reader ends early. [now] is the time of
    the write. *)
Definition fsCreateFile (t : fsys) (p : path) (data : Reader) (now : Z)
    : error + (fsys * Z) :=
  match t !! p with
  | Some Dir => inl errFileAccessDenied
  | _ =>
      let written := Z.max 0 (Z.min (rAvail data) (rSize data)) in
      inr (<[p := File written now]> t, written)
  end.

Module PartInfo.
Record t := { PartNumber : Z; LastModified : Z; ETag : string; Size : Z }.
End PartInfo.

Module CompletePart.
Record t := { PartNumber : Z; ETag : string }.
End CompletePart.

Record ObjectInfo := { oiBucket : string; oiName : string; oiSize : Z; oiETag : string }.

(** The in-memory append record of an upload id. *)
Record fsAppendFile := { parts : list PartInfo.t; filePath : path }.

Record FSObjects := {
  fsUUID : string;
  tree : fsys;
  appendFileMap : gmap string fsAppendFile
}.

(** The helpers of the object layer that only validate names or hash
    strings; their sources are not available, and nothing below depends
    on what they compute. *)
Class Helpers := {
  getSHA256Hash : string -> string;
  pathJoin : string -> string -> string;
  checkPutObjectPartArgs : string -> string -> option error;
  checkCompleteMultipartArgs : string -> string -> option error;
  checkAbortMultipartArgs : string -> string -> option error;
  parentDirIsObject : fsys -> string -> string -> bool;
  getCompleteMultipartMD5 : list CompletePart.t -> error + string;
  fsMetaSize : string -> Z
}.

(** Modelled from the spec: [toObjectErr], not among the sources;
    "translates backend errors to the canonical API error set". *)
Definition toObjectErr (err : error) (bucket object : string) : error :=
  match err with
  | errVolumeNotFound => BucketNotFound bucket
  | errFileNotFound => ObjectNotFound bucket object
  | errFileAccessDenied => PrefixAccessDenied bucket object
  | _ => err
  end.

Definition withTree (fs : FSObjects) (t : fsys) : FSObjects :=
  {| fsUUID := fsUUID fs; tree := t; appendFileMap := appendFileMap fs |}.

(** A path as one string, for error values. *)
Definition pathString (p : path) : string := String.concat "/" p.

(** The components of an object name below its bucket. *)
Definition objectPath (object : string) : path :=
  filter (fun c => c <> "") (SplitOn "/" object).

(** [sort.Strings]: ascending byte-wise order. *)
Fixpoint insertSorted (x : string) (l : list string) : list string :=
  match l with
  | [] => [x]
  | y :: l' => if String.leb x y then x :: l else y :: insertSorted x l'
  end.

Definition sortStrings (l : list string) : list string :=
  foldr insertSorted [] l.

Section WithHelpers.

Context `{Helpers}.

(** Returns EXPORT/.minio.sys/multipart/SHA256/UPLOADID *)
Definition getUploadIDDir (bucket object uploadID : string) : path :=
  minioMetaMultipartBucket ++ [getSHA256Hash (pathJoin bucket object); uploadID].

(** Returns EXPORT/.minio.sys/multipart/SHA256 *)
Definition getMultipartSHADir (bucket object : string) : path :=
  minioMetaMultipartBucket ++ [getSHA256Hash (pathJoin bucket object)].

(** *** [backgroundAppend] *)

(** The loop over the sorted directory entries. [nextPartNumber] is the
    loop variable of the source; it counts the length of a slice, so
    its increment cannot wrap. The result is the file system and the
    record when the loop ends, by exhaustion or by a [return]. *)
Fixpoint appendEntries (uploadIDDir : path) (entries : list string)
    (nextPartNumber : Z) (t : fsys) (file : fsAppendFile) : fsys * fsAppendFile :=
  match entries with
  | [] => (t, file)
  | entry :: rest =>
      if String.eqb entry fsMetaJSONFile then
        appendEntries uploadIDDir rest nextPartNumber t file
      else
        match decodePartFile entry with
        | inl _ => (t, file)
        | inr (partNumber, etag) =>
            if partNumber <? nextPartNumber then
              (* Part already appended. *)
              appendEntries uploadIDDir rest nextPartNumber t file
            else if nextPartNumber <? partNumber then
              (* Required part number is not yet uploaded. *)
              (t, file)
            else
              match AppendFile t (filePath file) (uploadIDDir ++ [entry]) with
              | inl _ => (t, file)
              | inr t' =>
                  let part := {| PartInfo.PartNumber := nextPartNumber;
                                 PartInfo.LastModified := 0;
                                 PartInfo.ETag := etag;
                                 PartInfo.Size := 0 |} in
                  appendEntries uploadIDDir rest (nextPartNumber + 1) t'
                    {| parts := parts file ++ [part]; filePath := filePath file |}
              end
        end
  end.

(** Appends parts to an appendFile sequentially. [uuid] is the value
    [mustGetUUID] returns if a new record is made. One run is one step of
    the model: the record is taken from the map, or made, and put back
    when the scan is over. *)
Definition backgroundAppend (bucket object uploadID uuid : string)
    (fs : FSObjects) : FSObjects :=
  let file :=
    match appendFileMap fs !! uploadID with
    | Some file => file
    | None =>
        {| parts := [];
           filePath := minioMetaTmpBucket ++ [fsUUID fs; uploadID +:+ "." +:+ uuid] |}
    end in
  (* Since we append sequentially nextPartNumber will always be len(file.parts)+1 *)
  let nextPartNumber := Z.of_nat (length (parts file)) + 1 in
  let uploadIDDir : path := getUploadIDDir bucket object uploadID in
  match readDir (tree fs) uploadIDDir with
  | inl _ =>
      {| fsUUID := fsUUID fs; tree := tree fs;
         appendFileMap := <[uploadID := file]> (appendFileMap fs) |}
  | inr entries =>
      let '(t', file') :=
        appendEntries uploadIDDir (sortStrings entries) nextPartNumber (tree fs) file in
      {| fsUUID := fsUUID fs; tree := t';
         appendFileMap := <[uploadID := file']> (appendFileMap fs) |}
  end.

(** *** [AbortMultipartUpload] *)

Definition AbortMultipartUpload (bucket object uploadID : string)
    (fs : FSObjects) : FSObjects * option error :=
  match checkAbortMultipartArgs bucket object with
  | Some err => (fs, Some err)
  | None =>
  match statBucketDir (tree fs) bucket with
  | inl err => (fs, Some (toObjectErr err bucket ""))
  | inr _ =>
  let fs1 := {| fsUUID := fsUUID fs; tree := tree fs;
                appendFileMap := delete uploadID (appendFileMap fs) |} in
  let uploadIDDir : path := getUploadIDDir bucket object uploadID in
  (* Just check if the uploadID exists to avoid copy if it doesn't. *)
  match fsStatFile (tree fs1) (uploadIDDir ++ [fsMetaJSONFile]) with
  | inl err =>
      match err with
      | errFileNotFound | errFileAccessDenied => (fs1, Some (InvalidUploadID uploadID))
      | _ => (fs1, Some (toObjectErr err bucket object))
      end
  | inr _ =>
      (* Ignore the error returned as Windows fails to remove directory if a
         file in it is Open()ed by the backgroundAppend() *)
      ({| fsUUID := fsUUID fs1; tree := fsRemoveAll (tree fs1) uploadIDDir;
          appendFileMap := appendFileMap fs1 |}, None)
  end end end.

(** *** [PutObjectPart] *)

(** PutObjectPart - reads incoming data until EOF for the part file on
    an ongoing multipart transaction. [uuid] and [genETag] are what
    [mustGetUUID] and [GenETag] return in this call and [now] is the
    time of the write. The [go fs.backgroundAppend(...)] it starts is a
    step of its own ([backgroundAppend] above). *)
Definition PutObjectPart (bucket object uploadID : string) (partID : Z)
    (data : Reader) (uuid genETag : string) (now : Z) (fs : FSObjects)
    : FSObjects * (error + PartInfo.t) :=
  match checkPutObjectPartArgs bucket object with
  | Some err => (fs, inl (toObjectErr err bucket ""))
  | None =>
  match statBucketDir (tree fs) bucket with
  | inl err => (fs, inl (toObjectErr err bucket ""))
  | inr _ =>
  (* Validate input data size and it can never be less than zero. *)
  if rSize data <? 0 then (fs, inl (toObjectErr errInvalidArgument "" "")) else
  let uploadIDDir : path := getUploadIDDir bucket object uploadID in
  (* Just check if the uploadID exists to avoid copy if it doesn't. *)
  match fsStatFile (tree fs) (uploadIDDir ++ [fsMetaJSONFile]) with
  | inl err =>
      match err with
      | errFileNotFound | errFileAccessDenied => (fs, inl (InvalidUploadID uploadID))
      | _ => (fs, inl (toObjectErr err bucket object))
      end
  | inr _ =>
  let tmpPartPath : path :=
    minioMetaTmpBucket ++ [fsUUID fs; uploadID +:+ "." +:+ uuid +:+ "." +:+ Itoa partID] in
  match fsCreateFile (tree fs) tmpPartPath data now with
  | inl err =>
      (withTree fs (fsRemoveFile (tree fs) tmpPartPath),
       inl (toObjectErr err (pathString minioMetaTmpBucket) (pathString tmpPartPath)))
  | inr (t1, bytesWritten) =>
  (* Should return IncompleteBody{} error when reader has fewer
     bytes than specified in request header. *)
  if bytesWritten <? rSize data then
    (withTree fs (fsRemoveFile t1 tmpPartPath), inl IncompleteBody)
  else
  let etag := if String.eqb (rMD5Current data) "" then genETag else rMD5Current data in
  let partPath : path := uploadIDDir ++ [encodePartFile partID etag] in
  match fsRenameFile t1 tmpPartPath partPath with
  | inl err =>
      (withTree fs (fsRemoveFile t1 tmpPartPath),
       inl (toObjectErr err (pathString minioMetaMultipartBucket) (pathString partPath)))
  | inr t2 =>
  match fsStatFile t2 partPath with
  | inl err =>
      (withTree fs (fsRemoveFile t2 tmpPartPath),
       inl (toObjectErr err (pathString minioMetaMultipartBucket) (pathString partPath)))
  | inr fi =>
      (withTree fs (fsRemoveFile t2 tmpPartPath),
       inr {| PartInfo.PartNumber := partID;
              PartInfo.LastModified := fiModTime fi;
              PartInfo.ETag := etag;
              PartInfo.Size := fiSize fi |})
  end end end end end end.

(** *** [CompleteMultipartUpload] *)

(** The loop that validates all parts before anything is committed.
    The argument [parts] of the source is called [claimed] here, to keep
    it apart from the field [parts] of the append record.
    [n] is [len(parts)], [i] the index of the head of [claimed] and
    [partSize] the variable of that name, [-1] until the first part has
    been seen. [None] when the loop ends without an error. *)
Fixpoint validateParts (t : fsys) (uploadIDDir : path) (n i : Z) (partSize : Z)
    (claimed : list CompletePart.t) : option error :=
  match claimed with
  | [] => None
  | part :: rest =>
      let partPath : path :=
        uploadIDDir ++ [encodePartFile (CompletePart.PartNumber part) (CompletePart.ETag part)] in
      match fsStatFile t partPath with
      | inl err =>
          match err with
          | errFileNotFound | errFileAccessDenied => Some InvalidPart
          | _ => Some err
          end
      | inr fi =>
          let partSize := if partSize =? -1 then fiSize fi else partSize in
          if i =? n - 1 then None
          (* All parts except the last part has to be atleast 5MB. *)
          else if negb (isMinAllowedPartSize (fiSize fi)) then
            Some (PartTooSmall (CompletePart.PartNumber part) (fiSize fi) (CompletePart.ETag part))
          (* All parts except the last part has to be of same size. *)
          else if negb (partSize =? fiSize fi) then Some PartsSizeUnequal
          else validateParts t uploadIDDir n (i + 1) partSize rest
      end
  end.

(** Verify that appendFile has all the parts: the loop that clears
    [appendFallback] when it reaches the last index without a [break]. *)
Fixpoint verifyAppended (n i : Z) (ps : list CompletePart.t) (fps : list PartInfo.t) : bool :=
  match ps, fps with
  | p :: ps', f :: fps' =>
      if negb (String.eqb (CompletePart.ETag p) (PartInfo.ETag f)) then false
      else if negb (CompletePart.PartNumber p =? PartInfo.PartNumber f) then false
      else if i =? n - 1 then true
      else verifyAppended n (i + 1) ps' fps'
  | _, _ => false
  end.

(** The fallback: a fresh sequential append of the claimed parts. *)
Fixpoint appendFallbackParts (t : fsys) (uploadIDDir appendFilePath : path)
    (claimed : list CompletePart.t) : fsys * option error :=
  match claimed with
  | [] => (t, None)
  | part :: rest =>
      let partPath : path :=
        uploadIDDir ++ [encodePartFile (CompletePart.PartNumber part) (CompletePart.ETag part)] in
      match AppendFile t appendFilePath partPath with
      | inl err => (t, Some (toObjectErr err "" ""))
      | inr t' => appendFallbackParts t' uploadIDDir appendFilePath rest
      end
  end.

(** What follows the validation of the parts: the appended file is
    found or made, the write lock on the object is taken ([lockGranted]
    is whether [GetLock] got it before its timeout), the metadata is
    written and the appended file is renamed into the object's place. *)
Definition commitMultipartUpload (bucket object uploadID : string)
    (claimed : list CompletePart.t) (s3MD5 : string) (uuid uuid' : string)
    (lockGranted : bool) (now : Z) (fs : FSObjects) : FSObjects * (error + ObjectInfo) :=
  let uploadIDDir : path := getUploadIDDir bucket object uploadID in
  let appendFilePath0 : path := minioMetaTmpBucket ++ [fsUUID fs; uploadID +:+ "." +:+ uuid] in
  let fs1 := backgroundAppend bucket object uploadID uuid' fs in
  let file := appendFileMap fs1 !! uploadID in
  let fs2 := {| fsUUID := fsUUID fs1; tree := tree fs1;
                appendFileMap := delete uploadID (appendFileMap fs1) |} in
  let verified :=
    match file with
    | Some f =>
        if Z.of_nat (length (parts f)) =? Z.of_nat (length claimed)
        then verifyAppended (Z.of_nat (length claimed)) 0 claimed (parts f)
        else false
    | None => false
    end in
  let appendFilePath : path :=
    match file with
    | Some f => if verified then filePath f else appendFilePath0
    | None => appendFilePath0
    end in
  let '(t3, ferr) :=
    if verified then (tree fs2, None)
    else
      let t := match file with
               | Some f => fsRemoveFile (tree fs2) (filePath f)
               | None => tree fs2
               end in
      appendFallbackParts t uploadIDDir appendFilePath claimed in
  match ferr with
  | Some err => (withTree fs2 t3, inl err)
  | None =>
  (* Hold write lock on the object. *)
  if negb lockGranted then (withTree fs2 t3, inl (OperationTimedOut object)) else
  let fsMetaPath : path :=
    minioMetaBucket ++ [bucketMetaPrefix; bucket] ++ objectPath object ++ [fsMetaJSONFile] in
  match t3 !! fsMetaPath with
  | Some Dir => (withTree fs2 t3, inl (toObjectErr errFileAccessDenied bucket object))
  | _ =>
  let t4 := <[fsMetaPath := File 0 now]> t3 in
  (* Read saved fs metadata for ongoing multipart. *)
  match fsStatFile t4 (uploadIDDir ++ [fsMetaJSONFile]) with
  | inl err => (withTree fs2 t4, inl (toObjectErr err bucket object))
  | inr _ =>
  let t5 := <[fsMetaPath := File (fsMetaSize s3MD5) now]> t4 in
  match fsRenameFile t5 appendFilePath ([bucket] ++ objectPath object) with
  | inl err => (withTree fs2 t5, inl (toObjectErr err bucket object))
  | inr t6 =>
  let t7 := fsRemoveAll t6 uploadIDDir in
  match fsStatFile t7 ([bucket] ++ objectPath object) with
  | inl err => (withTree fs2 t7, inl (toObjectErr err bucket object))
  | inr fi =>
      (withTree fs2 t7,
       inr {| oiBucket := bucket; oiName := object; oiSize := fiSize fi; oiETag := s3MD5 |})
  end end end end end.

(** CompleteMultipartUpload - completes an ongoing multipart transaction
    after receiving all the parts indicated by the client. *)
Definition CompleteMultipartUpload (bucket object uploadID : string)
    (claimed : list CompletePart.t) (uuid uuid' : string) (lockGranted : bool)
    (now : Z) (fs : FSObjects) : FSObjects * (error + ObjectInfo) :=
  match checkCompleteMultipartArgs bucket object with
  | Some err => (fs, inl (toObjectErr err "" ""))
  | None =>
  (* Check if an object is present as one of the parent dir. *)
  if parentDirIsObject (tree fs) bucket object then
    (fs, inl (toObjectErr errFileAccessDenied bucket object))
  else
  match statBucketDir (tree fs) bucket with
  | inl err => (fs, inl (toObjectErr err bucket ""))
  | inr _ =>
  let uploadIDDir : path := getUploadIDDir bucket object uploadID in
  (* Just check if the uploadID exists to avoid copy if it doesn't. *)
  match fsStatFile (tree fs) (uploadIDDir ++ [fsMetaJSONFile]) with
  | inl err =>
      match err with
      | errFileNotFound | errFileAccessDenied => (fs, inl (InvalidUploadID uploadID))
      | _ => (fs, inl (toObjectErr err bucket object))
      end
  | inr _ =>
  (* Calculate s3 compatible md5sum for complete multipart. *)
  match getCompleteMultipartMD5 claimed with
  | inl err => (fs, inl err)
  | inr s3MD5 =>
  (* Validate all parts and then commit to disk. *)
  match validateParts (tree fs) uploadIDDir (Z.of_nat (length claimed)) 0 (-1) claimed with
  | Some err => (fs, inl err)
  | None =>
      commitMultipartUpload bucket object uploadID claimed s3MD5 uuid uuid' lockGranted now fs
  end end end end end.

(** The guards of [PutObjectPart] before it looks for the upload id. *)
Definition putGuardsPass (fs : FSObjects) (bucket object : string) (data : Reader) : Prop :=
  checkPutObjectPartArgs bucket object = None /\
  statBucketDir (tree fs) bucket = inr tt /\
  0 <= rSize data.

(** The guards of [CompleteMultipartUpload] before it validates the
    parts. *)
Definition completeGuardsPass (fs : FSObjects) (bucket object uploadID : string)
    (claimed : list CompletePart.t) : Prop :=
  checkCompleteMultipartArgs bucket object = None /\
  parentDirIsObject (tree fs) bucket object = false /\
  statBucketDir (tree fs) bucket = inr tt /\
  (exists fi, fsStatFile (tree fs) (getUploadIDDir bucket object uploadID ++ [fsMetaJSONFile])
              = inr fi) /\
  (exists s3MD5, getCompleteMultipartMD5 claimed = inr s3MD5).

(** The size on disk of a claimed part of an upload, if its part file
    is there. *)
Definition claimedSize (fs : FSObjects) (bucket object uploadID : string)
    (part : CompletePart.t) : option Z :=
  match fsStatFile (tree fs)
          (getUploadIDDir bucket object uploadID
             ++ [encodePartFile (CompletePart.PartNumber part) (CompletePart.ETag part)]) with
  | inr fi => Some (fiSize fi)
  | inl _ => None
  end.

(** Every claimed part before index [i] is on disk, has at least the
    minimum size, and has the size of the first claimed part. *)
Definition earlierPartsGood (fs : FSObjects) (bucket object uploadID : string)
    (claimed : list CompletePart.t) (i : nat) : Prop :=
  forall j p, (j < i)%nat -> claimed !! j = Some p ->
    exists sz, claimedSize fs bucket object uploadID p = Some sz /\
               globalMinPartSize <= sz /\
               head claimed ≫= claimedSize fs bucket object uploadID = Some sz.

(** Claimed part [j] is the first one that the validation loop of
    [CompleteMultipartUpload] rejects, and [e] is the error of that
    rejection: every claimed part before [j] passes; and part [j] is not
    on disk ([InvalidPart]), or is not the last claimed part and has less
    than the minimum size ([PartTooSmall] with its number, size and etag),
    or is not the last claimed part, has the minimum size and differs in
    size from the first claimed part ([PartsSizeUnequal]). *)
Definition firstFailure (fs : FSObjects) (bucket object uploadID : string)
    (claimed : list CompletePart.t) (j : nat) (e : error) : Prop :=
  exists pj,
    claimed !! j = Some pj /\
    earlierPartsGood fs bucket object uploadID claimed j /\
    ((claimedSize fs bucket object uploadID pj = None /\ e = InvalidPart) \/
     (exists sz, claimedSize fs bucket object uploadID pj = Some sz /\
        (S j < length claimed)%nat /\ sz < globalMinPartSize /\
        e = PartTooSmall (CompletePart.PartNumber pj) sz (CompletePart.ETag pj)) \/
     (exists sz, claimedSize fs bucket object uploadID pj = Some sz /\
        (S j < length claimed)%nat /\ globalMinPartSize <= sz /\
        head claimed ≫= claimedSize fs bucket object uploadID <> Some sz /\
        e = PartsSizeUnequal)).

End WithHelpers.

(** The part file of a claimed part is in [dir], has at least the
    minimum size, and has size [first]. *)
Definition goodSize (t : fsys) (dir : path) (first : Z) (part : CompletePart.t) : Prop :=
  exists fi,
    fsStatFile t (dir ++ [encodePartFile (CompletePart.PartNumber part) (CompletePart.ETag part)])
      = inr fi /\
    globalMinPartSize <= fiSize fi /\ fiSize fi = first.

(** The part file of a claimed part is in [dir]. *)
Definition onDisk (t : fsys) (dir : path) (part : CompletePart.t) : Prop :=
  exists fi,
    fsStatFile t (dir ++ [encodePartFile (CompletePart.PartNumber part) (CompletePart.ETag part)])
      = inr fi.

(** The value of [partSize] once the first claimed part has been
    seen; [-1] when there is none or it cannot be stat'ed. *)
Definition firstPartSize (t : fsys) (dir : path) (claimed : list CompletePart.t) : Z :=
  match claimed with
  | part :: _ =>
      match fsStatFile t
              (dir ++ [encodePartFile (CompletePart.PartNumber part) (CompletePart.ETag part)]) with
      | inr fi => fiSize fi
      | inl _ => -1
      end
  | [] => -1
  end.

(** The errors the validation loop makes itself. *)
Definition isValidationError (e : error) : Prop :=
  e = InvalidPart \/ (exists n sz etag, e = PartTooSmall n sz etag) \/ e = PartsSizeUnequal.

(** Part numbers [1..k] in order. *)
Definition contiguous (ps : list PartInfo.t) : Prop :=
  PartInfo.PartNumber <$> ps = Z.of_nat <$> seq 1 (length ps).

(** Every record of the append map holds part numbers [1..k] in order. *)
Definition allContiguous (fs : FSObjects) : Prop :=
  forall uploadID file, appendFileMap fs !! uploadID = Some file -> contiguous (parts file).

(** The record of an upload id as [backgroundAppend] finds it. *)
Definition recordedParts (fs : FSObjects) (uploadID : string) : list PartInfo.t :=
  match appendFileMap fs !! uploadID with
  | Some file => parts file
  | None => []
  end.




(** Helpers that accept every name and every list of parts, for the
    examples below. *)
Definition plainHelpers : Helpers := {|
  getSHA256Hash := fun s => s;
  pathJoin := fun bucket object => bucket +:+ "/" +:+ object;
  checkPutObjectPartArgs := fun _ _ => None;
  checkCompleteMultipartArgs := fun _ _ => None;
  checkAbortMultipartArgs := fun _ _ => None;
  parentDirIsObject := fun _ _ _ => false;
  getCompleteMultipartMD5 := fun _ => inr "8b1a9953c4611296a827abf8c47804d7-4";
  fsMetaSize := fun _ => 2
|}.

(** A file system with a bucket and one upload of four parts for
    [bucket/object]: two of 5 MiB, one of 6 MiB and one of a byte. *)
Definition exampleDir : path := @getUploadIDDir plainHelpers "bucket" "object" "u1".

Definition exampleTree : fsys :=
  list_to_map
    [ (["bucket"], Dir);
      (exampleDir, Dir);
      (exampleDir ++ [fsMetaJSONFile], File 2 0);
      (exampleDir ++ ["00001.aa"], File (5 * 1024 * 1024) 1);
      (exampleDir ++ ["00002.bb"], File (5 * 1024 * 1024) 2);
      (exampleDir ++ ["00003.cc"], File (6 * 1024 * 1024) 3);
      (exampleDir ++ ["00004.dd"], File 1 4) ].

Definition exampleFS : FSObjects :=
  {| fsUUID := "fs-uuid"; tree := exampleTree; appendFileMap := ∅ |}.



(** The server after its export directory has been removed: nothing is
    left below [fs.fsPath]. *)
Definition emptyFS : FSObjects :=
  {| fsUUID := "fs-uuid"; tree := ∅; appendFileMap := ∅ |}.

Definition exampleReader : Reader :=
  {| rSize := 5; rAvail := 5; rMD5Current := "827ccb0eea8a706c4c34a16891f84e7b" |}.

Definition claim (partNumber : Z) (etag : string) : CompletePart.t :=
  {| CompletePart.PartNumber := partNumber; CompletePart.ETag := etag |}.

(** *** Listing the parts of an upload *)

Module ListPartsInfo.
Record t := {
  Bucket : string;
  Object : string;
  UploadID : string;
  PartNumberMarker : Z;
  NextPartNumberMarker : Z;
  MaxParts : Z;
  IsTruncated : bool;
  Parts : list PartInfo.t
}.
Definition zero : t :=
  {| Bucket := ""; Object := ""; UploadID := ""; PartNumberMarker := 0;
     NextPartNumberMarker := 0; MaxParts := 0; IsTruncated := false; Parts := [] |}.
End ListPartsInfo.

(** The loop of [ListObjectParts] that fills [partsMap]: of two part
    files with the same part number the one modified later is kept. *)
Fixpoint collectParts (t : fsys) (uploadIDDir : path) (entries : list string)
    (partsMap : gmap Z string) : error + gmap Z string :=
  match entries with
  | [] => inr partsMap
  | entry :: rest =>
      if String.eqb entry fsMetaJSONFile then collectParts t uploadIDDir rest partsMap
      else
        match decodePartFile entry with
        | inl err => inl (toObjectErr err "" "")
        | inr (partNumber, etag1) =>
            match partsMap !! partNumber with
            | None => collectParts t uploadIDDir rest (<[partNumber := etag1]> partsMap)
            | Some etag2 =>
                match fsStatFile t (uploadIDDir ++ [encodePartFile partNumber etag1]) with
                | inl err => inl (toObjectErr err "" "")
                | inr stat1 =>
                    match fsStatFile t (uploadIDDir ++ [encodePartFile partNumber etag2]) with
                    | inl err => inl (toObjectErr err "" "")
                    | inr stat2 =>
                        if fiModTime stat2 <? fiModTime stat1 then
                          collectParts t uploadIDDir rest (<[partNumber := etag1]> partsMap)
                        else collectParts t uploadIDDir rest partsMap
                    end
                end
            end
        end
  end.

(** The number and the etag of a part. *)
Definition partKey (p : PartInfo.t) : Z * string :=
  (PartInfo.PartNumber p, PartInfo.ETag p).

(** [sort.SliceStable] by part number: a stable insertion sort. *)
Fixpoint insertPart (x : PartInfo.t) (l : list PartInfo.t) : list PartInfo.t :=
  match l with
  | [] => [x]
  | y :: l' =>
      if PartInfo.PartNumber y <? PartInfo.PartNumber x then y :: insertPart x l'
      else x :: l
  end.

Definition sortPartsStable (l : list PartInfo.t) : list PartInfo.t :=
  foldr insertPart [] l.

(** The slice [parts] of [ListObjectParts] after it is sorted. The
    order in which Go ranges over [partsMap] is not specified; the keys
    of a map are distinct, so the sorted slice does not depend on it. *)
Definition partsOfMap (partsMap : gmap Z string) : list PartInfo.t :=
  sortPartsStable
    ((fun kv => {| PartInfo.PartNumber := kv.1; PartInfo.LastModified := 0;
                   PartInfo.ETag := kv.2; PartInfo.Size := 0 |}) <$> map_to_list partsMap).

(** If the marker was set, skip the entries till the marker: the value
    of [i] after the loop over [parts], started with [i]. *)
Fixpoint skipToMarker (parts : list PartInfo.t) (partNumberMarker : Z) (i : nat) : nat :=
  match parts with
  | [] => i
  | part :: rest =>
      if PartInfo.PartNumber part =? partNumberMarker then S i
      else skipToMarker rest partNumberMarker (S i)
  end.

(** The loop [for partsCount < maxParts && i < len(parts)], over the
    parts from index [i] on: the parts taken, the parts left and
    [partsCount]. *)
Fixpoint takeParts (remaining : list PartInfo.t) (partsCount maxParts : Z)
    (taken : list PartInfo.t) : list PartInfo.t * list PartInfo.t * Z :=
  match remaining with
  | [] => (taken, [], partsCount)
  | part :: rest =>
      if partsCount <? maxParts then takeParts rest (partsCount + 1) maxParts (taken ++ [part])
      else (taken, remaining, partsCount)
  end.

(** The last loop: the parts are given the size and the modification
    time of their files. At the first error the parts before it have
    been filled in and the others have not. *)
Fixpoint statParts (t : fsys) (uploadIDDir : path) (parts : list PartInfo.t)
    : list PartInfo.t * option error :=
  match parts with
  | [] => ([], None)
  | part :: rest =>
      match fsStatFile t (uploadIDDir
              ++ [encodePartFile (PartInfo.PartNumber part) (PartInfo.ETag part)]) with
      | inl err => (parts, Some (toObjectErr err "" ""))
      | inr stat =>
          let part' := {| PartInfo.PartNumber := PartInfo.PartNumber part;
                          PartInfo.LastModified := fiModTime stat;
                          PartInfo.ETag := PartInfo.ETag part;
                          PartInfo.Size := fiSize stat |} in
          let '(rest', err) := statParts t uploadIDDir rest in
          (part' :: rest', err)
      end
  end.

Section Listing.

Context `{Helpers}.

(** [checkListPartsArgs], [checkListMultipartArgs] and
    [checkNewMultipartArgs], whose sources are not available: they
    validate the names only. *)
Variable checkListPartsArgs : string -> string -> option error.

(** The slice [parts] of [ListObjectParts], sorted, from the entries of
    the upload-id directory. *)
Definition listedParts (fs : FSObjects) (bucket object uploadID : string)
    : error + list PartInfo.t :=
  let uploadIDDir : path := getUploadIDDir bucket object uploadID in
  match readDir (tree fs) uploadIDDir with
  | inl err => inl (toObjectErr err bucket "")
  | inr entries =>
      match collectParts (tree fs) uploadIDDir entries ∅ with
      | inl err => inl err
      | inr partsMap => inr (partsOfMap partsMap)
      end
  end.

(** ListObjectParts - lists all previously uploaded parts for a given
    object and uploadID. Takes additional input of part-number-marker
    to indicate where the listing should begin from. *)
Definition ListObjectParts (bucket object uploadID : string)
    (partNumberMarker maxParts : Z) (fs : FSObjects)
    : ListPartsInfo.t * option error :=
  match checkListPartsArgs bucket object with
  | Some err => (ListPartsInfo.zero, Some (toObjectErr err "" ""))
  | None =>
  let result :=
    {| ListPartsInfo.Bucket := bucket; ListPartsInfo.Object := object;
       ListPartsInfo.UploadID := uploadID; ListPartsInfo.PartNumberMarker := partNumberMarker;
       ListPartsInfo.NextPartNumberMarker := 0; ListPartsInfo.MaxParts := maxParts;
       ListPartsInfo.IsTruncated := false; ListPartsInfo.Parts := [] |} in
  (* Check if bucket exists *)
  match statBucketDir (tree fs) bucket with
  | inl err => (result, Some (toObjectErr err bucket ""))
  | inr _ =>
  let uploadIDDir : path := getUploadIDDir bucket object uploadID in
  match fsStatFile (tree fs) (uploadIDDir ++ [fsMetaJSONFile]) with
  | inl err =>
      match err with
      | errFileNotFound | errFileAccessDenied => (result, Some (InvalidUploadID uploadID))
      | _ => (result, Some (toObjectErr err bucket object))
      end
  | inr _ =>
  match listedParts fs bucket object uploadID with
  | inl err => (result, Some err)
  | inr parts =>
  let i := if partNumberMarker =? 0 then 0%nat else skipToMarker parts partNumberMarker 0 in
  let '(taken, remaining, partsCount) := takeParts (drop i parts) 0 maxParts [] in
  let isTruncated := match remaining with [] => false | _ :: _ => true end in
  let next :=
    if isTruncated && negb (partsCount =? 0) then
      match last taken with
      | Some part => PartInfo.PartNumber part
      | None => 0
      end
    else 0 in
  let '(stated, err) := statParts (tree fs) uploadIDDir taken in
  ({| ListPartsInfo.Bucket := bucket; ListPartsInfo.Object := object;
      ListPartsInfo.UploadID := uploadID; ListPartsInfo.PartNumberMarker := partNumberMarker;
      ListPartsInfo.NextPartNumberMarker := next; ListPartsInfo.MaxParts := maxParts;
      ListPartsInfo.IsTruncated := isTruncated; ListPartsInfo.Parts := stated |}, err)
  end end end end.

End Listing.

(** The example upload with a file in its directory that is not a part
    file. *)
Definition strayFS : FSObjects :=
  {| fsUUID := "fs-uuid";
     tree := <[exampleDir ++ ["README"] := File 1 5]> exampleTree;
     appendFileMap := ∅ |}.

(** A check of names that accepts every name, for the examples. *)
Definition anyName (bucket object : string) : option error := None.

(** The listings of the example upload: its first two parts, the two
    after them, its first three parts, and all of them. *)
Definition examplePage1 : ListPartsInfo.t :=
  Eval vm_compute in
    (@ListObjectParts plainHelpers anyName "bucket" "object" "u1" 0 2 exampleFS).1.

Definition examplePage2 : ListPartsInfo.t :=
  Eval vm_compute in
    (@ListObjectParts plainHelpers anyName "bucket" "object" "u1" 2 2 exampleFS).1.

Definition examplePage3 : ListPartsInfo.t :=
  Eval vm_compute in
    (@ListObjectParts plainHelpers anyName "bucket" "object" "u1" 0 3 exampleFS).1.

Definition exampleAllParts : ListPartsInfo.t :=
  Eval vm_compute in
    (@ListObjectParts plainHelpers anyName "bucket" "object" "u1" 0 10 exampleFS).1.

(** The entries of the upload-id directory of [strayFS]. *)
Definition strayEntries : list string :=
  Eval vm_compute in
    match readDir (tree strayFS) exampleDir with
    | inr entries => entries
    | inl _ => []
    end.

End Multipart.

(** ** The namespace lock map *)

Module NSLock.

Local Open Scope string_scope.
Local Open Scope list_scope.
Local Open Scope Z_scope.

(** nsParam - carries name space resource. *)
Abbreviation nsParam := (string * string)%type.

(** RWLockerSync - internal locker interface. Its implementations,
    [lsync.LRWMutex] on one server and [dsync.DRWMutex] in a distributed
    setup, are libraries outside the sources. The model keeps what a
    caller of the interface sees of them: the lock is held by one writer
    or by a number of readers; [GetLock] obtains it before the timeout when
    nobody holds it, [GetRLock] when no writer holds it; and [Unlock] and
    [RUnlock] panic ("Trying to Unlock() while no Lock() is active") when
    the lock is not held in their mode. *)
Module RWLockerSync.

Record t := { writer : bool; readers : nat }.

(** A new lock, [&lsync.LRWMutex{}] or [dsync.NewDRWMutex(...)]: nobody
    holds it. *)
Definition new : t := {| writer := false; readers := 0 |}.

(** [GetLock(timeout)] and [GetRLock(timeout)], when nothing else
    happens to the lock before the timeout: the answer is whether the
    lock was obtained. *)
Definition GetLock (m : t) : t * bool :=
  if negb (writer m) && Nat.eqb (readers m) 0
  then ({| writer := true; readers := readers m |}, true)
  else (m, false).

Definition GetRLock (m : t) : t * bool :=
  if negb (writer m)
  then ({| writer := writer m; readers := S (readers m) |}, true)
  else (m, false).

(** [Unlock()] and [RUnlock()]; [None] is the panic. *)
Definition Unlock (m : t) : option t :=
  if writer m then Some {| writer := false; readers := readers m |} else None.

Definition RUnlock (m : t) : option t :=
  if negb (writer m) && negb (Nat.eqb (readers m) 0)
  then Some {| writer := writer m; readers := Nat.pred (readers m) |}
  else None.

End RWLockerSync.

(** nsLock - provides primitives for locking critical namespace
    regions. [ref] is a [uint]. *)
Record nsLock := { locker : RWLockerSync.t; ref : Z }.

(** The map holds pointers, and a call of [lock] keeps the pointer it
    got while it waits for the mutex, so the [nsLock] objects live in a
    store of their own. *)
Abbreviation addr := nat.

(** nsLockMap - namespace lock map. The records of [debugLockMap] and
    [counters], which the [status...] and [deleteLockInfoEntry...]
    helpers maintain, are instrumentation and left out; [logged] is
    what [logger.LogIf] has been given. *)
Record nsLockMap := {
  isDistXL : bool;
  store : gmap addr nsLock;
  lockMap : gmap nsParam addr;
  logged : list string
}.

(** newNSLock - return a new name space lock map. *)
Definition newNSLock (isDistXL : bool) : nsLockMap :=
  {| isDistXL := isDistXL; store := ∅; lockMap := ∅; logged := [] |}.

Definition errRefZero : string := "Namespace reference count cannot be 0".

(** The address [&nsLock{...}] gets: one the store does not use. *)
Definition newAddr (n : nsLockMap) : addr := fresh (dom (store n)).

(** [nsLk.ref] for a pointer [a]. *)
Definition refOf (n : nsLockMap) (a : addr) : Z :=
  match store n !! a with
  | Some nsLk => ref nsLk
  | None => 0
  end.

(** The embedded locker of [nsLk] for a pointer [a]. *)
Definition lockerOf (n : nsLockMap) (a : addr) : RWLockerSync.t :=
  match store n !! a with
  | Some nsLk => locker nsLk
  | None => RWLockerSync.new
  end.

Definition setRef (n : nsLockMap) (a : addr) (r : Z) : nsLockMap :=
  {| isDistXL := isDistXL n;
     store := <[a := {| locker := lockerOf n a; ref := r |}]> (store n);
     lockMap := lockMap n; logged := logged n |}.

Definition setLocker (n : nsLockMap) (a : addr) (m : RWLockerSync.t) : nsLockMap :=
  {| isDistXL := isDistXL n;
     store := <[a := {| locker := m; ref := refOf n a |}]> (store n);
     lockMap := lockMap n; logged := logged n |}.

Definition deleteEntry (n : nsLockMap) (param : nsParam) : nsLockMap :=
  {| isDistXL := isDistXL n; store := store n;
     lockMap := delete param (lockMap n); logged := logged n |}.

(** The first critical section of [lock]: the entry is looked up or
    made and its counter incremented before the call blocks on the
    mutex. The result is the map and the pointer the call holds. *)
Definition lockEnter (volume path : string) (n : nsLockMap) : nsLockMap * addr :=
  let param := (volume, path) in
  match lockMap n !! param with
  | Some a =>
      (* Update ref count here to avoid multiple races. *)
      (setRef n a (wrapU64 (refOf n a + 1)), a)
  | None =>
      let a := newAddr n in
      (* [dsync.NewDRWMutex] if [n.isDistXL], [&lsync.LRWMutex{}] otherwise *)
      let n1 := {| isDistXL := isDistXL n;
                   store := <[a := {| locker := RWLockerSync.new; ref := 0 |}]> (store n);
                   lockMap := <[param := a]> (lockMap n); logged := logged n |} in
      (setRef n1 a (wrapU64 (refOf n1 a + 1)), a)
  end.

(** The second critical section of [lock], taken when the lock was not
    obtained before the timeout. [a] is the pointer [nsLk] of the call. *)
Definition lockTimedOut (volume path : string) (a : addr) (n : nsLockMap) : nsLockMap :=
  let param := (volume, path) in
  (* Decrement ref count since we failed to get the lock *)
  let n1 := setRef n a (wrapU64 (refOf n a - 1)) in
  if refOf n1 a =? 0 then
    (* Remove from the map if there are no more references. *)
    deleteEntry n1 param
  else n1.

(** Lock the namespace resource, when no other call runs between its two
    critical sections: the locker then answers at once, and a lock that
    is not free stays so until the timeout. *)
Definition lock (volume path : string) (readLock : bool) (n : nsLockMap)
    : nsLockMap * bool :=
  let '(n1, a) := lockEnter volume path n in
  (* Locking here will block (until timeout). *)
  let '(m, locked) :=
    if readLock then RWLockerSync.GetRLock (lockerOf n1 a)
    else RWLockerSync.GetLock (lockerOf n1 a) in
  if negb locked then (lockTimedOut volume path a n1, false)
  else (setLocker n1 a m, true).

(** Unlock the namespace resource. [None] is the panic of the locker
    of the entry when it is not held in the mode of the call. *)
Definition unlock (volume path opsID : string) (readLock : bool) (n : nsLockMap)
    : option nsLockMap :=
  let param := (volume, path) in
  match lockMap n !! param with
  | Some a =>
      m ← (if readLock then RWLockerSync.RUnlock (lockerOf n a)
           else RWLockerSync.Unlock (lockerOf n a));
      let n0 := setLocker n a m in
      let n1 :=
        if refOf n0 a =? 0 then
          {| isDistXL := isDistXL n0; store := store n0; lockMap := lockMap n0;
             logged := logged n0 ++ [errRefZero] |}
        else n0 in
      let n2 :=
        if negb (refOf n1 a =? 0) then setRef n1 a (wrapU64 (refOf n1 a - 1))
        else n1 in
      Some (if refOf n2 a =? 0 then
              (* Remove from the map if there are no more references. *)
              deleteEntry n2 param
            else n2)
  | None => Some n
  end.

(** What [unlock] does once it has found the entry [a] at [param] and
    released its locker: the tests of [nsLk.ref], as a function of the
    map [n] after the release. *)
Definition unlockRef (param : nsParam) (a : addr) (n : nsLockMap) : nsLockMap :=
  let n1 :=
    if refOf n a =? 0 then
      {| isDistXL := isDistXL n; store := store n; lockMap := lockMap n;
         logged := logged n ++ [errRefZero] |}
    else n in
  let n2 :=
    if negb (refOf n1 a =? 0) then setRef n1 a (wrapU64 (refOf n1 a - 1))
    else n1 in
  if refOf n2 a =? 0 then deleteEntry n2 param else n2.

(** Unlock - unlocks any previously acquired write locks. *)
Definition Unlock (volume path opsID : string) (n : nsLockMap) : option nsLockMap :=
  unlock volume path opsID false n.

(** RUnlock - unlocks any previously acquired read locks. *)
Definition RUnlock (volume path opsID : string) (n : nsLockMap) : option nsLockMap :=
  unlock volume path opsID true n.

(** ForceUnlock - forcefully unlock a lock based on name. The broadcast
    of the distributed mode goes to [dsync] and leaves the map alone. *)
Definition ForceUnlock (volume path : string) (n : nsLockMap) : nsLockMap :=
  let param := (volume, path) in
  match lockMap n !! param with
  | Some _ =>
      (* Remove lock from the map. *)
      deleteEntry n param
  | None => n
  end.

(** The reference count of a (volume, path): that of its entry, zero
    when it has none. *)
Definition refCount (n : nsLockMap) (param : nsParam) : Z :=
  match lockMap n !! param with
  | Some a => refOf n a
  | None => 0
  end.

(** The lock of an entry is held in the mode of an unlock: by a writer
    for [Unlock], by a reader for [RUnlock]. *)
Definition held (readLock : bool) (m : RWLockerSync.t) : bool :=
  if readLock then negb (RWLockerSync.writer m) && negb (Nat.eqb (RWLockerSync.readers m) 0)
  else RWLockerSync.writer m.

(** *** The map under concurrent calls

    The mutex of the map makes each critical section one step. Between
    its two critical sections a call of [lock] is in flight: it holds
    the pointer it got and waits for the locker of that object, in the
    mode [readLock] of the call, while other calls may change the map.
    A call in flight leaves when the locker grants it the lock, or when
    it gives up; the steps let it give up at any time, which is more
    than the timeout allows. An [unlock] that panics ends the process,
    and is no step. *)

Record system := { nsMap : nsLockMap; inflight : list (nsParam * addr * bool) }.

Definition initial (isDistXL : bool) : system :=
  {| nsMap := newNSLock isDistXL; inflight := [] |}.

Inductive step : system -> system -> Prop :=
| step_enter volume path (readLock : bool) n a s :
    (* fewer than 2^64 - 1 references are held at a time *)
    refCount (nsMap s) (volume, path) < uint64_mod - 1 ->
    lockEnter volume path (nsMap s) = (n, a) ->
    step s {| nsMap := n; inflight := ((volume, path), a, readLock) :: inflight s |}
| step_locked param a (readLock : bool) l1 l2 n m :
    (if readLock then RWLockerSync.GetRLock (lockerOf n a)
     else RWLockerSync.GetLock (lockerOf n a)) = (m, true) ->
    step {| nsMap := n; inflight := l1 ++ (param, a, readLock) :: l2 |}
         {| nsMap := setLocker n a m; inflight := l1 ++ l2 |}
| step_timed_out volume path a (readLock : bool) l1 l2 n :
    step {| nsMap := n; inflight := l1 ++ ((volume, path), a, readLock) :: l2 |}
         {| nsMap := lockTimedOut volume path a n; inflight := l1 ++ l2 |}
| step_unlock volume path opsID readLock s n' :
    unlock volume path opsID readLock (nsMap s) = Some n' ->
    step s {| nsMap := n'; inflight := inflight s |}
| step_force_unlock volume path s :
    step s {| nsMap := ForceUnlock volume path (nsMap s); inflight := inflight s |}.

Inductive reachable (isDistXL : bool) : system -> Prop :=
| reachable_initial : reachable isDistXL (initial isDistXL)
| reachable_step s s' : reachable isDistXL s -> step s s' -> reachable isDistXL s'.

(** What holds of the map and of the calls in flight in every state
    the steps reach: an object the map points to has a positive counter,
    every counter is in the range of [uint], the map points to an object
    from one entry only, which is the entry a call in flight with that
    pointer asked for, and the pointers of the calls in flight are
    allocated. *)
Record wf (s : system) : Prop := {
  wf_positive : forall param a,
    lockMap (nsMap s) !! param = Some a -> 0 < refOf (nsMap s) a;
  wf_range : forall a nsLk,
    store (nsMap s) !! a = Some nsLk -> 0 <= ref nsLk < uint64_mod;
  wf_inj : forall param param' a,
    lockMap (nsMap s) !! param = Some a -> lockMap (nsMap s) !! param' = Some a ->
    param = param';
  wf_inflight : forall param param' a readLock,
    (param, a, readLock) ∈ inflight s -> lockMap (nsMap s) !! param' = Some a ->
    param = param';
  wf_alloc : forall param a readLock,
    (param, a, readLock) ∈ inflight s -> is_Some (store (nsMap s) !! a)
}.

(** Maps with an entry whose counter is zero, which no sequence of
    steps produces: one whose lock nobody holds, and one whose lock a
    writer holds. *)
Definition zeroRefMap : nsLockMap :=
  {| isDistXL := false;
     store := {[ 0%nat := {| locker := RWLockerSync.new; ref := 0 |} ]};
     lockMap := {[ ("bucket", "object") := 0%nat ]};
     logged := [] |}.

Definition zeroRefLockedMap : nsLockMap :=
  {| isDistXL := false;
     store := {[ 0%nat := {| locker := {| RWLockerSync.writer := true;
                                          RWLockerSync.readers := 0 |};
                             ref := 0 |} ]};
     lockMap := {[ ("bucket", "object") := 0%nat ]};
     logged := [] |}.

(** The state after one call, for a write lock, has entered. *)
Definition oneAcquirer : system :=
  {| nsMap := (lockEnter "bucket" "object" (newNSLock false)).1;
     inflight := [(("bucket", "object"),
                   (lockEnter "bucket" "object" (newNSLock false)).2, false)] |}.

(** The state after that call has been granted the lock. *)
Definition oneHolder : system :=
  {| nsMap := (lock "bucket" "object" false (newNSLock false)).1; inflight := [] |}.

(** *** The front end of the locks *)

(** Lock - locks the given resource for writes, using a previously
    allocated name space lock or initializing a new one. *)
Definition Lock (volume path opsID : string) (n : nsLockMap) : nsLockMap * bool :=
  let readLock := false in
  lock volume path readLock n.

(** RLock - locks any previously acquired read locks. *)
Definition RLock (volume path opsID : string) (n : nsLockMap) : nsLockMap * bool :=
  let readLock := true in
  lock volume path readLock n.

(** lockInstance - frontend/top-level interface for namespace locks.
    The field [ns] of the source points to the map; here the map is the
    state the methods run on. The bookkeeping of the [dynamicTimeout]
    ([LogFailure], [LogSuccess]) is outside this model. *)
Module LockInstance.

Record t := { volume : string; path : string; opsID : string }.

(** Lock - block until write lock is taken or timeout has occurred. *)
Definition GetLock (li : t) (n : nsLockMap) : nsLockMap * option error :=
  let readLock := false in
  let '(n', ok) := lock (volume li) (path li) readLock n in
  if negb ok then (n', Some (OperationTimedOut (path li))) else (n', None).

(** Unlock - block until write lock is released. *)
Definition Unlock (li : t) (n : nsLockMap) : option nsLockMap :=
  let readLock := false in
  unlock (volume li) (path li) (opsID li) readLock n.

(** RLock - block until read lock is taken or timeout has occurred. *)
Definition GetRLock (li : t) (n : nsLockMap) : nsLockMap * option error :=
  let readLock := true in
  let '(n', ok) := lock (volume li) (path li) readLock n in
  if negb ok then (n', Some (OperationTimedOut (path li))) else (n', None).

(** RUnlock - block until read lock is released. *)
Definition RUnlock (li : t) (n : nsLockMap) : option nsLockMap :=
  let readLock := true in
  unlock (volume li) (path li) (opsID li) readLock n.

End LockInstance.

(** NewNSLock - returns a lock instance for a given volume and path.
    [opsID] is what [getOpsID] returns in this call. *)
Definition NewNSLock (volume path opsID : string) : LockInstance.t :=
  {| LockInstance.volume := volume; LockInstance.path := path;
     LockInstance.opsID := opsID |}.

(** The state after a call for [bucket/object] has entered, the entry
    has been removed by [ForceUnlock], and a second call has entered:
    the first call is still in flight and holds the old lock object. *)
Definition afterForceUnlock : system :=
  let n1 := ForceUnlock "bucket" "object" (nsMap oneAcquirer) in
  {| nsMap := (lockEnter "bucket" "object" n1).1;
     inflight := (("bucket", "object"), (lockEnter "bucket" "object" n1).2, false)
                   :: inflight oneAcquirer |}.

End NSLock.

(** ** Healing an erasure-coded file *)

Module Heal.

Local Open Scope list_scope.
Local Open Scope Z_scope.

Abbreviation bytes := (list Byte.byte).

(** Modelled from the spec: [ceilFrac], not among the sources;
    "ceil(blocksize/N)", the quotient of its two arguments rounded up. *)
Definition ceilFrac (numerator denominator : Z) : Z :=
  - ((- numerator) / denominator).

(** *** Stripe arithmetic *)

Record stripe := {
  chunksize : Z;
  numBlocks : Z;
  lastChunkSize : Z;
  readLen : Z
}.

(** The sizes [HealFile] computes before it reads. [None] is the
    run-time panic of [size % blocksize] for a zero [blocksize]. *)
Definition stripeSizes (dataBlocks blocksize size : Z) : option stripe :=
  let chunksize := ceilFrac blocksize dataBlocks in
  let numBlocks := ceilFrac size blocksize in
  let readLen := wrap64 (chunksize * wrap64 (numBlocks - 1)) in
  let lastChunkSize := chunksize in
  if blocksize =? 0 then None else
  let hasSmallerLastBlock := negb (Z.rem size blocksize =? 0) in
  let lastChunkSize :=
    if hasSmallerLastBlock then
      let lastBlockLen := Z.rem size blocksize in
      ceilFrac lastBlockLen dataBlocks
    else lastChunkSize in
  let readLen := wrap64 (readLen + lastChunkSize) in
  Some {| chunksize := chunksize; numBlocks := numBlocks;
          lastChunkSize := lastChunkSize; readLen := readLen |}.

(** [csize] in the iteration for [blockNumber]. *)
Definition csizeAt (st : stripe) (blockNumber : Z) : Z :=
  if blockNumber =? wrap64 (numBlocks st - 1) then lastChunkSize st else chunksize st.


(** *** Disks, hashers and the erasure coder *)

(** A stale disk, as far as healing sees it: what has been appended to
    the destination file, the number of [AppendFile] calls it has
    answered, and the answer it gives to each call. *)
Record Disk := {
  content : bytes;
  calls : nat;
  fault : nat -> option error
}.

(** [disk.AppendFile(dstVol, dstPath, buf)]. *)
Definition AppendFile (d : Disk) (buf : bytes) : Disk * option error :=
  match fault d (calls d) with
  | Some e => ({| content := content d; calls := S (calls d); fault := fault d |}, Some e)
  | None =>
      ({| content := content d ++ buf; calls := S (calls d); fault := fault d |}, None)
  end.

(** A bitrot algorithm: whether it is available, and the checksum
    [Sum(nil)] of a hasher that has been written the given bytes. *)
Record BitrotAlgorithm := { Available : bool; Sum : bytes -> bytes }.

Record BitrotVerifier := { vAlgorithm : BitrotAlgorithm; vSum : bytes }.

Definition NewBitrotVerifier (alg : BitrotAlgorithm) (checksum : bytes) : BitrotVerifier :=
  {| vAlgorithm := alg; vSum := checksum |}.

Record ErasureFileInfo := {
  Size : Z;
  Algorithm : option BitrotAlgorithm;
  Checksums : list (option bytes)
}.

(** The methods of [ErasureStorage] whose sources are not available:
    the concurrent read of all disks, which yields one buffer per disk
    (empty for a disk that could not be read), and the Reed-Solomon
    reconstruction, which fills in the missing blocks in place. *)
Class Coder := {
  readConcurrent : Z -> Z -> list (option BitrotVerifier) -> error + list bytes;
  ErasureDecodeDataAndParityBlocks : list bytes -> error + list bytes
}.

(** [s.disks] (only whether a disk is there matters to [HealFile]) and
    [s.dataBlocks]. *)
Record ErasureStorage := { disks : list bool; dataBlocks : Z }.

(** [b[lo:hi]] of a slice whose capacity is its length; [None] is the
    panic for bounds out of range. *)
Definition slice (b : bytes) (lo hi : Z) : option bytes :=
  if (0 <=? lo) && (lo <=? hi) && (hi <=? Z.of_nat (length b))
  then Some (take (Z.to_nat (hi - lo)) (drop (Z.to_nat lo) b))
  else None.

(** The state of the write loop: the stale disks, [writeErrors] and the
    bytes each of [hashers] has been written ([None] for a nil hasher). *)
Record wstate := {
  staleDisks : list (option Disk);
  writeErrors : list (option error);
  hashers : list (option bytes)
}.

Section WithCoder.

Context `{Coder}.

(** The initialisation of [hashers] and [verifiers], one index of
    [s.disks] at a time. [None] is an index out of range. *)
Definition initAt (stale : list (option Disk)) (alg : BitrotAlgorithm)
    (checksums : list bytes) (i : nat) (disk : bool)
    : option (option bytes * option BitrotVerifier) :=
  sd ← stale !! i;
  match sd with
  | Some _ => Some (Some [], None)
  | None =>
      if negb disk then
        (* disregard unavailable disk *)
        Some (None, None)
      else
        c ← checksums !! i;
        Some (None, Some (NewBitrotVerifier alg c))
  end.

(** [make([]byte, n)]; [None] is the run-time panic for a negative
    length. How much memory there is to allocate is not modelled. *)
Definition make (n : Z) : option bytes :=
  if n <? 0 then None else Some (replicate (Z.to_nat n) Byte.x00).

(** The allocation of the scratch blocks, [blocks[i] = make([]byte, len)]
    for every disk whose buffer is empty. The loop cuts these blocks to
    [blocks[i][0:0]] before it uses them, so all that the allocation
    leaves to see is whether it panics: at [buffers[i]] for an index out
    of range, or in [make]. *)
Definition allocBlocks (ndisks : nat) (buffers : list bytes) (len : Z)
    : option (list bytes) :=
  mapM (fun i =>
          buf ← buffers !! i;
          if Nat.eqb (length buf) 0 then make len else Some [])
       (seq 0 ndisks).

(** [blocks] as the iteration hands it to the decoder: for a disk with
    an empty buffer the empty slice of its scratch block, for the others
    the next [csize] bytes of the buffer. *)
Definition blocksAt (ndisks : nat) (buffers : list bytes) (buffOffset csize : Z)
    : option (list bytes) :=
  mapM (fun i =>
          buf ← buffers !! i;
          if Nat.eqb (length buf) 0 then Some []
          else slice buf buffOffset (wrap64 (buffOffset + csize)))
       (seq 0 ndisks).

(** write computed shards as chunks on file in each stale disk: the
    body of the loop for index [i]. The boolean is [writeSucceeded]. *)
Definition writeAt (blocks : list bytes) (i : nat) (acc : wstate * bool)
    : option (wstate * bool) :=
  let '(w, writeSucceeded) := acc in
  disk ← staleDisks w !! i;
  match disk with
  | None => Some acc
  | Some d =>
      we ← writeErrors w !! i;
      match we with
      | Some _ =>
          (* skip disk that had error on previous write *)
          Some acc
      | None =>
          blk ← blocks !! i;
          let '(d', r) := AppendFile d blk in
          let w1 := {| staleDisks := <[i := Some d']> (staleDisks w);
                       writeErrors := <[i := r]> (writeErrors w);
                       hashers := hashers w |} in
          match r with
          | Some _ => Some (w1, writeSucceeded)
          | None =>
              oh ← hashers w !! i;
              h ← oh;
              Some ({| staleDisks := staleDisks w1; writeErrors := writeErrors w1;
                       hashers := <[i := Some (h ++ blk)]> (hashers w) |}, true)
          end
      end
  end.

Definition writeBlock (blocks : list bytes) (w : wstate) : option (wstate * bool) :=
  foldl (fun acc i => acc ≫= writeAt blocks i) (Some (w, false))
        (seq 0 (length (staleDisks w))).

Definition joinWriteErrors (errs : list (option error)) : error :=
  let msgs :=
    omap (fun ie =>
            match ie.2 with
            | None => None
            | Some err =>
                Some ("disk " +:+ PartFile.Itoa (Z.of_nat ie.1 + 1) +:+ ": "
                      +:+ errorString err)%string
            end) (imap pair errs) in
  errOther ("all stale disks had write errors during healing: "
            +:+ String.concat ", " msgs)%string.

(** What a run of [HealFile] leaves: a run-time panic, or the stale
    disks as they are afterwards with the two results. *)
Inductive outcome :=
| Panics
| Returns (stale : list (option Disk)) (f : ErasureFileInfo) (err : option error).

Definition emptyInfo (n : nat) : ErasureFileInfo :=
  {| Size := 0; Algorithm := None; Checksums := replicate n None |}.

(** The loop over the blocks; [k] is the number of blocks still to do. *)
Fixpoint healBlocks (s : ErasureStorage) (st : stripe) (buffers : list bytes)
    (k : nat) (blockNumber buffOffset : Z) (w : wstate) : option (wstate * option error) :=
  match k with
  | O => Some (w, None)
  | S k' =>
      _ ← (if (blockNumber =? wrap64 (numBlocks st - 1))
              && negb (lastChunkSize st =? chunksize st)
           then allocBlocks (length (disks s)) buffers (lastChunkSize st)
           else Some []);
      let csize := csizeAt st blockNumber in
      blocks ← blocksAt (length (disks s)) buffers buffOffset csize;
      match ErasureDecodeDataAndParityBlocks blocks with
      | inl err => Some (w, Some err)
      | inr blocks' =>
          '(w', writeSucceeded) ← writeBlock blocks' w;
          (* If all disks had write errors we quit. *)
          if negb writeSucceeded then Some (w', Some (joinWriteErrors (writeErrors w')))
          else healBlocks s st buffers k' (wrap64 (blockNumber + 1))
                 (wrap64 (buffOffset + csize)) w'
      end
  end.

(** copy computed file hashes into output variable *)
Definition checksumAt (alg : BitrotAlgorithm) (w : wstate) (i : nat)
    (acc : list (option bytes)) : option (list (option bytes)) :=
  disk ← staleDisks w !! i;
  match disk with
  | None => Some acc
  | Some _ =>
      we ← writeErrors w !! i;
      match we with
      | Some _ => Some acc
      | None =>
          oh ← hashers w !! i;
          h ← oh;
          if bool_decide (i < length acc)%nat then Some (<[i := Some (Sum alg h)]> acc)
          else None
      end
  end.

Definition HealFile (s : ErasureStorage) (stale : list (option Disk))
    (blocksize size : Z) (alg : BitrotAlgorithm) (checksums : list bytes) : outcome :=
  let n := length (disks s) in
  if negb (Available alg) then Returns stale (emptyInfo 0) (Some errBitrotHashAlgoInvalid)
  else
  match mapM (fun id => initAt stale alg checksums id.1 id.2) (imap pair (disks s)) with
  | None => Panics
  | Some hv =>
  let f0 := emptyInfo n in
  let w0 := {| staleDisks := stale; writeErrors := replicate n None; hashers := hv.*1 |} in
  match stripeSizes (dataBlocks s) blocksize size with
  | None => Panics
  | Some st =>
  match readConcurrent 0 (readLen st) hv.*2 with
  | inl err => Returns stale f0 (Some err)
  | inr buffers =>
  (* Allocate once for all the equal length blocks. *)
  match (if 1 <? numBlocks st then allocBlocks n buffers (chunksize st) else Some []) with
  | None => Panics
  | Some _ =>
  match healBlocks s st buffers (Z.to_nat (numBlocks st)) 0 0 w0 with
  | None => Panics
  | Some (w, Some err) => Returns (staleDisks w) f0 (Some err)
  | Some (w, None) =>
      match foldl (fun acc i => acc ≫= checksumAt alg w i) (Some (Checksums f0))
                  (seq 0 (length (staleDisks w))) with
      | None => Panics
      | Some cs =>
          Returns (staleDisks w)
            {| Size := size; Algorithm := Some alg; Checksums := cs |} None
      end
  end end end end end.

End WithCoder.

(** *** What the statements about [HealFile] are made of *)


(** [blocks] as the iteration for block [b] (counted from 0) hands it
    to the decoder when the offsets do not wrap: the chunks at offset
    [chunksize * b] of the buffers. *)
Definition blocksOf (s : ErasureStorage) (st : stripe) (buffers : list bytes) (b : nat)
    : option (list bytes) :=
  blocksAt (length (disks s)) buffers (chunksize st * Z.of_nat b) (csizeAt st (Z.of_nat b)).

Local Open Scope nat_scope.

(** Whether one of the next [k] calls of [AppendFile] on a disk that
    has answered [c] calls fails. *)
Fixpoint failsFrom (fault : nat -> option error) (c k : nat) : bool :=
  match k with
  | O => false
  | S k' =>
      match fault c with
      | Some _ => true
      | None => failsFrom fault (S c) k'
      end
  end.

(** A stale disk has a write error by the time [k] more blocks have been
    written to it. *)
Definition failsWithin (d : Disk) (k : nat) : bool := failsFrom (fault d) (calls d) k.

(** What the write loop keeps for index [i]. *)
Abbreviation cell := (option (option Disk) * option (option error) * option (option bytes))%type.

(** The cell of index [i] in a state of the loop. *)
Definition cellOf (w : wstate) (i : nat) : cell :=
  (staleDisks w !! i, writeErrors w !! i, hashers w !! i).

(** What the write of one block does to a cell: a stale disk without an
    error is appended to, and its hasher is written when the append
    succeeds; every other cell stays as it is. *)
Definition stepCell (blk : bytes) (c : cell) : cell :=
  match c with
  | (Some (Some d), Some None, Some (Some h)) =>
      match AppendFile d blk with
      | (d', Some e) => (Some (Some d'), Some (Some e), Some (Some h))
      | (d', None) => (Some (Some d'), Some None, Some (Some (h ++ blk)))
      end
  | _ => c
  end.

(** Whether the write of the next block to the cell succeeds. *)
Definition cellWrites (c : cell) : bool :=
  match c with
  | (Some (Some d), Some None, Some (Some h)) =>
      match fault d (calls d) with
      | Some _ => false
      | None => true
      end
  | _ => false
  end.

(** The three slices have the length of [s.disks], and a stale disk has
    a hasher. *)
Record wfState (n : nat) (w : wstate) : Prop := {
  wf_stale : length (staleDisks w) = n;
  wf_errors : length (writeErrors w) = n;
  wf_hashers : length (hashers w) = n;
  wf_hasher : forall i d, staleDisks w !! i = Some (Some d) -> exists h, hashers w !! i = Some (Some h)
}.

(** The cell takes no successful write in the last of the next [k]
    blocks: it is not a stale disk, it has a write error already, or it
    gets one within these blocks. *)
Definition cellDead (c : cell) (k : nat) : bool :=
  match c with
  | (Some (Some d), Some None, _) => failsWithin d k
  | _ => true
  end.

(** No cell takes a successful write in the last of the next [k]
    blocks. *)
Definition allDead (n : nat) (w : wstate) (k : nat) : bool :=
  forallb (fun i => cellDead (cellOf w i) k) (seq 0 n).

(** How the cell of a disk that is alive before [k] blocks are written
    looks afterwards, if the loop gets that far. *)
Definition cellAfter (k : nat) (c c' : cell) : Prop :=
  match c with
  | (Some (Some d), Some None, Some (Some h)) =>
      if failsWithin d k then
        exists d' e h', c' = (Some (Some d'), Some (Some e), Some (Some h'))
      else
        exists d' app,
          c' = (Some (Some d'), Some None, Some (Some (h ++ app))) /\
          content d' = content d ++ app
  | _ => c' = c
  end.

(** What the concurrent read owes its caller: a buffer for every disk,
    empty or with the bytes asked for. *)
Definition buffersOK (n : nat) (readLen : Z) (buffers : list bytes) : Prop :=
  length buffers = n /\
  Forall (fun buf => length buf = 0 \/ (readLen <= Z.of_nat (length buf))%Z) buffers.

(** By block [b] (counted from 0) the disk has had a write error: one
    of its first [b + 1] appends fails. *)
Definition accumulatedError (d : Disk) (b : nat) : Prop :=
  exists j, j <= b /\ fault d (calls d + j) <> None.

(** None of the [k] appends that healing makes to the disk fails. *)
Definition appendsSucceed (d : Disk) (k : nat) : Prop :=
  forall j, j < k -> fault d (calls d + j) = None.

Section Contracts.

Context `{Coder}.

(** The coder reconstructs in place: it never fails here, and gives
    back as many blocks as it got. *)
Definition decodeOK : Prop :=
  forall blocks, exists blocks',
    ErasureDecodeDataAndParityBlocks blocks = inr blocks' /\ length blocks' = length blocks.

(** The concurrent read succeeds and keeps its word. *)
Definition readOK (n : nat) : Prop :=
  forall offset len verifiers, length verifiers = n ->
    exists buffers,
      readConcurrent offset len verifiers = inr buffers /\ buffersOK n len buffers.

End Contracts.

Local Open Scope Z_scope.

(** A coder for the examples: every disk is read in full as zero bytes,
    and the reconstruction leaves the blocks as they are. *)
Definition plainCoder : Coder := {|
  readConcurrent := fun _ len verifiers =>
    inr ((fun _ => replicate (Z.to_nat len) Byte.x00) <$> verifiers);
  ErasureDecodeDataAndParityBlocks := fun blocks => inr blocks
|}.

Definition plainAlg : BitrotAlgorithm := {| Available := true; Sum := fun b => b |}.

Definition noAlg : BitrotAlgorithm := {| Available := false; Sum := fun b => b |}.

(** A disk that takes every append, and one that takes one append and
    fails the next. *)
Definition healthyDisk : Disk := {| content := []; calls := 0; fault := fun _ => None |}.

Definition faultyDisk : Disk :=
  {| content := []; calls := 0;
     fault := fun k => if Nat.eqb k 1 then Some errFileAccessDenied else None |}.

Definition exampleStorage : ErasureStorage := {| disks := [true; true; true]; dataBlocks := 2 |}.

Local Open Scope nat_scope.

(** The number of [AppendFile] calls the write loop makes in [k] blocks
    on a disk that has answered [c] calls: one per block, up to and
    with the first call that fails. *)
Fixpoint callsFrom (fault : nat -> option error) (c k : nat) : nat :=
  match k with
  | O => 0
  | S k' =>
      match fault c with
      | Some _ => 1
      | None => S (callsFrom fault (S c) k')
      end
  end.

(** A cell after the writes of [m] blocks. *)
Fixpoint cellSteps (m : nat) (c c' : cell) : Prop :=
  match m with
  | O => c' = c
  | S m' => exists blk, cellSteps m' (stepCell blk c) c'
  end.

Local Open Scope Z_scope.

(** A coder whose reconstruction fails on every block. *)
Definition failingDecoder : Coder := {|
  readConcurrent := fun _ len verifiers =>
    inr ((fun _ => replicate (Z.to_nat len) Byte.x00) <$> verifiers);
  ErasureDecodeDataAndParityBlocks := fun _ => inl (errOther "too few shards given")
|}.

(** A coder whose read fails on every disk. *)
Definition failingReader : Coder := {|
  readConcurrent := fun _ _ _ => inl errFileNotFound;
  ErasureDecodeDataAndParityBlocks := fun blocks => inr blocks
|}.

End Heal.

(** ** The lock clients of a distributed setup *)

Module Dsync.

Local Open Scope string_scope.
Local Open Scope list_scope.
Local Open Scope Z_scope.



Section WithRPC.

(** [xnet.ParseHost] and [NewLockRPCClient], whose sources are not
    available, and the constant [lockServicePath]. *)
Context {XHost RPCClient : Type}.
Variable ParseHost : string -> error + XHost.
Variable NewLockRPCClient : XHost -> error + RPCClient.
Variable lockServicePath : string.






End WithRPC.


End Dsync.

(** * Properties *)

Lemma in_int64b_spec z : in_int64b z = true <-> in_int64 z.
Proof.
  unfold in_int64b, in_int64. rewrite andb_true_iff, !Z.leb_le. tauto.
Qed.

Section PartFileFacts.

Import PartFile.
Local Open Scope string_scope.
Local Open Scope list_scope.
Local Open Scope Z_scope.

Lemma digit_val_char d : 0 <= d < 10 -> digit_val (digit_char d) = Some d.
Proof.
  intros Hd. unfold digit_val, digit_char.
  rewrite N_ascii_embedding by lia.
  assert (Z.of_N (48 + Z.to_N d) = 48 + d) as -> by lia.
  destruct (48 <=? 48 + d) eqn:E1; [|lia].
  destruct (48 + d <=? 57) eqn:E2; [|lia].
  simpl. f_equal. lia.
Qed.

Lemma digit_char_no_dot d : 0 <= d < 10 -> Ascii.eqb (digit_char d) "." = false.
Proof.
  intros Hd. apply Ascii.eqb_neq. intros Heq.
  apply (f_equal N_of_ascii) in Heq. unfold digit_char in Heq.
  rewrite N_ascii_embedding in Heq by lia. simpl in Heq. lia.
Qed.

(** Parsing what the digit loop printed gives the number back. *)
Lemma parse_fmt_digits fuel u rest :
  0 <= u -> (Z.to_nat (Z.log2 u) < fuel)%nat ->
  parse_digits (fmt_digits fuel u rest) 0 = parse_digits rest u.
Proof.
  revert u rest. induction fuel as [|fuel IH]; intros u rest Hu Hf; [lia|].
  simpl. destruct (u <? 10) eqn:E.
  - apply Z.ltb_lt in E. simpl. rewrite digit_val_char by lia. reflexivity.
  - apply Z.ltb_ge in E.
    rewrite IH.
    + simpl. rewrite digit_val_char by (apply Z.mod_pos_bound; lia).
      f_equal. rewrite (Z.mul_comm _ 10). symmetry. apply Z.div_mod. lia.
    + apply Z.div_pos; lia.
    + assert (Z.log2 (u / 10) < Z.log2 u); [|pose proof (Z.log2_nonneg (u / 10)); lia].
      apply Z.log2_lt_pow2; [apply Z.div_str_pos; lia|].
      pose proof (Z.log2_spec u ltac:(lia)) as [_ Hlt].
      rewrite Z.pow_succ_r in Hlt by apply Z.log2_nonneg.
      apply Z.div_lt_upper_bound; lia.
Qed.


Lemma digits_only_no_dot s : digits_only s = true -> no_dot s = true.
Proof.
  induction s as [|c r IH]; simpl; [done|].
  destruct (digit_val c) as [d|] eqn:Hd; [|done]. intros Hr.
  rewrite IH by done. rewrite andb_true_r.
  unfold digit_val in Hd.
  destruct (Ascii.eqb c ".") eqn:E; [|done].
  apply Ascii.eqb_eq in E. subst c. simpl in Hd. done.
Qed.

Lemma digits_only_app s1 s2 :
  digits_only s1 = true -> digits_only s2 = true -> digits_only (s1 +:+ s2) = true.
Proof.
  induction s1 as [|c r IH]; simpl; [done|].
  destruct (digit_val c); [auto|done].
Qed.

Lemma digits_only_zeros n : digits_only (zeros n) = true.
Proof. induction n; simpl; done. Qed.

Lemma digits_only_fmt fuel u acc :
  0 <= u -> digits_only acc = true -> digits_only (fmt_digits fuel u acc) = true.
Proof.
  revert u acc. induction fuel as [|fuel IH]; intros u acc Hu Hacc; simpl; [done|].
  destruct (u <? 10) eqn:E.
  - apply Z.ltb_lt in E. simpl. by rewrite digit_val_char by lia.
  - apply IH; [apply Z.div_pos; lia|].
    simpl. by rewrite digit_val_char by (apply Z.mod_pos_bound; lia).
Qed.

Lemma fmt_digits_nonempty fuel u acc : fmt_digits (S fuel) u acc <> "".
Proof.
  revert u acc. induction fuel as [|fuel IH]; intros u acc.
  - simpl. destruct (u <? 10); done.
  - change (fmt_digits (S (S fuel)) u acc)
      with (if u <? 10 then String (digit_char u) acc
            else fmt_digits (S fuel) (u / 10) (String (digit_char (u mod 10)) acc)).
    destruct (u <? 10); [done | apply IH].
Qed.

Lemma parse_zeros n s : parse_digits (zeros n +:+ s) 0 = parse_digits s 0.
Proof. induction n; simpl; done. Qed.

Lemma app_nonempty_r s1 s2 : s2 <> "" -> s1 +:+ s2 <> "".
Proof. destruct s1; simpl; done. Qed.

(** A non-empty string of digits has no sign to strip. *)
Lemma Atoi_digits s v :
  s <> "" -> digits_only s = true -> parse_digits s 0 = Some v ->
  Atoi s = if in_int64b v then Some v else None.
Proof.
  intros Hne Hd Hp. destruct s as [|c r]; [done|].
  unfold Atoi. simpl in Hd.
  destruct (digit_val c) as [d|] eqn:Hc; [|done].
  assert (Ascii.eqb c "-" = false) as ->.
  { apply Ascii.eqb_neq. intros ->. done. }
  assert (Ascii.eqb c "+" = false) as ->.
  { apply Ascii.eqb_neq. intros ->. done. }
  by rewrite Hp.
Qed.

Lemma Atoi_minus s v :
  s <> "" -> parse_digits s 0 = Some v ->
  Atoi (String "-" s) = if in_int64b (- v) then Some (- v) else None.
Proof.
  intros Hne Hp. unfold Atoi. simpl. rewrite Hp. by destruct s.
Qed.

Lemma padded_digits n : digits_only (padded n) = true.
Proof.
  unfold padded. apply digits_only_app; [apply digits_only_zeros|].
  apply digits_only_fmt; [lia|done].
Qed.

Lemma padded_nonempty n : padded n <> "".
Proof. unfold padded. apply app_nonempty_r, fmt_digits_nonempty. Qed.

Lemma padded_parse n : parse_digits (padded n) 0 = Some (Z.abs n).
Proof.
  unfold padded. rewrite parse_zeros. unfold FormatUint.
  rewrite parse_fmt_digits by lia. done.
Qed.

Lemma Atoi_Sprintf_5d n : in_int64 n -> Atoi (Sprintf_5d n) = Some n.
Proof.
  intros Hn. apply in_int64b_spec in Hn. unfold Sprintf_5d.
  destruct (n <? 0) eqn:E.
  - apply Z.ltb_lt in E.
    rewrite (Atoi_minus _ (Z.abs n)) by auto using padded_nonempty, padded_parse.
    replace (- Z.abs n) with n by lia. by rewrite Hn.
  - apply Z.ltb_ge in E.
    rewrite (Atoi_digits _ (Z.abs n))
      by auto using padded_nonempty, padded_parse, padded_digits.
    replace (Z.abs n) with n by lia. by rewrite Hn.
Qed.

Lemma Sprintf_5d_no_dot n : no_dot (Sprintf_5d n) = true.
Proof.
  unfold Sprintf_5d.
  pose proof (digits_only_no_dot _ (padded_digits n)) as Hp.
  destruct (n <? 0); simpl; done.
Qed.

Lemma SplitOn_nonnil sep s : SplitOn sep s <> [].
Proof.
  induction s as [|c r IH]; simpl; [done|].
  destruct (Ascii.eqb c sep); [done|]. by destruct (SplitOn sep r).
Qed.

Lemma Split_no_dot s : no_dot s = true -> Split s = [s].
Proof.
  unfold Split. induction s as [|c r IH]; simpl; [done|].
  intros [Hc Hr]%andb_true_iff. apply negb_true_iff in Hc. rewrite Hc.
  by rewrite IH.
Qed.

Lemma Split_app_dot a b :
  no_dot a = true -> Split (a +:+ "." +:+ b) = a :: Split b.
Proof.
  unfold Split. induction a as [|c r IH]; simpl; [done|].
  intros [Hc Hr]%andb_true_iff. apply negb_true_iff in Hc. rewrite Hc.
  by rewrite IH.
Qed.

Lemma decode_encode partNumber etag :
  in_int64 partNumber -> no_dot etag = true ->
  decodePartFile (encodePartFile partNumber etag) = inr (partNumber, etag).
Proof.
  intros Hn He. unfold decodePartFile, encodePartFile.
  rewrite Split_app_dot by apply Sprintf_5d_no_dot.
  rewrite Split_no_dot by done.
  by rewrite Atoi_Sprintf_5d.
Qed.

Lemma decode_error_iff name :
  decodePartFile name = inl errUnexpected <->
  ~ (exists r0 r1 n, Split name = [r0; r1] /\ Atoi r0 = Some n).
Proof.
  unfold decodePartFile. split.
  - intros Hd (r0 & r1 & n & Hs & Ha). rewrite Hs, Ha in Hd. done.
  - intros Hno. destruct (Split name) as [|r0 [|r1 [|r2 l]]]; try done.
    destruct (Atoi r0) as [n|] eqn:Ha; [|done].
    exfalso. apply Hno. by exists r0, r1, n.
Qed.

(** C10. Part-file names round-trip: for every part number from 0 to
    99999 and every non-empty etag without a dot, decoding the encoded
    name gives the part number and the etag back, without an error; and
    decoding fails on every name that does not split at its dots into
    exactly two components of which the first is a number ([strconv.Atoi]
    accepts it). *)
Theorem part_file_name_round_trip :
  (forall (partNumber : Z) (etag : string),
     0 <= partNumber <= 99999 -> etag <> "" -> no_dot etag = true ->
     decodePartFile (encodePartFile partNumber etag) = inr (partNumber, etag)) /\
  (forall name : string,
     (~ exists r0 r1 n, Split name = [r0; r1] /\ Atoi r0 = Some n) ->
     decodePartFile name = inl errUnexpected).
Proof.
  split.
  - intros partNumber etag Hn _ He.
    apply decode_encode; [|done]. unfold in_int64, int64_min, int64_max. lia.
  - intros name. apply decode_error_iff.
Qed.

Lemma part_file_name_round_trip_witness :
  decodePartFile (encodePartFile 7 "5d41402abc4b2a76b9719d911017c592")
    = inr (7, "5d41402abc4b2a76b9719d911017c592") /\
  decodePartFile "00001.abc.tmp" = inl errUnexpected.
Proof.
  destruct part_file_name_round_trip as [Hround Herr]. split.
  - apply Hround; [lia | discriminate | reflexivity].
  - apply Herr. intros (r0 & r1 & n & Hs & _). vm_compute in Hs. discriminate.
Defined.

End PartFileFacts.

Section PartFileOrder.

Import PartFile.
Local Open Scope string_scope.
Local Open Scope Z_scope.

Lemma no_dot_prefix_unique a b x y :
  no_dot a = true -> no_dot b = true ->
  a +:+ String "." x = b +:+ String "." y -> a = b /\ x = y.
Proof.
  revert b. induction a as [|c a IH]; intros [|c' b]; cbn.
  - intros _ _ [= ->]. done.
  - intros _ Hb [= <- _]. done.
  - intros Ha _ [= -> _]. done.
  - intros [_ Ha]%andb_prop [_ Hb]%andb_prop [= -> Heq].
    destruct (IH b Ha Hb Heq) as [-> ->]. done.
Qed.

(** X12. Part-file names are unambiguous: two part files have the same
    name only if they have the same part number and the same etag,
    whatever the etags contain. *)
Theorem encode_part_file_injective partNumber1 etag1 partNumber2 etag2 :
  in_int64 partNumber1 -> in_int64 partNumber2 ->
  encodePartFile partNumber1 etag1 = encodePartFile partNumber2 etag2 ->
  partNumber1 = partNumber2 /\ etag1 = etag2.
Proof.
  intros H1 H2 Heq. unfold encodePartFile in Heq.
  apply no_dot_prefix_unique in Heq as [Hn ->]; [|apply Sprintf_5d_no_dot..].
  split; [|done].
  apply (f_equal Atoi) in Hn. rewrite !Atoi_Sprintf_5d in Hn by done. congruence.
Qed.

Lemma digit_char_zero : digit_char 0 = "0"%char.
Proof. reflexivity. Qed.

Lemma digitsW_zero w u : 0 <= u < 1 -> digitsW w u = zeros w.
Proof.
  intros Hu. assert (u = 0) as -> by lia.
  induction w as [|w IH]; cbn; [done|].
  rewrite IH. by rewrite Z.div_0_l by lia.
Qed.

Lemma digitsW_snoc w u :
  0 <= u ->
  digitsW (S w) u = digitsW w (u / 10) +:+ String (digit_char (u mod 10)) "".
Proof.
  intros Hu. induction w as [|w IH].
  - cbn. by rewrite Z.div_1_r.
  - change (digitsW (S (S w)) u)
      with (String (digit_char (u / 10 ^ Z.of_nat (S w) mod 10)) (digitsW (S w) u)).
    rewrite IH. cbn [digitsW append]. do 2 f_equal.
    rewrite Nat2Z.inj_succ, Z.pow_succ_r by lia.
    rewrite Z.div_div by lia. done.
Qed.

Lemma digitsW_small w u :
  0 <= u < 10 -> digitsW (S w) u = zeros w +:+ String (digit_char u) "".
Proof.
  intros Hu. rewrite digitsW_snoc by lia.
  rewrite digitsW_zero by (split; [apply Z.div_pos; lia|apply Z.div_lt_upper_bound; lia]).
  by rewrite Z.mod_small.
Qed.

Lemma append_cons c a b : String c a +:+ b = String c (a +:+ b).
Proof. reflexivity. Qed.

Lemma append_nil_l b : "" +:+ b = b.
Proof. reflexivity. Qed.

Lemma append_nil_r a : a +:+ "" = a.
Proof. induction a as [|c a IH]; [done|]. by rewrite append_cons, IH. Qed.

Lemma append_length a b :
  String.length (a +:+ b) = (String.length a + String.length b)%nat.
Proof.
  induction a as [|c a IH]; [done|]. rewrite append_cons. cbn [String.length].
  by rewrite IH.
Qed.

Lemma append_assoc a b c : (a +:+ b) +:+ c = a +:+ (b +:+ c).
Proof. induction a as [|x a IH]; [done|]. by rewrite !append_cons, IH. Qed.

(** The digit loop prints the digits of [u] without leading zeros;
    padded with zeros to a width that holds them, they are the [w]
    digits of [u]. *)
Lemma fmt_digits_digitsW fuel w u acc :
  0 <= u < 2 ^ Z.of_nat fuel -> u < 10 ^ Z.of_nat w -> (1 <= w)%nat ->
  exists D,
    fmt_digits fuel u acc = D +:+ acc /\
    (String.length D <= w)%nat /\
    zeros (w - String.length D) +:+ D = digitsW w u.
Proof.
  revert w u acc. induction fuel as [|fuel IH]; intros w u acc Hu Hw Hw1.
  - exists "". cbn [fmt_digits String.length]. split; [done|]. split; [lia|].
    rewrite Nat.sub_0_r. rewrite digitsW_zero by (cbn in Hu; lia).
    apply append_nil_r.
  - cbn [fmt_digits]. destruct (u <? 10) eqn:E.
    + apply Z.ltb_lt in E. exists (String (digit_char u) ""). split; [done|].
      cbn [String.length]. split; [lia|].
      destruct w as [|w]; [lia|]. rewrite digitsW_small by lia.
      by replace (S w - 1)%nat with w by lia.
    + apply Z.ltb_ge in E. destruct w as [|[|w]]; [lia|cbn in Hw; lia|].
      destruct (IH (S w) (u / 10) (String (digit_char (u mod 10)) acc))
        as (D & HD & Hlen & Hpad).
      * split; [apply Z.div_pos; lia|].
        apply Z.div_lt_upper_bound; [lia|].
        rewrite Nat2Z.inj_succ, Z.pow_succ_r in Hu by lia. lia.
      * apply Z.div_lt_upper_bound; [lia|].
        rewrite (Nat2Z.inj_succ (S w)), Z.pow_succ_r in Hw by lia. lia.
      * lia.
      * exists (D +:+ String (digit_char (u mod 10)) ""). split.
        { rewrite HD. by rewrite append_assoc. }
        rewrite append_length. cbn [String.length]. split; [lia|].
        rewrite digitsW_snoc by lia. rewrite <- Hpad, append_assoc.
        by replace (S (S w) - (String.length D + 1))%nat with (S w - String.length D)%nat by lia.
Qed.

Lemma padded_digitsW n : 0 <= n <= 99999 -> padded n = digitsW 5 n.
Proof.
  intros Hn. unfold padded, FormatUint. rewrite Z.abs_eq by lia.
  destruct (fmt_digits_digitsW (S (Z.to_nat (Z.log2 n))) 5 n "") as (D & -> & _ & <-).
  - split; [lia|]. rewrite Nat2Z.inj_succ, Z2Nat.id by apply Z.log2_nonneg.
    destruct (decide (n = 0)) as [->|]; [done|].
    apply Z.log2_spec. lia.
  - cbn. lia.
  - lia.
  - by rewrite append_nil_r.
Qed.

Lemma digitsW_mod w u : 0 <= u -> digitsW w (u mod 10 ^ Z.of_nat w) = digitsW w u.
Proof.
  intros Hu. 
  assert (forall k, (k <= w)%nat ->
            digitsW k (u mod 10 ^ Z.of_nat w) = digitsW k u) as Hk; [|by apply Hk].
  induction k as [|k IH]; intros Hkw; cbn; [done|].
  rewrite IH by lia. do 2 f_equal.
  assert (0 < 10 ^ Z.of_nat k) as HP by (apply Z.pow_pos_nonneg; lia).
  assert (0 < 10 ^ Z.of_nat w) as HW by (apply Z.pow_pos_nonneg; lia).
  assert (10 ^ Z.of_nat w = 10 * 10 ^ (Z.of_nat w - Z.of_nat k - 1) * 10 ^ Z.of_nat k) as HQ.
  { rewrite <- Z.pow_succ_r, <- Z.pow_add_r by lia. f_equal. lia. }
  pose proof (Z.div_mod u (10 ^ Z.of_nat w) ltac:(lia)) as Hdm.
  set (r := u mod 10 ^ Z.of_nat w) in *. set (q := u / 10 ^ Z.of_nat w) in *.
  rewrite Hdm at 1. rewrite HQ.
  replace (10 * 10 ^ (Z.of_nat w - Z.of_nat k - 1) * 10 ^ Z.of_nat k * q + r)
    with (10 ^ (Z.of_nat w - Z.of_nat k - 1) * q * 10 * 10 ^ Z.of_nat k + r) by ring.
  rewrite Z.div_add_l by lia.
  rewrite Z.add_comm, Z.mod_add by lia. done.
Qed.

Lemma compare_digit_char a b :
  0 <= a < 10 -> 0 <= b < 10 ->
  Ascii.compare (digit_char a) (digit_char b) = (a ?= b).
Proof.
  intros Ha Hb. unfold Ascii.compare, digit_char.
  rewrite !N_ascii_embedding by lia.
  rewrite <- N2Z.inj_compare. rewrite !N2Z.inj_add, !Z2N.id by lia.
  apply Z.add_compare_mono_l.
Qed.

(** Numbers of [w] digits compare as their digits do. *)
Lemma compare_digitsW w m n x y :
  0 <= m < n -> n < 10 ^ Z.of_nat w ->
  String.compare (digitsW w m +:+ x) (digitsW w n +:+ y) = Lt.
Proof.
  revert m n. induction w as [|w IH]; intros m n Hmn Hn; [cbn in Hn; lia|].
  cbn [digitsW]. rewrite !append_cons. cbn [String.compare].
  rewrite Nat2Z.inj_succ, Z.pow_succ_r in Hn by lia.
  assert (0 < 10 ^ Z.of_nat w) as Hp by (apply Z.pow_pos_nonneg; lia).
  assert (0 <= m / 10 ^ Z.of_nat w < 10) as Ha.
  { split; [apply Z.div_pos; lia|apply Z.div_lt_upper_bound; lia]. }
  assert (0 <= n / 10 ^ Z.of_nat w < 10) as Hb.
  { split; [apply Z.div_pos; lia|apply Z.div_lt_upper_bound; lia]. }
  rewrite !Z.mod_small by done. rewrite compare_digit_char by done.
  pose proof (Z.div_mod m (10 ^ Z.of_nat w) ltac:(lia)) as Hm.
  pose proof (Z.div_mod n (10 ^ Z.of_nat w) ltac:(lia)) as Hn'.
  pose proof (Z.mod_pos_bound m (10 ^ Z.of_nat w) Hp) as Hmr.
  pose proof (Z.mod_pos_bound n (10 ^ Z.of_nat w) Hp) as Hnr.
  destruct (Z.compare_spec (m / 10 ^ Z.of_nat w) (n / 10 ^ Z.of_nat w)) as [Heq|Hlt|Hgt].
  - rewrite <- (digitsW_mod w m), <- (digitsW_mod w n) by lia.
    apply IH; [|lia]. rewrite Heq in Hm. lia.
  - done.
  - exfalso. nia.
Qed.

Lemma encodePartFile_compare n1 e1 n2 e2 :
  0 <= n1 < n2 -> n2 <= 99999 ->
  String.compare (encodePartFile n1 e1) (encodePartFile n2 e2) = Lt.
Proof.
  intros H1 H2. unfold encodePartFile, Sprintf_5d.
  destruct (n1 <? 0) eqn:E1; [lia|]. destruct (n2 <? 0) eqn:E2; [lia|].
  rewrite !padded_digitsW by lia. apply compare_digitsW; [done|]. cbn. lia.
Qed.

(** X13. Part files sort in the order of their part numbers: for part
    numbers from 0 to 99999 (five digits), the name of the part with the
    smaller number is strictly before the name of the part with the
    larger number in the byte-wise order of [sort.Strings], whatever the
    etags are. *)
Theorem part_files_sort_by_part_number partNumber1 etag1 partNumber2 etag2 :
  0 <= partNumber1 < partNumber2 -> partNumber2 <= 99999 ->
  String.compare (encodePartFile partNumber1 etag1) (encodePartFile partNumber2 etag2) = Lt /\
  String.leb (encodePartFile partNumber1 etag1) (encodePartFile partNumber2 etag2) = true /\
  String.leb (encodePartFile partNumber2 etag2) (encodePartFile partNumber1 etag1) = false.
Proof.
  intros H1 H2.
  assert (String.compare (encodePartFile partNumber1 etag1)
            (encodePartFile partNumber2 etag2) = Lt) as Hlt
    by by apply encodePartFile_compare.
  split; [done|]. unfold String.leb. rewrite Hlt.
  rewrite (String.compare_antisym (encodePartFile partNumber2 etag2)), Hlt. done.
Qed.



End PartFileOrder.

Section PartFileOrderExamples.

Import PartFile.
Local Open Scope string_scope.
Local Open Scope Z_scope.

Lemma encode_part_file_injective_witness :
  encodePartFile 7 "a.b" = "00007.a.b" /\
  (7 = 7 /\ "a.b" = "a.b").
Proof.
  split; [reflexivity|].
  apply (encode_part_file_injective 7 "a.b" 7 "a.b"); [| |reflexivity];
    unfold in_int64, int64_min, int64_max; lia.
Defined.

Lemma part_files_sort_by_part_number_witness :
  String.compare (encodePartFile 9 "ff") (encodePartFile 10 "00") = Lt /\
  String.leb (encodePartFile 9 "ff") (encodePartFile 10 "00") = true /\
  String.leb (encodePartFile 10 "00") (encodePartFile 9 "ff") = false.
Proof.
  apply part_files_sort_by_part_number; lia.
Defined.

End PartFileOrderExamples.

Section MultipartFacts.

Import PartFile Multipart.
Local Open Scope string_scope.
Local Open Scope list_scope.
Local Open Scope Z_scope.

Context `{Helpers}.

Lemma strip_prefix_app d k : strip_prefix d (d ++ k) = Some k.
Proof.
  induction d as [|x d IH]; simpl; [done|]. by rewrite String.eqb_refl.
Qed.

Lemma strip_prefix_short d x : (1 < length d)%nat -> strip_prefix d [x] = None.
Proof.
  destruct d as [|y [|z d]]; simpl; try lia. intros _.
  by destruct (String.eqb y x).
Qed.

Lemma uploadIDDir_length bucket object uploadID :
  length (getUploadIDDir bucket object uploadID) = 4%nat.
Proof. done. Qed.


Opaque getUploadIDDir.

Lemma fsRemoveAll_lookup_inside t dir k :
  fsRemoveAll t dir !! (dir ++ k) = None.
Proof.
  unfold fsRemoveAll. apply map_lookup_filter_None. right.
  intros x _. simpl. by rewrite strip_prefix_app.
Qed.

Lemma fsRemoveAll_lookup_outside t dir k :
  strip_prefix dir k = None -> fsRemoveAll t dir !! k = t !! k.
Proof.
  intros Hk. unfold fsRemoveAll.
  destruct (t !! k) as [x|] eqn:E.
  - apply map_lookup_filter_Some. done.
  - apply map_lookup_filter_None. by left.
Qed.

Lemma statBucketDir_removeAll t bucket object uploadID b :
  statBucketDir (fsRemoveAll t (getUploadIDDir bucket object uploadID)) b
  = statBucketDir t b.
Proof.
  unfold statBucketDir. rewrite fsRemoveAll_lookup_outside; [done|].
  apply strip_prefix_short. rewrite uploadIDDir_length. lia.
Qed.

(** C1, as the code has it. A second [AbortMultipartUpload] after a
    first one that succeeded (and so removed the upload-id directory
    and the append record) changes nothing, and its result is not
    success but [InvalidUploadID]: the stat of [fs.json] under the
    upload-id directory fails, and the call returns before it removes
    anything. *)
Lemma abort_after_abort bucket object uploadID fs fs' :
  AbortMultipartUpload bucket object uploadID fs = (fs', None) ->
  AbortMultipartUpload bucket object uploadID fs'
  = (fs', Some (InvalidUploadID uploadID)).
Proof.
  unfold AbortMultipartUpload.
  destruct (checkAbortMultipartArgs bucket object) eqn:Hc; [done|].
  destruct (statBucketDir (tree fs) bucket) as [e|[]] eqn:Hb; [done|].
  simpl.
  destruct (fsStatFile _ _) as [e|fi] eqn:Hs.
  { destruct e; done. }
  intros [= <-]. simpl.
  rewrite statBucketDir_removeAll, Hb.
  unfold fsStatFile. rewrite fsRemoveAll_lookup_inside.
  by rewrite delete_delete_eq.
Qed.


(** C7, as the code has it. When the metadata file of the upload id
    does not exist, [PutObjectPart] leaves the file system and the
    append records as they are, so no part file is written; and if the
    guards that come first pass (valid names, the bucket directory is
    there, the announced size is not negative) its result is
    [InvalidUploadID]. When one of these guards fails, the result is the
    error of the first guard that fails: the error of the check of the
    names; else the error of the look-up of the bucket, which is
    [BucketNotFound] for a bucket that is not there; else the
    invalid-argument error for a negative size. *)
Lemma put_part_missing_upload bucket object uploadID partID data uuid genETag now fs :
  tree fs !! (getUploadIDDir bucket object uploadID ++ [fsMetaJSONFile]) = None ->
  (PutObjectPart bucket object uploadID partID data uuid genETag now fs).1 = fs /\
  (putGuardsPass fs bucket object data ->
   (PutObjectPart bucket object uploadID partID data uuid genETag now fs).2
   = inl (InvalidUploadID uploadID)) /\
  (forall err,
     checkPutObjectPartArgs bucket object = Some err ->
     (PutObjectPart bucket object uploadID partID data uuid genETag now fs).2
     = inl (toObjectErr err bucket "")) /\
  (forall err,
     checkPutObjectPartArgs bucket object = None ->
     statBucketDir (tree fs) bucket = inl err ->
     (PutObjectPart bucket object uploadID partID data uuid genETag now fs).2
     = inl (toObjectErr err bucket "")) /\
  (checkPutObjectPartArgs bucket object = None ->
   tree fs !! [bucket] = None ->
   (PutObjectPart bucket object uploadID partID data uuid genETag now fs).2
   = inl (BucketNotFound bucket)) /\
  (checkPutObjectPartArgs bucket object = None ->
   statBucketDir (tree fs) bucket = inr tt ->
   rSize data < 0 ->
   (PutObjectPart bucket object uploadID partID data uuid genETag now fs).2
   = inl (toObjectErr errInvalidArgument "" "")).
Proof.
  intros Hmeta. unfold PutObjectPart, putGuardsPass.
  destruct (checkPutObjectPartArgs bucket object) eqn:Hc.
  { split_and!; try done.
    - by intros [? _].
    - by intros err [= ->]. }
  destruct (statBucketDir (tree fs) bucket) as [e|[]] eqn:Hb.
  { split_and!; try done.
    - by intros (_ & ? & _).
    - by intros err _ [= ->].
    - intros _ Hnone. unfold statBucketDir in Hb. rewrite Hnone in Hb.
      by injection Hb as <-. }
  destruct (rSize data <? 0) eqn:Hz.
  { split_and!; try done.
    - intros (_ & _ & ?). lia.
    - intros _ Hnone. unfold statBucketDir in Hb. by rewrite Hnone in Hb. }
  apply Z.ltb_ge in Hz.
  unfold fsStatFile. rewrite Hmeta. split_and!; try done.
  - intros _ Hnone. unfold statBucketDir in Hb. by rewrite Hnone in Hb.
  - intros _ _ ?. lia.
Qed.

Lemma fsStatFile_err t p e :
  fsStatFile t p = inl e -> e = errFileNotFound \/ e = errFileAccessDenied.
Proof. unfold fsStatFile. destruct (t !! p) as [[]|]; naive_solver. Qed.

Lemma validate_from t dir n i ps claimed :
  ps <> -1 -> n = i + Z.of_nat (length claimed) ->
  validateParts t dir n i ps claimed = None <->
  (forall k part, claimed !! k = Some part ->
     (if bool_decide (i + Z.of_nat k = n - 1) then onDisk t dir part
      else goodSize t dir ps part)).
Proof.
  revert i. induction claimed as [|part rest IH]; intros i Hps Hn.
  { simpl. split; [|done]. by intros _ k part ?. }
  cbn [validateParts]. cbn [length] in Hn.
  destruct (fsStatFile t _) as [e|fi] eqn:Hs.
  { split.
    - destruct (fsStatFile_err _ _ _ Hs) as [-> | ->]; done.
    - intros Hall. specialize (Hall 0%nat part eq_refl).
      case_bool_decide; destruct Hall as (fi & Hfi & _) || destruct Hall as (fi & Hfi);
        rewrite Hs in Hfi; done. }
  destruct (ps =? -1) eqn:E; [lia|]. clear E.
  destruct (i =? n - 1) eqn:Ei.
  { apply Z.eqb_eq in Ei. split; [|done]. intros _ k p Hk.
    destruct rest; [|simpl in Hn; lia].
    destruct k; [|done]. injection Hk as <-.
    rewrite bool_decide_true by lia. by exists fi. }
  apply Z.eqb_neq in Ei.
  unfold isMinAllowedPartSize.
  destruct (globalMinPartSize <=? fiSize fi) eqn:Em; simpl.
  2:{ apply Z.leb_gt in Em. split; [done|]. intros Hall.
      specialize (Hall 0%nat part eq_refl). rewrite bool_decide_false in Hall by lia.
      destruct Hall as (fi' & Hfi & Hmin & _). rewrite Hs in Hfi.
      injection Hfi as <-. lia. }
  apply Z.leb_le in Em.
  destruct (ps =? fiSize fi) eqn:Ee; simpl.
  2:{ apply Z.eqb_neq in Ee. split; [done|]. intros Hall.
      specialize (Hall 0%nat part eq_refl). rewrite bool_decide_false in Hall by lia.
      destruct Hall as (fi' & Hfi & _ & Heq). rewrite Hs in Hfi.
      injection Hfi as <-. lia. }
  apply Z.eqb_eq in Ee.
  rewrite IH by lia. split.
  - intros Hall [|k] p Hk.
    + injection Hk as <-. rewrite bool_decide_false by lia. by exists fi.
    + specialize (Hall k p Hk).
      replace (i + Z.of_nat (S k)) with (i + 1 + Z.of_nat k) by lia. done.
  - intros Hall k p Hk. specialize (Hall (S k) p Hk).
    replace (i + Z.of_nat (S k)) with (i + 1 + Z.of_nat k) in Hall by lia. done.
Qed.


Lemma validate_first t dir n i claimed :
  validateParts t dir n i (-1) claimed
  = validateParts t dir n i (firstPartSize t dir claimed) claimed.
Proof.
  destruct claimed as [|part rest]; [done|]. cbn [validateParts firstPartSize].
  destruct (fsStatFile t _) as [e|fi]; [done|].
  change (-1 =? -1) with true. cbn match.
  by destruct (fiSize fi =? -1) eqn:E; [apply Z.eqb_eq in E; rewrite E|].
Qed.

Lemma validate_skip t dir n ps pre rest i :
  Forall (goodSize t dir ps) pre ->
  i + Z.of_nat (length pre) <= n - 1 ->
  validateParts t dir n i ps (pre ++ rest)
  = validateParts t dir n (i + Z.of_nat (length pre)) ps rest.
Proof.
  revert i. induction pre as [|part pre IH]; intros i Hgood Hi.
  { simpl. by rewrite Z.add_0_r. }
  apply Forall_cons in Hgood as [(fi & Hs & Hmin & Heq) Hgood].
  cbn [app validateParts length] in *. rewrite Hs.
  assert ((if ps =? -1 then fiSize fi else ps) = ps) as ->.
  { destruct (ps =? -1) eqn:E; [apply Z.eqb_eq in E|]; lia. }
  destruct (i =? n - 1) eqn:Ei; [lia|].
  unfold isMinAllowedPartSize.
  destruct (globalMinPartSize <=? fiSize fi) eqn:Em; [|lia].
  destruct (ps =? fiSize fi) eqn:Ee; [|lia]. cbn [negb].
  rewrite IH by (done || lia). f_equal. lia.
Qed.

Lemma validate_start t dir claimed :
  validateParts t dir (Z.of_nat (length claimed)) 0 (-1) claimed = None <->
  (forall k part, claimed !! k = Some part ->
     if bool_decide (S k = length claimed) then onDisk t dir part
     else goodSize t dir (firstPartSize t dir claimed) part).
Proof.
  destruct claimed as [|part rest].
  { split; [|done]. by intros _ k part ?. }
  cbn [validateParts firstPartSize].
  destruct (fsStatFile t _) as [e|fi] eqn:Hs.
  { split.
    - destruct (fsStatFile_err _ _ _ Hs) as [-> | ->]; done.
    - intros Hall. specialize (Hall 0%nat part eq_refl).
      case_bool_decide; destruct Hall as (fi & Hfi & _) || destruct Hall as (fi & Hfi);
        rewrite Hs in Hfi; done. }
  change (-1 =? -1) with true. cbn match.
  destruct (0 =? Z.of_nat (length (part :: rest)) - 1) eqn:Ei.
  { apply Z.eqb_eq in Ei. split; [|done]. intros _ k p Hk.
    destruct rest; [|simpl in Ei; lia].
    destruct k; [|done]. injection Hk as <-.
    rewrite bool_decide_true by done. by exists fi. }
  apply Z.eqb_neq in Ei. cbn [length] in Ei.
  unfold isMinAllowedPartSize.
  destruct (globalMinPartSize <=? fiSize fi) eqn:Em; cbn [negb].
  2:{ apply Z.leb_gt in Em. split; [done|]. intros Hall.
      specialize (Hall 0%nat part eq_refl).
      rewrite bool_decide_false in Hall by (cbn [length]; lia).
      destruct Hall as (fi' & Hfi & Hmin & _). rewrite Hs in Hfi.
      injection Hfi as <-. lia. }
  apply Z.leb_le in Em. rewrite Z.eqb_refl. cbn [negb].
  rewrite validate_from; [| unfold globalMinPartSize in Em; lia | cbn [length]; lia].
  split.
  - intros Hall [|k] p Hk.
    + injection Hk as <-. rewrite bool_decide_false by (cbn [length]; lia).
      by exists fi.
    + specialize (Hall k p Hk). cbn [length] in *.
      destruct (decide (S (S k) = S (length rest))).
      * rewrite bool_decide_true in * by lia. done.
      * rewrite bool_decide_false in * by lia. done.
  - intros Hall k p Hk. specialize (Hall (S k) p Hk). cbn [length] in *.
    destruct (decide (S (S k) = S (length rest))).
    + rewrite bool_decide_true in * by lia. done.
    + rewrite bool_decide_false in * by lia. done.
Qed.

(** The error of the first part that fails a check is the error of the
    loop. *)
Lemma validate_stops_at t dir claimed i part fi :
  claimed !! i = Some part -> (S i < length claimed)%nat ->
  fsStatFile t (dir ++ [encodePartFile (CompletePart.PartNumber part) (CompletePart.ETag part)])
    = inr fi ->
  (forall j p, (j < i)%nat -> claimed !! j = Some p ->
     goodSize t dir (firstPartSize t dir claimed) p) ->
  validateParts t dir (Z.of_nat (length claimed)) 0 (-1) claimed
  = if fiSize fi <? globalMinPartSize
    then Some (PartTooSmall (CompletePart.PartNumber part) (fiSize fi) (CompletePart.ETag part))
    else if bool_decide (fiSize fi = firstPartSize t dir claimed) then
      validateParts t dir (Z.of_nat (length claimed)) (Z.of_nat (S i))
        (firstPartSize t dir claimed) (drop (S i) claimed)
    else Some PartsSizeUnequal.
Proof.
  intros Hi Hlen Hs Hgood.
  rewrite validate_first.
  set (first := firstPartSize t dir claimed) in *.
  rewrite <- (take_drop_middle claimed i part Hi) at 2.
  assert (length (take i claimed) = i) as Htl by (rewrite length_take; lia).
  rewrite validate_skip; [| |lia].
  2:{ apply Forall_forall. intros p [j Hj]%list_elem_of_lookup.
      apply lookup_take_Some in Hj as [Hj Hlt]. eauto. }
  rewrite Htl. cbn [validateParts]. rewrite Hs.
  destruct (0 + Z.of_nat i =? Z.of_nat (length claimed) - 1) eqn:Ei; [lia|].
  unfold isMinAllowedPartSize.
  destruct (fiSize fi <? globalMinPartSize) eqn:Em.
  { apply Z.ltb_lt in Em. destruct (globalMinPartSize <=? fiSize fi) eqn:Em'; [lia|done]. }
  apply Z.ltb_ge in Em. destruct (globalMinPartSize <=? fiSize fi) eqn:Em'; [|lia].
  cbn [negb].
  assert (first = -1 -> i = 0%nat) as Hfirst.
  { intros Hf. destruct i as [|i]; [done|]. exfalso.
    destruct claimed as [|p0 claimed]; [done|].
    destruct (Hgood 0%nat p0 ltac:(lia) eq_refl) as (fi0 & Hs0 & Hmin0 & Heq0).
    unfold globalMinPartSize in Hmin0. lia. }
  assert (i = 0%nat -> first = fiSize fi) as Hzero.
  { intros ->. destruct claimed as [|p0 claimed]; [done|].
    injection Hi as ->. unfold first, firstPartSize. by rewrite Hs. }
  destruct (first =? -1) eqn:E1.
  - apply Z.eqb_eq in E1. rewrite Z.eqb_refl. cbn [negb].
    rewrite bool_decide_true by (symmetry; auto).
    rewrite <- (Hzero (Hfirst E1)). f_equal. lia.
  - case_bool_decide as Hd.
    + rewrite Hd, Z.eqb_refl. cbn [negb]. f_equal. lia.
    + destruct (first =? fiSize fi) eqn:E2; [apply Z.eqb_eq in E2; lia|done].
Qed.


Lemma validate_error_kind t dir n i ps claimed e :
  validateParts t dir n i ps claimed = Some e -> isValidationError e.
Proof.
  revert i ps. induction claimed as [|part rest IH]; intros i ps; [done|].
  cbn [validateParts].
  destruct (fsStatFile t _) as [e'|fi] eqn:Hs.
  { destruct (fsStatFile_err _ _ _ Hs) as [-> | ->]; intros [= <-]; by left. }
  destruct (i =? n - 1); [done|].
  destruct (negb _).
  { intros [= <-]. right. left. eauto. }
  destruct (negb _).
  { intros [= <-]. by right; right. }
  apply IH.
Qed.

Lemma claimedSize_stat fs bucket object uploadID part sz :
  claimedSize fs bucket object uploadID part = Some sz <->
  exists fi, fsStatFile (tree fs) (getUploadIDDir bucket object uploadID
       ++ [encodePartFile (CompletePart.PartNumber part) (CompletePart.ETag part)]) = inr fi
     /\ fiSize fi = sz.
Proof.
  unfold claimedSize. destruct (fsStatFile _ _) as [e|fi]; split.
  - done.
  - by intros (? & [=] & _).
  - intros [= <-]. eauto.
  - by intros (? & [= <-] & <-).
Qed.

Lemma goodSize_claimed fs bucket object uploadID claimed p sz :
  claimedSize fs bucket object uploadID p = Some sz ->
  globalMinPartSize <= sz ->
  head claimed ≫= claimedSize fs bucket object uploadID = Some sz ->
  goodSize (tree fs) (getUploadIDDir bucket object uploadID)
    (firstPartSize (tree fs) (getUploadIDDir bucket object uploadID) claimed) p.
Proof.
  intros (fi & Hs & <-)%claimedSize_stat Hmin Hhead.
  exists fi. split; [done|]. split; [done|].
  destruct claimed as [|p0 claimed]; [done|]. cbn in Hhead.
  apply claimedSize_stat in Hhead as (fi0 & Hs0 & Heq0).
  unfold firstPartSize. by rewrite Hs0.
Qed.

Lemma complete_validation bucket object uploadID claimed uuid uuid' lockGranted now fs :
  completeGuardsPass fs bucket object uploadID claimed ->
  CompleteMultipartUpload bucket object uploadID claimed uuid uuid' lockGranted now fs
  = match validateParts (tree fs) (getUploadIDDir bucket object uploadID)
            (Z.of_nat (length claimed)) 0 (-1) claimed with
    | Some err => (fs, inl err)
    | None =>
        match getCompleteMultipartMD5 claimed with
        | inr s3MD5 =>
            commitMultipartUpload bucket object uploadID claimed s3MD5 uuid uuid'
              lockGranted now fs
        | inl err => (fs, inl err)
        end
    end.
Proof.
  intros (Hc & Hp & Hb & [fi Hs] & [md5 Hm]). unfold CompleteMultipartUpload.
  rewrite Hc, Hp, Hb, Hs, Hm. done.
Qed.

Lemma complete_rejected bucket object uploadID claimed uuid uuid' lockGranted now fs :
  completeGuardsPass fs bucket object uploadID claimed ->
  validateParts (tree fs) (getUploadIDDir bucket object uploadID)
    (Z.of_nat (length claimed)) 0 (-1) claimed <> None ->
  exists e, isValidationError e /\
    CompleteMultipartUpload bucket object uploadID claimed uuid uuid' lockGranted now fs
    = (fs, inl e).
Proof.
  intros Hg Hv. rewrite complete_validation by done.
  destruct (validateParts _ _ _ _ _ _) as [e|] eqn:E; [|done].
  exists e. split; [by eapply validate_error_kind|done].
Qed.

(** The last claimed part is exempt from both size checks. *)
Lemma complete_last_part_exempt bucket object uploadID claimed uuid uuid' lockGranted now fs s3MD5 :
  completeGuardsPass fs bucket object uploadID claimed ->
  getCompleteMultipartMD5 claimed = inr s3MD5 ->
  earlierPartsGood fs bucket object uploadID claimed (length claimed - 1) ->
  (forall p, last claimed = Some p -> is_Some (claimedSize fs bucket object uploadID p)) ->
  CompleteMultipartUpload bucket object uploadID claimed uuid uuid' lockGranted now fs
  = commitMultipartUpload bucket object uploadID claimed s3MD5 uuid uuid' lockGranted now fs.
Proof.
  intros Hg Hm Hgood Hlast. rewrite complete_validation by done. rewrite Hm.
  assert (validateParts (tree fs) (getUploadIDDir bucket object uploadID)
            (Z.of_nat (length claimed)) 0 (-1) claimed = None) as ->; [|done].
  apply validate_start. intros k p Hk. case_bool_decide as Hd.
  - destruct (Hlast p) as [sz Hsz].
    { rewrite last_lookup. rewrite <- Hd. done. }
    apply claimedSize_stat in Hsz as (fi & Hfi & _). by exists fi.
  - apply lookup_lt_Some in Hk as Hlt.
    destruct (Hgood k p ltac:(lia) Hk) as (sz & Hsz & Hmin & Hhead).
    by eapply goodSize_claimed.
Qed.


Lemma earlier_good_firstPartSize fs bucket object uploadID claimed i j p :
  earlierPartsGood fs bucket object uploadID claimed i ->
  (j < i)%nat -> claimed !! j = Some p ->
  goodSize (tree fs) (getUploadIDDir bucket object uploadID)
    (firstPartSize (tree fs) (getUploadIDDir bucket object uploadID) claimed) p.
Proof.
  intros Hgood Hj Hp. destruct (Hgood j p Hj Hp) as (sz & Hsz & Hmin & Hhead).
  by eapply goodSize_claimed.
Qed.

Lemma validate_missing t dir claimed i part err :
  claimed !! i = Some part ->
  fsStatFile t (dir ++ [encodePartFile (CompletePart.PartNumber part) (CompletePart.ETag part)])
    = inl err ->
  (forall j p, (j < i)%nat -> claimed !! j = Some p ->
     goodSize t dir (firstPartSize t dir claimed) p) ->
  validateParts t dir (Z.of_nat (length claimed)) 0 (-1) claimed = Some InvalidPart.
Proof.
  intros Hi Hs Hgood.
  rewrite validate_first.
  set (first := firstPartSize t dir claimed) in *.
  rewrite <- (take_drop_middle claimed i part Hi) at 2.
  apply lookup_lt_Some in Hi as Hlt.
  assert (length (take i claimed) = i) as Htl by (rewrite length_take; lia).
  rewrite validate_skip; [| |lia].
  2:{ apply Forall_forall. intros p [j Hj]%list_elem_of_lookup.
      apply lookup_take_Some in Hj as [Hj Hlt']. eauto. }
  cbn [validateParts]. rewrite Hs.
  by destruct (fsStatFile_err _ _ _ Hs) as [-> | ->].
Qed.

Lemma head_size_firstPartSize fs bucket object uploadID claimed i part fi :
  claimed !! i = Some part ->
  fsStatFile (tree fs) (getUploadIDDir bucket object uploadID
       ++ [encodePartFile (CompletePart.PartNumber part) (CompletePart.ETag part)]) = inr fi ->
  earlierPartsGood fs bucket object uploadID claimed i ->
  head claimed ≫= claimedSize fs bucket object uploadID = Some (fiSize fi) <->
  fiSize fi = firstPartSize (tree fs) (getUploadIDDir bucket object uploadID) claimed.
Proof.
  intros Hi Hfi Hgood.
  destruct claimed as [|p0 claimed]; [done|]. cbn [head mbind option_bind].
  destruct i as [|i].
  - injection Hi as ->. unfold firstPartSize, claimedSize. rewrite Hfi. done.
  - destruct (Hgood 0%nat p0 ltac:(lia) eq_refl) as (s0 & Hs0 & _ & _).
    rewrite Hs0. apply claimedSize_stat in Hs0 as (f0 & Hf0 & <-).
    unfold firstPartSize. rewrite Hf0. split; [by intros [= ->]|by intros ->].
Qed.

(** The validation loop walks the claimed parts in order: either the
    first [i] of them pass, or one of them is the first to fail and the
    loop ends with its error. *)
Lemma validate_first_failure fs bucket object uploadID claimed i :
  (i < length claimed)%nat ->
  earlierPartsGood fs bucket object uploadID claimed i \/
  exists j e, (j < i)%nat /\ firstFailure fs bucket object uploadID claimed j e /\
    validateParts (tree fs) (getUploadIDDir bucket object uploadID)
      (Z.of_nat (length claimed)) 0 (-1) claimed = Some e.
Proof.
  induction i as [|i IH]; intros Hlen.
  { left. intros j p Hj. lia. }
  destruct IH as [Hgood | (j & e & Hj & Hfail & Hv)]; [lia| |].
  2:{ right. exists j, e. split; [lia|done]. }
  destruct (lookup_lt_is_Some_2 claimed i ltac:(lia)) as [part Hi].
  destruct (claimedSize fs bucket object uploadID part) as [sz|] eqn:Hsz.
  2:{ right. exists i, InvalidPart. split; [lia|]. split.
      - exists part. split; [done|]. split; [done|]. by left.
      - unfold claimedSize in Hsz.
        destruct (fsStatFile _ _) as [err|fi] eqn:Hs; [|done].
        eapply validate_missing; eauto using earlier_good_firstPartSize. }
  pose proof Hsz as Hsz'.
  apply claimedSize_stat in Hsz' as (fi & Hfi & <-).
  pose proof (validate_stops_at _ _ _ i part fi Hi Hlen Hfi
                ltac:(eauto using earlier_good_firstPartSize)) as Hv.
  pose proof (head_size_firstPartSize _ _ _ _ _ _ _ _ Hi Hfi Hgood) as Hhead.
  destruct (fiSize fi <? globalMinPartSize) eqn:Em.
  { apply Z.ltb_lt in Em. right. eexists i, _. split; [lia|]. split; [|exact Hv].
    exists part. split; [done|]. split; [done|]. right. left. eauto 10. }
  apply Z.ltb_ge in Em. case_bool_decide as Hd.
  - left. intros j p Hj Hp. destruct (decide (j = i)) as [->|Hne].
    + rewrite Hi in Hp. injection Hp as <-. exists (fiSize fi).
      split; [done|]. split; [done|]. by apply Hhead.
    + apply (Hgood j p); [lia|done].
  - right. eexists i, _. split; [lia|]. split; [|exact Hv].
    exists part. split; [done|]. split; [done|]. right. right.
    exists (fiSize fi). split_and!; try done. by rewrite Hhead.
Qed.

(** C5, as the code has it. Once the guards before the validation
    loop pass: if a claimed part other than the last is on disk with
    less than 5 MiB, [CompleteMultipartUpload] rejects the request and
    changes nothing, with the error of the first claimed part that
    fails a check. That part is the small part or one claimed before
    it, every part claimed before it passes, and the error is
    [InvalidPart] when it is not on disk, [PartTooSmall] with its
    number, size and etag when it has less than 5 MiB, and
    [PartsSizeUnequal] when it has 5 MiB or more and not the size of
    the first claimed part ([firstFailure]). So the error is
    [PartTooSmall] for the small part itself when every
    earlier claimed part is on disk, has at least 5 MiB and has the size
    of the first claimed part. The last claimed part is exempt: whatever
    its size, if it is on disk and the parts before it pass, the call
    goes on to commit; and so does a single-part upload whose part is on
    disk, without any check of its size. *)
Theorem complete_part_too_small :
  (forall bucket object uploadID claimed uuid uuid' lockGranted now fs i part sz,
     completeGuardsPass fs bucket object uploadID claimed ->
     claimed !! i = Some part -> (S i < length claimed)%nat ->
     claimedSize fs bucket object uploadID part = Some sz ->
     sz < globalMinPartSize ->
     (exists j e, (j <= i)%nat /\ firstFailure fs bucket object uploadID claimed j e /\
        CompleteMultipartUpload bucket object uploadID claimed uuid uuid' lockGranted now fs
        = (fs, inl e)) /\
     (earlierPartsGood fs bucket object uploadID claimed i ->
      CompleteMultipartUpload bucket object uploadID claimed uuid uuid' lockGranted now fs
      = (fs, inl (PartTooSmall (CompletePart.PartNumber part) sz (CompletePart.ETag part))))) /\
  (forall bucket object uploadID claimed uuid uuid' lockGranted now fs s3MD5,
     completeGuardsPass fs bucket object uploadID claimed ->
     getCompleteMultipartMD5 claimed = inr s3MD5 ->
     earlierPartsGood fs bucket object uploadID claimed (length claimed - 1) ->
     (forall p, last claimed = Some p -> is_Some (claimedSize fs bucket object uploadID p)) ->
     CompleteMultipartUpload bucket object uploadID claimed uuid uuid' lockGranted now fs
     = commitMultipartUpload bucket object uploadID claimed s3MD5 uuid uuid' lockGranted now fs) /\
  (forall bucket object uploadID part uuid uuid' lockGranted now fs s3MD5,
     completeGuardsPass fs bucket object uploadID [part] ->
     getCompleteMultipartMD5 [part] = inr s3MD5 ->
     is_Some (claimedSize fs bucket object uploadID part) ->
     CompleteMultipartUpload bucket object uploadID [part] uuid uuid' lockGranted now fs
     = commitMultipartUpload bucket object uploadID [part] s3MD5 uuid uuid' lockGranted now fs).
Proof.
  split; [|split].
  - intros bucket object uploadID claimed uuid uuid' lockGranted now fs i part sz
      Hg Hi Hlen Hsz Hsmall.
    split.
    + destruct (validate_first_failure fs bucket object uploadID claimed (S i) Hlen)
        as [Hgood | (j & e & Hj & Hfail & Hv)].
      * destruct (Hgood i part ltac:(lia) Hi) as (sz' & Hsz' & Hmin & _).
        rewrite Hsz in Hsz'. injection Hsz' as <-. lia.
      * exists j, e. split; [lia|]. split; [done|].
        rewrite complete_validation by done. by rewrite Hv.
    + apply claimedSize_stat in Hsz as (fi & Hfi & <-). intros Hgood. rewrite complete_validation by done.
      rewrite (validate_stops_at _ _ _ i part fi) by eauto using earlier_good_firstPartSize.
      apply Z.ltb_lt in Hsmall. by rewrite Hsmall.
  - intros. by apply complete_last_part_exempt.
  - intros bucket object uploadID part uuid uuid' lockGranted now fs s3MD5 Hg Hm Hon.
    apply complete_last_part_exempt; [done|done| |].
    + intros j p Hj. cbn in Hj. lia.
    + intros p [= <-]. done.
Qed.

(** C6, as the code has it. Once the guards before the validation
    loop pass: if two claimed parts other than the last are on disk with
    different sizes, [CompleteMultipartUpload] rejects the request and
    changes nothing, with the error of the first claimed part that
    fails a check. That part is one of the two or is claimed before the
    later of them, every part claimed before it passes, and the error is
    [InvalidPart] when it is not on disk, [PartTooSmall] with its
    number, size and etag when it has less than 5 MiB, and
    [PartsSizeUnequal] when it has 5 MiB or more and not the size of
    the first claimed part ([firstFailure]). So the error is
    [PartsSizeUnequal] when a part other than the last has
    at least 5 MiB, differs in size from the first claimed part, and
    every earlier claimed part is on disk, has at least 5 MiB and has
    the size of the first. The last claimed part is exempt from the
    comparison. *)
Theorem complete_parts_size_unequal :
  (forall bucket object uploadID claimed uuid uuid' lockGranted now fs i j pi pj si sj,
     completeGuardsPass fs bucket object uploadID claimed ->
     claimed !! i = Some pi -> (S i < length claimed)%nat ->
     claimed !! j = Some pj -> (S j < length claimed)%nat ->
     claimedSize fs bucket object uploadID pi = Some si ->
     claimedSize fs bucket object uploadID pj = Some sj ->
     si <> sj ->
     exists k e, (k <= Nat.max i j)%nat /\ firstFailure fs bucket object uploadID claimed k e /\
       CompleteMultipartUpload bucket object uploadID claimed uuid uuid' lockGranted now fs
       = (fs, inl e)) /\
  (forall bucket object uploadID claimed uuid uuid' lockGranted now fs i part sz,
     completeGuardsPass fs bucket object uploadID claimed ->
     claimed !! i = Some part -> (S i < length claimed)%nat ->
     claimedSize fs bucket object uploadID part = Some sz ->
     globalMinPartSize <= sz ->
     head claimed ≫= claimedSize fs bucket object uploadID <> Some sz ->
     earlierPartsGood fs bucket object uploadID claimed i ->
     CompleteMultipartUpload bucket object uploadID claimed uuid uuid' lockGranted now fs
     = (fs, inl PartsSizeUnequal)) /\
  (forall bucket object uploadID claimed uuid uuid' lockGranted now fs s3MD5,
     completeGuardsPass fs bucket object uploadID claimed ->
     getCompleteMultipartMD5 claimed = inr s3MD5 ->
     earlierPartsGood fs bucket object uploadID claimed (length claimed - 1) ->
     (forall p, last claimed = Some p -> is_Some (claimedSize fs bucket object uploadID p)) ->
     CompleteMultipartUpload bucket object uploadID claimed uuid uuid' lockGranted now fs
     = commitMultipartUpload bucket object uploadID claimed s3MD5 uuid uuid' lockGranted now fs).
Proof.
  split; [|split].
  - intros bucket object uploadID claimed uuid uuid' lockGranted now fs i j pi pj si sj
      Hg Hi Hli Hj Hlj Hsi Hsj Hne.
    destruct (validate_first_failure fs bucket object uploadID claimed (S (Nat.max i j))
                ltac:(lia)) as [Hgood | (k & e & Hk & Hfail & Hv)].
    + destruct (Hgood i pi ltac:(lia) Hi) as (si' & Hsi' & _ & Hhi).
      destruct (Hgood j pj ltac:(lia) Hj) as (sj' & Hsj' & _ & Hhj).
      congruence.
    + exists k, e. split; [lia|]. split; [done|].
      rewrite complete_validation by done. by rewrite Hv.
  - intros bucket object uploadID claimed uuid uuid' lockGranted now fs i part sz
      Hg Hi Hlen Hsz Hmin Hne Hgood.
    apply claimedSize_stat in Hsz as (fi & Hfi & <-).
    rewrite complete_validation by done.
    rewrite (validate_stops_at _ _ _ i part fi) by eauto using earlier_good_firstPartSize.
    destruct (fiSize fi <? globalMinPartSize) eqn:E; [apply Z.ltb_lt in E; lia|].
    rewrite bool_decide_false; [done|].
    intros Heq. apply Hne.
    destruct i as [|i].
    + destruct claimed as [|p0 claimed]; [done|]. injection Hi as ->. cbn.
      apply claimedSize_stat. eauto.
    + destruct claimed as [|p0 claimed]; [done|].
      destruct (Hgood 0%nat p0 ltac:(lia) eq_refl) as (s0 & Hs0 & _ & Hh).
      cbn in Hh |- *. rewrite Hs0. f_equal.
      apply claimedSize_stat in Hs0 as (f0 & Hf0 & <-).
      unfold firstPartSize in Heq. rewrite Hf0 in Heq. done.
  - intros. by apply complete_last_part_exempt.
Qed.


Lemma contiguous_snoc ps p :
  contiguous ps -> PartInfo.PartNumber p = Z.of_nat (length ps) + 1 ->
  contiguous (ps ++ [p]).
Proof.
  unfold contiguous. intros Hps Hp.
  rewrite fmap_app, length_app, Hps. cbn [length].
  rewrite seq_app, fmap_app. cbn. do 2 f_equal. lia.
Qed.


Lemma insertSorted_elem x y l : x ∈ insertSorted y l <-> x = y \/ x ∈ l.
Proof.
  induction l as [|z l IH]; cbn [insertSorted].
  { rewrite list_elem_of_singleton. split; [by left|]. intros [|Hx]; [done|]. inversion Hx. }
  destruct (String.leb y z); [by rewrite elem_of_cons|].
  rewrite !elem_of_cons, IH. tauto.
Qed.

Lemma sortStrings_elem x l : x ∈ sortStrings l <-> x ∈ l.
Proof.
  unfold sortStrings. induction l as [|y l IH]; cbn [foldr]; [done|].
  rewrite insertSorted_elem, IH, elem_of_cons. done.
Qed.

Lemma appendEntries_spec dir entries next t file t' file' :
  appendEntries dir entries next t file = (t', file') ->
  next = Z.of_nat (length (parts file)) + 1 ->
  contiguous (parts file) ->
  filePath file' = filePath file /\
  contiguous (parts file') /\
  exists new, parts file' = parts file ++ new /\
    Forall (fun p => exists entry, entry ∈ entries /\
              decodePartFile entry = inr (PartInfo.PartNumber p, PartInfo.ETag p)) new.
Proof.
  revert next t file. induction entries as [|entry rest IH]; intros next t file Hrun Hnext Hc.
  { injection Hrun as <- <-. repeat split; [done|]. exists []. by rewrite app_nil_r. }
  assert (forall t0 file0,
    appendEntries dir rest next t0 file0 = (t', file') ->
    next = Z.of_nat (length (parts file0)) + 1 -> contiguous (parts file0) ->
    filePath file' = filePath file0 /\ contiguous (parts file') /\
    exists new, parts file' = parts file0 ++ new /\
      Forall (fun p => exists e, e ∈ entry :: rest /\
                decodePartFile e = inr (PartInfo.PartNumber p, PartInfo.ETag p)) new) as Hskip.
  { intros t0 file0 Hr Hn Hc0.
    destruct (IH _ _ _ Hr Hn Hc0) as (Hp & Hc' & new & Hnew & Hall).
    repeat split; [done..|]. exists new. split; [done|].
    eapply Forall_impl; [exact Hall|]. intros p (e & He & Hd). exists e.
    split; [by apply list_elem_of_further|done]. }
  cbn [appendEntries] in Hrun.
  destruct (String.eqb entry fsMetaJSONFile); [by eapply Hskip|].
  destruct (decodePartFile entry) as [e|[partNumber etag]] eqn:Hd.
  { injection Hrun as <- <-. repeat split; [done|]. exists []. by rewrite app_nil_r. }
  destruct (partNumber <? next) eqn:E1; [by eapply Hskip|].
  destruct (next <? partNumber) eqn:E2.
  { injection Hrun as <- <-. repeat split; [done|]. exists []. by rewrite app_nil_r. }
  apply Z.ltb_ge in E1, E2. assert (partNumber = next) as -> by lia.
  destruct (AppendFile t (filePath file) (dir ++ [entry])) as [e|t1].
  { injection Hrun as <- <-. repeat split; [done|]. exists []. by rewrite app_nil_r. }
  apply IH in Hrun as (Hp & Hc' & new & Hnew & Hall); cbn [parts filePath] in *.
  - repeat split; [done..|]. eexists (_ :: new). split.
    + rewrite Hnew, <- app_assoc. done.
    + apply Forall_cons. split.
      * exists entry. split; [by apply list_elem_of_here|]. done.
      * eapply Forall_impl; [exact Hall|]. intros p (e & He & Hde). exists e.
        split; [by apply list_elem_of_further|done].
  - rewrite length_app. cbn [length]. lia.
  - apply contiguous_snoc; [done|]. cbn. lia.
Qed.

(** What a run does to the record of its upload id. *)
Lemma backgroundAppend_record bucket object uploadID uuid fs :
  allContiguous fs ->
  allContiguous (backgroundAppend bucket object uploadID uuid fs) /\
  exists file',
    appendFileMap (backgroundAppend bucket object uploadID uuid fs) !! uploadID = Some file' /\
    contiguous (parts file') /\
    exists new,
      parts file' = recordedParts fs uploadID ++ new /\
      forall p, p ∈ new ->
        exists entries entry,
          readDir (tree fs) (getUploadIDDir bucket object uploadID) = inr entries /\
          entry ∈ entries /\
          decodePartFile entry = inr (PartInfo.PartNumber p, PartInfo.ETag p).
Proof.
  intros Hall.
  unfold backgroundAppend.
  set (file := match appendFileMap fs !! uploadID with Some f => f | None => _ end).
  assert (contiguous (parts file)) as Hc.
  { unfold file. destruct (appendFileMap fs !! uploadID) eqn:E; [by eapply Hall|done]. }
  assert (parts file = recordedParts fs uploadID) as Hrec.
  { unfold file, recordedParts. by destruct (appendFileMap fs !! uploadID). }
  assert (forall t f, contiguous (parts f) ->
            allContiguous {| fsUUID := fsUUID fs; tree := t;
                             appendFileMap := <[uploadID := f]> (appendFileMap fs) |}) as Hins.
  { intros t f Hf u g. cbn. rewrite lookup_insert. case_decide.
    - by intros [= <-].
    - apply Hall. }
  destruct (readDir (tree fs) _) as [e|entries] eqn:Hdir.
  { split; [by apply Hins|]. exists file. cbn. rewrite lookup_insert_eq.
    repeat split; [done|]. exists []. rewrite app_nil_r. split; [done|].
    intros p Hp. inversion Hp. }
  destruct (appendEntries _ _ _ _ _) as [t' file'] eqn:Hrun.
  apply appendEntries_spec in Hrun as (_ & Hc' & new & Hnew & Hback); [|done..].
  split; [by apply Hins|]. exists file'. cbn. rewrite lookup_insert_eq.
  repeat split; [done|]. exists new. split; [by rewrite <- Hrec|].
  intros p Hp. rewrite Forall_forall in Hback.
  destruct (Hback p Hp) as (entry & He & Hd).
  exists entries, entry. by rewrite <- sortStrings_elem.
Qed.











(** The other operations keep the part numbers of the records
    contiguous as well: they remove records or run [backgroundAppend]. *)
Lemma abort_allContiguous bucket object uploadID fs :
  allContiguous fs -> allContiguous (AbortMultipartUpload bucket object uploadID fs).1.
Proof.
  intros Hall. unfold AbortMultipartUpload.
  destruct (checkAbortMultipartArgs bucket object); [done|].
  destruct (statBucketDir (tree fs) bucket); [done|].
  assert (allContiguous {| fsUUID := fsUUID fs; tree := tree fs;
                           appendFileMap := delete uploadID (appendFileMap fs) |}) as Hdel.
  { intros uid f. cbn. rewrite lookup_delete. case_decide; [done|]. apply Hall. }
  cbn [tree]. destruct (fsStatFile _ _) as [[]|]; done.
Qed.

Lemma put_part_allContiguous bucket object uploadID partID data uuid genETag now fs :
  allContiguous fs ->
  allContiguous (PutObjectPart bucket object uploadID partID data uuid genETag now fs).1.
Proof.
  intros Hall. unfold PutObjectPart.
  destruct (checkPutObjectPartArgs bucket object); [done|].
  destruct (statBucketDir (tree fs) bucket); [done|].
  destruct (rSize data <? 0); [done|].
  destruct (fsStatFile (tree fs) _) as [[]|]; try done.
  destruct (fsCreateFile _ _ _ _) as [|[t1 w]]; [done|].
  destruct (w <? rSize data); [done|].
  destruct (fsRenameFile _ _ _) as [|t2]; [done|].
  by destruct (fsStatFile t2 _).
Qed.

Lemma complete_allContiguous bucket object uploadID claimed uuid uuid' lockGranted now fs :
  allContiguous fs ->
  allContiguous
    (CompleteMultipartUpload bucket object uploadID claimed uuid uuid' lockGranted now fs).1.
Proof.
  intros Hall. unfold CompleteMultipartUpload.
  destruct (checkCompleteMultipartArgs bucket object); [done|].
  destruct (parentDirIsObject (tree fs) bucket object); [done|].
  destruct (statBucketDir (tree fs) bucket); [done|].
  destruct (fsStatFile (tree fs) _) as [[]|]; try done.
  destruct (getCompleteMultipartMD5 claimed) as [|s3MD5]; [done|].
  destruct (validateParts _ _ _ _ _ _); [done|].
  unfold commitMultipartUpload.
  destruct (backgroundAppend_record bucket object uploadID uuid' fs Hall) as [Hinv _].
  set (fs1 := backgroundAppend bucket object uploadID uuid' fs) in *.
  assert (forall t, allContiguous
            (withTree {| fsUUID := fsUUID fs1; tree := tree fs1;
                         appendFileMap := delete uploadID (appendFileMap fs1) |} t)) as Hdel.
  { intros t uid file. cbn. rewrite lookup_delete. case_decide; [done|]. apply Hinv. }
  destruct (if _ : bool then _ else _) as [t3 [err|]]; [apply Hdel|].
  destruct (negb lockGranted); [apply Hdel|].
  destruct (t3 !! _) as [[]|]; try apply Hdel;
    (destruct (fsStatFile _ _); [apply Hdel|]);
    (destruct (fsRenameFile _ _ _); [apply Hdel|]);
    destruct (fsStatFile _ _); apply Hdel.
Qed.


Transparent getUploadIDDir.

End MultipartFacts.

Section MultipartExamples.

Import PartFile Multipart.
Local Open Scope string_scope.
Local Open Scope list_scope.
Local Open Scope Z_scope.

Lemma exampleFS_guards claimed :
  completeGuardsPass (H := plainHelpers) exampleFS "bucket" "object" "u1" claimed.
Proof.
  repeat split; try reflexivity.
  - eexists. vm_compute. reflexivity.
  - eexists. reflexivity.
Qed.

Lemma abort_after_abort_not_success :
  (AbortMultipartUpload (H := plainHelpers) "bucket" "object" "u1" exampleFS).2 = None /\
  (AbortMultipartUpload (H := plainHelpers) "bucket" "object" "u1"
     (AbortMultipartUpload (H := plainHelpers) "bucket" "object" "u1" exampleFS).1).2
  = Some (InvalidUploadID "u1").
Proof. split; vm_compute; reflexivity. Qed.

Lemma abort_after_abort_witness :
  let fs' := (AbortMultipartUpload (H := plainHelpers) "bucket" "object" "u1" exampleFS).1 in
  AbortMultipartUpload (H := plainHelpers) "bucket" "object" "u1" fs'
  = (fs', Some (InvalidUploadID "u1")).
Proof.
  intros fs'.
  apply (abort_after_abort (H := plainHelpers) "bucket" "object" "u1" exampleFS).
  rewrite (surjective_pairing
             (AbortMultipartUpload (H := plainHelpers) "bucket" "object" "u1" exampleFS)).
  f_equal; vm_compute; reflexivity.
Defined.

Lemma put_part_missing_bucket :
  tree emptyFS !! (getUploadIDDir (H := plainHelpers) "bucket" "object" "u1" ++ [fsMetaJSONFile])
    = None /\
  (PutObjectPart (H := plainHelpers) "bucket" "object" "u1" 1 exampleReader "uuid" "" 0 emptyFS).2
    = inl (BucketNotFound "bucket").
Proof. split; vm_compute; reflexivity. Qed.

Lemma put_part_missing_upload_witness :
  (PutObjectPart (H := plainHelpers) "bucket" "object" "u2" 1 exampleReader "uuid" "" 0 exampleFS).1
    = exampleFS /\
  (PutObjectPart (H := plainHelpers) "bucket" "object" "u2" 1 exampleReader "uuid" "" 0 exampleFS).2
    = inl (InvalidUploadID "u2").
Proof.
  destruct (put_part_missing_upload (H := plainHelpers) "bucket" "object" "u2" 1
              exampleReader "uuid" "" 0 exampleFS) as (Hst & Herr & _).
  { vm_compute. reflexivity. }
  split; [exact Hst|]. apply Herr.
  repeat split; try reflexivity. vm_compute. discriminate.
Defined.

Lemma complete_small_part_other_error :
  claimedSize (H := plainHelpers) exampleFS "bucket" "object" "u1" (claim 4 "dd") = Some 1 /\
  (CompleteMultipartUpload (H := plainHelpers) "bucket" "object" "u1"
     [claim 1 "aa"; claim 3 "cc"; claim 4 "dd"; claim 2 "bb"] "uuid" "uuid'" true 9 exampleFS).2
  = inl PartsSizeUnequal.
Proof. split; vm_compute; reflexivity. Qed.

Lemma complete_unequal_parts_other_error :
  claimedSize (H := plainHelpers) exampleFS "bucket" "object" "u1" (claim 1 "aa")
    = Some (5 * 1024 * 1024) /\
  claimedSize (H := plainHelpers) exampleFS "bucket" "object" "u1" (claim 4 "dd") = Some 1 /\
  (CompleteMultipartUpload (H := plainHelpers) "bucket" "object" "u1"
     [claim 1 "aa"; claim 4 "dd"; claim 3 "cc"; claim 2 "bb"] "uuid" "uuid'" true 9 exampleFS).2
  = inl (PartTooSmall 4 1 "dd").
Proof. repeat split; vm_compute; reflexivity. Qed.

Lemma complete_part_too_small_witness :
  CompleteMultipartUpload (H := plainHelpers) "bucket" "object" "u1"
     [claim 1 "aa"; claim 4 "dd"; claim 2 "bb"] "uuid" "uuid'" true 9 exampleFS
  = (exampleFS, inl (PartTooSmall 4 1 "dd")) /\
  CompleteMultipartUpload (H := plainHelpers) "bucket" "object" "u1"
     [claim 4 "dd"] "uuid" "uuid'" true 9 exampleFS
  = commitMultipartUpload (H := plainHelpers) "bucket" "object" "u1"
     [claim 4 "dd"] "8b1a9953c4611296a827abf8c47804d7-4" "uuid" "uuid'" true 9 exampleFS.
Proof.
  destruct (complete_part_too_small (H := plainHelpers)) as (Hsmall & _ & Hsingle). split.
  - apply (Hsmall _ _ _ _ _ _ _ _ _ 1%nat (claim 4 "dd") 1).
    + apply exampleFS_guards.
    + reflexivity.
    + cbn. lia.
    + vm_compute. reflexivity.
    + vm_compute. reflexivity.
    + intros [|j] p Hj Hp; [|lia]. injection Hp as <-.
      exists (5 * 1024 * 1024). repeat split; vm_compute; try reflexivity. discriminate.
  - apply Hsingle.
    + apply exampleFS_guards.
    + reflexivity.
    + eexists. vm_compute. reflexivity.
Defined.

Lemma complete_parts_size_unequal_witness :
  CompleteMultipartUpload (H := plainHelpers) "bucket" "object" "u1"
     [claim 1 "aa"; claim 3 "cc"; claim 2 "bb"] "uuid" "uuid'" true 9 exampleFS
  = (exampleFS, inl PartsSizeUnequal).
Proof.
  destruct (complete_parts_size_unequal (H := plainHelpers)) as (_ & Hunequal & _).
  apply (Hunequal _ _ _ _ _ _ _ _ _ 1%nat (claim 3 "cc") (6 * 1024 * 1024)).
  - apply exampleFS_guards.
  - reflexivity.
  - cbn. lia.
  - vm_compute. reflexivity.
  - vm_compute. discriminate.
  - vm_compute. discriminate.
  - intros [|j] p Hj Hp; [|lia]. injection Hp as <-.
    exists (5 * 1024 * 1024). repeat split; vm_compute; try reflexivity. discriminate.
Defined.

Lemma exampleDir_listing :
  readDir (tree exampleFS) (getUploadIDDir (H := plainHelpers) "bucket" "object" "u1")
  = inr ["fs.json"; "00004.dd"; "00003.cc"; "00002.bb"; "00001.aa"].
Proof. vm_compute. reflexivity. Qed.






End MultipartExamples.

Lemma wrap64_id z : in_int64 z -> wrap64 z = z.
Proof.
  unfold in_int64, int64_min, int64_max, wrap64. intros Hz.
  rewrite Z.mod_small; lia.
Qed.

Lemma wrapU64_id z : 0 <= z < uint64_mod -> wrapU64 z = z.
Proof. intros Hz. unfold wrapU64. by apply Z.mod_small. Qed.

Section NSLockFacts.

Import NSLock.
Local Open Scope string_scope.
Local Open Scope list_scope.
Local Open Scope Z_scope.

Lemma refOf_setRef n a b r :
  refOf (setRef n a r) b = if decide (a = b) then r else refOf n b.
Proof.
  unfold refOf, setRef. cbn. rewrite lookup_insert. by case_decide.
Qed.

Lemma refOf_deleteEntry n param a : refOf (deleteEntry n param) a = refOf n a.
Proof. done. Qed.

Lemma wrapU64_range z : 0 <= wrapU64 z < uint64_mod.
Proof. unfold wrapU64. apply Z.mod_pos_bound. done. Qed.

Lemma refOf_range s a : wf s -> 0 <= refOf (nsMap s) a < uint64_mod.
Proof.
  intros Hwf. unfold refOf. destruct (store (nsMap s) !! a) eqn:E.
  - by eapply wf_range.
  - done.
Qed.

Lemma refOf_store n a : 0 < refOf n a -> is_Some (store n !! a).
Proof. unfold refOf. destruct (store n !! a); [eauto|lia]. Qed.

Lemma newAddr_fresh n : store n !! newAddr n = None.
Proof. unfold newAddr. apply not_elem_of_dom. apply is_fresh. Qed.

Lemma wf_initial isDistXL : wf (initial isDistXL).
Proof.
  split; cbn; intros *; try (rewrite lookup_empty; done);
    intros Hin; inversion Hin.
Qed.

Lemma refOf_setLocker n a b m : refOf (setLocker n a m) b = refOf n b.
Proof.
  unfold refOf at 1, setLocker. cbn. rewrite lookup_insert. case_decide; [by subst|done].
Qed.

Lemma lockerOf_setLocker n a b m :
  lockerOf (setLocker n a m) b = if decide (a = b) then m else lockerOf n b.
Proof.
  unfold lockerOf, setLocker. cbn. rewrite lookup_insert. by case_decide.
Qed.

Lemma lockerOf_setRef n a b r : lockerOf (setRef n a r) b = lockerOf n b.
Proof.
  unfold lockerOf at 1, setRef. cbn. rewrite lookup_insert. case_decide; [by subst|done].
Qed.

Lemma lockerOf_deleteEntry n param a : lockerOf (deleteEntry n param) a = lockerOf n a.
Proof. done. Qed.

Lemma lockerOf_unlockRef param a n b : lockerOf (unlockRef param a n) b = lockerOf n b.
Proof.
  unfold unlockRef. cbv zeta.
  destruct (refOf n a =? 0); destruct (negb _); destruct (refOf _ a =? 0);
    rewrite ?lockerOf_deleteEntry, ?lockerOf_setRef; done.
Qed.

(** The lockers answer as they are held. *)
Lemma release_held (readLock : bool) m :
  (if readLock then RWLockerSync.RUnlock m else RWLockerSync.Unlock m)
  = if held readLock m
    then Some (if readLock
               then {| RWLockerSync.writer := RWLockerSync.writer m;
                       RWLockerSync.readers := Nat.pred (RWLockerSync.readers m) |}
               else {| RWLockerSync.writer := false;
                       RWLockerSync.readers := RWLockerSync.readers m |})
    else None.
Proof.
  unfold held, RWLockerSync.RUnlock, RWLockerSync.Unlock. by destruct readLock.
Qed.

Lemma wf_enter volume path readLock n a s :
  wf s ->
  refCount (nsMap s) (volume, path) < uint64_mod - 1 ->
  lockEnter volume path (nsMap s) = (n, a) ->
  wf {| nsMap := n; inflight := ((volume, path), a, readLock) :: inflight s |}.
Proof.
  intros Hwf Hmax. unfold lockEnter, refCount in *.
  destruct (lockMap (nsMap s) !! (volume, path)) as [a0|] eqn:Hfound.
  - intros [= <- <-].
    pose proof (wf_positive _ Hwf _ _ Hfound) as Hpos.
    rewrite wrapU64_id by lia.
    split; cbn [nsMap inflight].
    + intros param b Hb. rewrite refOf_setRef. case_decide; [lia|].
      by eapply wf_positive.
    + intros b nsLk. cbn. rewrite lookup_insert. case_decide.
      * intros [= <-]. cbn. lia.
      * by eapply wf_range.
    + cbn. by eapply wf_inj.
    + intros param param' b r [[= -> -> ->] | Hin]%elem_of_cons Hb; cbn in Hb.
      * by eapply wf_inj.
      * by eapply wf_inflight.
    + intros param b r [[= -> -> ->] | Hin]%elem_of_cons; cbn.
      * rewrite lookup_insert_eq. eauto.
      * rewrite lookup_insert. case_decide; [eauto|]. by eapply wf_alloc.
  - intros [= <- <-].
    pose proof (newAddr_fresh (nsMap s)) as Hfresh.
    set (a := newAddr (nsMap s)) in *.
    assert (forall param, lockMap (nsMap s) !! param <> Some a) as Hnot.
    { intros param Hp. apply (wf_positive _ Hwf) in Hp.
      apply refOf_store in Hp as [? Hp]. congruence. }
    assert (forall param r, (param, a, r) ∉ inflight s) as Hnin.
    { intros param r Hp. apply (wf_alloc _ Hwf) in Hp as [? Hp]. congruence. }
    split; cbn [nsMap inflight].
    + intros param b. cbn [lockMap setRef]. rewrite lookup_insert. case_decide.
      * intros [= <-]. unfold refOf. cbn. rewrite !lookup_insert_eq. cbn.
        by rewrite wrapU64_id.
      * intros Hb. assert (b <> a) by (intros ->; destruct (Hnot param Hb)).
        pose proof (wf_positive _ Hwf _ _ Hb) as Hpos.
        unfold refOf in *. cbn. by rewrite !lookup_insert_ne.
    + intros b nsLk. cbn. rewrite lookup_insert. case_decide.
      * intros [= <-]. cbn. apply wrapU64_range.
      * rewrite lookup_insert_ne by done. by eapply wf_range.
    + intros param param' b. cbn. rewrite !lookup_insert.
      destruct (decide ((volume, path) = param)) as [<-|],
               (decide ((volume, path) = param')) as [<-|]; try done.
      * intros [= <-] Hb. destruct (Hnot _ Hb).
      * intros Hb [= <-]. destruct (Hnot _ Hb).
      * by eapply wf_inj.
    + intros param param' b r [[= -> -> ->] | Hin]%elem_of_cons; cbn;
        rewrite lookup_insert; case_decide; try done.
      * intros Hb. destruct (Hnot _ Hb).
      * intros [= <-]. destruct (Hnin _ _ Hin).
      * by eapply wf_inflight.
    + intros param b r [[= -> -> ->] | Hin]%elem_of_cons; cbn.
      * rewrite lookup_insert_eq. eauto.
      * rewrite lookup_insert. case_decide; [eauto|].
        rewrite lookup_insert_ne by done. by eapply wf_alloc.
Qed.

(** A call that leaves the calls in flight keeps the invariant. *)
Lemma wf_leave x l1 l2 n :
  wf {| nsMap := n; inflight := l1 ++ x :: l2 |} ->
  wf {| nsMap := n; inflight := l1 ++ l2 |}.
Proof.
  intros Hwf. split; cbn [nsMap inflight].
  - apply (wf_positive _ Hwf).
  - apply (wf_range _ Hwf).
  - apply (wf_inj _ Hwf).
  - intros p p' b r Hin. apply (wf_inflight _ Hwf _ _ _ r). cbn.
    rewrite elem_of_app, elem_of_cons. rewrite elem_of_app in Hin. tauto.
  - intros p b r Hin. apply (wf_alloc _ Hwf p _ r). cbn.
    rewrite elem_of_app, elem_of_cons. rewrite elem_of_app in Hin. tauto.
Qed.

(** What the locker of an object does leaves the invariant alone. *)
Lemma wf_setLocker s a m :
  wf s -> wf {| nsMap := setLocker (nsMap s) a m; inflight := inflight s |}.
Proof.
  intros Hwf. split; cbn [nsMap inflight].
  - intros p b Hb. rewrite refOf_setLocker. by eapply (wf_positive _ Hwf).
  - intros b nsLk. cbn. rewrite lookup_insert. case_decide.
    + intros [= <-]. cbn. by apply refOf_range.
    + apply (wf_range _ Hwf).
  - apply (wf_inj _ Hwf).
  - apply (wf_inflight _ Hwf).
  - intros p b r Hin. cbn. rewrite lookup_insert. case_decide; [eauto|].
    by eapply (wf_alloc _ Hwf).
Qed.

Lemma wf_locked param a readLock l1 l2 n m :
  wf {| nsMap := n; inflight := l1 ++ (param, a, readLock) :: l2 |} ->
  wf {| nsMap := setLocker n a m; inflight := l1 ++ l2 |}.
Proof.
  intros Hwf%wf_leave. by apply (wf_setLocker _ a m) in Hwf.
Qed.

(** Removing entries and changing the counter of one object keeps the
    invariant, when the object is the one of the entry at [param] keeps
    a positive counter or the entry goes. *)
Lemma wf_update s n' l' a m r param :
  wf s ->
  0 <= r < uint64_mod ->
  store n' = <[a := {| locker := m; ref := r |}]> (store (nsMap s)) ->
  (lockMap n' = lockMap (nsMap s) /\ 0 < r \/
   lockMap n' = delete param (lockMap (nsMap s)) /\
   forall param', lockMap (nsMap s) !! param' = Some a -> param' = param) ->
  (forall x, x ∈ l' -> x ∈ inflight s) ->
  wf {| nsMap := n'; inflight := l' |}.
Proof.
  intros Hwf Hr Hstore Hmap Hl.
  assert (forall p b, lockMap n' !! p = Some b -> lockMap (nsMap s) !! p = Some b) as Hsub.
  { intros p b. destruct Hmap as [[-> _] | [-> _]]; [done|].
    rewrite lookup_delete. case_decide; done. }
  split; cbn [nsMap inflight].
  - intros p b Hb. unfold refOf. rewrite Hstore, lookup_insert. case_decide as Hab.
    + subst b. cbn. destruct Hmap as [[_ Hpos] | [Hdel Hone]]; [done|].
      apply Hsub in Hb as Hb'. rewrite Hdel, (Hone _ Hb') in Hb.
      by rewrite lookup_delete_eq in Hb.
    + apply (wf_positive _ Hwf p). by apply Hsub.
  - intros b nsLk. rewrite Hstore, lookup_insert. case_decide.
    + by intros [= <-].
    + apply (wf_range _ Hwf).
  - intros p p' b Hp Hp'. eapply (wf_inj _ Hwf); eauto.
  - intros p p' b r' Hin Hp'. eapply (wf_inflight _ Hwf); eauto.
  - intros p b r' Hin. rewrite Hstore, lookup_insert. case_decide; [eauto|].
    eapply (wf_alloc _ Hwf); eauto.
Qed.

Lemma wf_timed_out volume path a readLock l1 l2 n :
  wf {| nsMap := n; inflight := l1 ++ ((volume, path), a, readLock) :: l2 |} ->
  wf {| nsMap := lockTimedOut volume path a n; inflight := l1 ++ l2 |}.
Proof.
  intros Hwf. unfold lockTimedOut. rewrite refOf_setRef, decide_True by done.
  assert (((volume, path), a, readLock) ∈ l1 ++ ((volume, path), a, readLock) :: l2) as Hin.
  { rewrite elem_of_app, elem_of_cons. tauto. }
  assert (forall param', lockMap n !! param' = Some a -> param' = (volume, path)) as Hone.
  { intros param' Hp. symmetry. by eapply (wf_inflight _ Hwf). }
  assert (forall x, x ∈ l1 ++ l2 -> x ∈ l1 ++ ((volume, path), a, readLock) :: l2) as Hsub.
  { intros x. rewrite !elem_of_app, elem_of_cons. tauto. }
  pose proof (wrapU64_range (refOf n a - 1)) as Hr.
  destruct (wrapU64 (refOf n a - 1) =? 0) eqn:E.
  - eapply (wf_update _ _ _ a _ _ (volume, path) Hwf Hr); [done| |done].
    right. done.
  - apply Z.eqb_neq in E.
    eapply (wf_update _ _ _ a _ _ (volume, path) Hwf Hr); [done| |done].
    left. split; [done|lia].
Qed.

Lemma refOf_logged n a l :
  refOf {| isDistXL := isDistXL n; store := store n; lockMap := lockMap n; logged := l |} a
  = refOf n a.
Proof. done. Qed.

Lemma wf_unlockRef volume path a s :
  wf s -> lockMap (nsMap s) !! (volume, path) = Some a ->
  wf {| nsMap := unlockRef (volume, path) a (nsMap s); inflight := inflight s |}.
Proof.
  intros Hwf Hfound. unfold unlockRef.
  pose proof (wf_positive _ Hwf _ _ Hfound) as Hpos.
  pose proof (refOf_range _ a Hwf) as Hrange.
  destruct (refOf (nsMap s) a =? 0) eqn:E0; [lia|].
  rewrite E0. cbn [negb]. rewrite refOf_setRef, decide_True by done.
  rewrite wrapU64_id by lia.
  assert (forall param', lockMap (nsMap s) !! param' = Some a -> param' = (volume, path))
    as Hone.
  { intros param' Hp. by eapply (wf_inj _ Hwf). }
  destruct (refOf (nsMap s) a - 1 =? 0) eqn:E.
  - eapply (wf_update _ _ _ a _ (refOf (nsMap s) a - 1) (volume, path) Hwf);
      [lia|done| |done].
    right. done.
  - eapply (wf_update _ _ _ a _ (refOf (nsMap s) a - 1) (volume, path) Hwf);
      [lia|done| |done].
    left. split; [done|lia].
Qed.

Lemma wf_unlock volume path opsID readLock s n' :
  wf s -> unlock volume path opsID readLock (nsMap s) = Some n' ->
  wf {| nsMap := n'; inflight := inflight s |}.
Proof.
  intros Hwf. unfold unlock.
  destruct (lockMap (nsMap s) !! (volume, path)) as [a|] eqn:Hfound.
  2:{ intros [= <-]. by destruct s. }
  destruct (if readLock then _ else _) as [m|]; [|done]. cbn [mbind option_bind].
  intros [= <-].
  by apply (wf_unlockRef volume path a _ (wf_setLocker s a m Hwf)).
Qed.

Lemma wf_force_unlock volume path s :
  wf s ->
  wf {| nsMap := ForceUnlock volume path (nsMap s); inflight := inflight s |}.
Proof.
  intros Hwf. unfold ForceUnlock.
  destruct (lockMap (nsMap s) !! (volume, path)) as [a|] eqn:Hfound.
  2:{ by destruct s. }
  assert (forall p b, delete (volume, path) (lockMap (nsMap s)) !! p = Some b ->
                      lockMap (nsMap s) !! p = Some b) as Hsub.
  { intros p b. rewrite lookup_delete. by case_decide. }
  split; cbn [nsMap inflight deleteEntry lockMap store].
  - intros p b Hb. rewrite refOf_deleteEntry. eapply (wf_positive _ Hwf); eauto.
  - apply (wf_range _ Hwf).
  - intros p p' b Hp Hp'. eapply (wf_inj _ Hwf); eauto.
  - intros p p' b r Hin Hp'. eapply (wf_inflight _ Hwf); eauto.
  - apply (wf_alloc _ Hwf).
Qed.

Lemma wf_step s s' : wf s -> step s s' -> wf s'.
Proof.
  intros Hwf Hstep. destruct Hstep.
  - by eapply wf_enter.
  - by eapply wf_locked.
  - by eapply wf_timed_out.
  - by eapply wf_unlock.
  - by eapply wf_force_unlock.
Qed.

Lemma wf_reachable isDistXL s : reachable isDistXL s -> wf s.
Proof.
  induction 1 as [|s s' _ IH Hstep]; [apply wf_initial | by eapply wf_step].
Qed.


Lemma refCount_positive s param a :
  wf s -> lockMap (nsMap s) !! param = Some a -> 0 < refCount (nsMap s) param.
Proof.
  intros Hwf Hp. unfold refCount. rewrite Hp. by eapply wf_positive.
Qed.

Lemma lockEnter_first volume path n :
  lockMap n !! (volume, path) = None ->
  lockMap (lockEnter volume path n).1 !! (volume, path) = Some (lockEnter volume path n).2 /\
  refCount (lockEnter volume path n).1 (volume, path) = 1.
Proof.
  intros Hnone. unfold lockEnter, refCount. rewrite Hnone. cbn.
  rewrite lookup_insert_eq. split; [done|].
  unfold refOf. cbn. rewrite !lookup_insert_eq. done.
Qed.

Lemma lockEnter_found volume path s a :
  wf s -> lockMap (nsMap s) !! (volume, path) = Some a ->
  refCount (nsMap s) (volume, path) < uint64_mod - 1 ->
  (lockEnter volume path (nsMap s)).2 = a /\
  lockMap (lockEnter volume path (nsMap s)).1 = lockMap (nsMap s) /\
  refCount (lockEnter volume path (nsMap s)).1 (volume, path)
    = refCount (nsMap s) (volume, path) + 1.
Proof.
  intros Hwf Hfound Hmax. unfold lockEnter, refCount in *. rewrite Hfound in *. cbn.
  rewrite Hfound. pose proof (wf_positive _ Hwf _ _ Hfound) as Hpos.
  rewrite refOf_setRef, decide_True by done. rewrite wrapU64_id by lia. done.
Qed.

Lemma unlockRef_referenced volume path s a :
  wf s -> lockMap (nsMap s) !! (volume, path) = Some a ->
  let n' := unlockRef (volume, path) a (nsMap s) in
  refCount n' (volume, path) = refCount (nsMap s) (volume, path) - 1 /\
  (refCount (nsMap s) (volume, path) = 1 -> lockMap n' !! (volume, path) = None) /\
  (refCount (nsMap s) (volume, path) <> 1 -> lockMap n' = lockMap (nsMap s)).
Proof.
  intros Hwf Hfound n'. subst n'. unfold unlockRef, refCount. rewrite Hfound.
  pose proof (wf_positive _ Hwf _ _ Hfound) as Hpos.
  pose proof (refOf_range _ a Hwf) as Hrange.
  destruct (refOf (nsMap s) a =? 0) eqn:E0; [lia|].
  rewrite E0. cbn [negb]. rewrite refOf_setRef, decide_True by done.
  rewrite wrapU64_id by lia.
  destruct (refOf (nsMap s) a - 1 =? 0) eqn:E.
  - apply Z.eqb_eq in E. cbn. rewrite lookup_delete_eq.
    split; [lia|]. split; [done|intros; lia].
  - apply Z.eqb_neq in E. cbn. rewrite Hfound.
    rewrite refOf_setRef, decide_True by done.
    split; [lia|]. split; [intros; lia|done].
Qed.

(** [unlock] of an entry: it panics when the locker of the entry is
    not held in the mode of the call, and otherwise releases the locker
    and goes on to the counter. *)
Lemma unlock_found volume path opsID (readLock : bool) n a :
  lockMap n !! (volume, path) = Some a ->
  (held readLock (lockerOf n a) = false -> unlock volume path opsID readLock n = None) /\
  (held readLock (lockerOf n a) = true ->
   exists m,
     (if readLock then RWLockerSync.RUnlock (lockerOf n a)
      else RWLockerSync.Unlock (lockerOf n a)) = Some m /\
     unlock volume path opsID readLock n
     = Some (unlockRef (volume, path) a (setLocker n a m))).
Proof.
  intros Hfound. unfold unlock. rewrite Hfound, release_held.
  split; intros ->; [done|]. eexists. split; done.
Qed.

Lemma unlock_referenced volume path opsID (readLock : bool) s a :
  wf s -> lockMap (nsMap s) !! (volume, path) = Some a ->
  (held readLock (lockerOf (nsMap s) a) = false ->
   unlock volume path opsID readLock (nsMap s) = None) /\
  (held readLock (lockerOf (nsMap s) a) = true ->
   exists n',
     unlock volume path opsID readLock (nsMap s) = Some n' /\
     (if readLock then RWLockerSync.RUnlock (lockerOf (nsMap s) a)
      else RWLockerSync.Unlock (lockerOf (nsMap s) a)) = Some (lockerOf n' a) /\
     refCount n' (volume, path) = refCount (nsMap s) (volume, path) - 1 /\
     (refCount (nsMap s) (volume, path) = 1 -> lockMap n' !! (volume, path) = None) /\
     (refCount (nsMap s) (volume, path) <> 1 -> lockMap n' = lockMap (nsMap s))).
Proof.
  intros Hwf Hfound.
  destruct (unlock_found volume path opsID readLock _ _ Hfound) as [Hpanic Hret].
  split; [done|]. intros Hheld. destruct (Hret Hheld) as (m & Hm & ->).
  eexists. split; [done|].
  rewrite lockerOf_unlockRef, lockerOf_setLocker, decide_True by done.
  split; [done|].
  pose proof (unlockRef_referenced volume path _ a (wf_setLocker s a m Hwf) Hfound) as Href.
  cbn [nsMap] in Href. unfold refCount in *. cbn [setLocker lockMap] in Href.
  rewrite Hfound in *. by rewrite refOf_setLocker in Href.
Qed.

Lemma lockTimedOut_spec volume path a n :
  let n' := lockTimedOut volume path a n in
  refOf n' a = wrapU64 (refOf n a - 1) /\
  (refOf n' a = 0 -> lockMap n' = delete (volume, path) (lockMap n)) /\
  (refOf n' a <> 0 -> lockMap n' = lockMap n).
Proof.
  intros n'. subst n'. unfold lockTimedOut.
  rewrite refOf_setRef, decide_True by done.
  destruct (wrapU64 (refOf n a - 1) =? 0) eqn:E.
  - apply Z.eqb_eq in E. rewrite refOf_deleteEntry, refOf_setRef, decide_True by done.
    split; [done|]. split; [done|]. intros Hne. by destruct Hne.
  - apply Z.eqb_neq in E. rewrite refOf_setRef, decide_True by done.
    split; [done|]. split; [|done]. intros Hz. by destruct E.
Qed.

Lemma ForceUnlock_removes volume path n :
  lockMap (ForceUnlock volume path n) !! (volume, path) = None.
Proof.
  unfold ForceUnlock. destruct (lockMap n !! (volume, path)) eqn:E; [|done].
  cbn. apply lookup_delete_eq.
Qed.

(** C3. In every state the namespace lock map reaches by its critical
    sections, in any interleaving in which a lock object is referenced
    fewer than 2^64 - 1 times when a call enters (so that the [uint]
    counter does not wrap): a (volume, path) has an entry in the
    map exactly when its reference count is greater than zero; the
    first acquirer of a (volume, path) without an entry makes the entry,
    with count 1; an acquirer that finds the entry takes the lock object
    of the entry, leaves the entries as they are and adds one to the
    count; an unlock of an entry first releases the locker of the entry,
    which panics when the locker is not held in the mode of the unlock,
    and then decrements the count and removes the entry when the count
    was 1; a timed-out acquire decrements the
    count of the lock object it holds, which is the count it incremented,
    and removes the entry of its (volume, path) if that count is now
    zero; and [ForceUnlock] leaves no entry, whatever the count. *)
Theorem ns_lock_entry_iff_referenced isDistXL s :
  reachable isDistXL s ->
  (forall param, is_Some (lockMap (nsMap s) !! param) <-> 0 < refCount (nsMap s) param) /\
  (forall volume path,
     lockMap (nsMap s) !! (volume, path) = None ->
     lockMap (lockEnter volume path (nsMap s)).1 !! (volume, path)
       = Some (lockEnter volume path (nsMap s)).2 /\
     refCount (lockEnter volume path (nsMap s)).1 (volume, path) = 1) /\
  (forall volume path a,
     lockMap (nsMap s) !! (volume, path) = Some a ->
     refCount (nsMap s) (volume, path) < uint64_mod - 1 ->
     (lockEnter volume path (nsMap s)).2 = a /\
     lockMap (lockEnter volume path (nsMap s)).1 = lockMap (nsMap s) /\
     refCount (lockEnter volume path (nsMap s)).1 (volume, path)
       = refCount (nsMap s) (volume, path) + 1) /\
  (forall volume path opsID (readLock : bool) a,
     lockMap (nsMap s) !! (volume, path) = Some a ->
     (held readLock (lockerOf (nsMap s) a) = false ->
      unlock volume path opsID readLock (nsMap s) = None) /\
     (held readLock (lockerOf (nsMap s) a) = true ->
      exists n',
        unlock volume path opsID readLock (nsMap s) = Some n' /\
        (if readLock then RWLockerSync.RUnlock (lockerOf (nsMap s) a)
         else RWLockerSync.Unlock (lockerOf (nsMap s) a)) = Some (lockerOf n' a) /\
        refCount n' (volume, path) = refCount (nsMap s) (volume, path) - 1 /\
        (refCount (nsMap s) (volume, path) = 1 -> lockMap n' !! (volume, path) = None) /\
        (refCount (nsMap s) (volume, path) <> 1 -> lockMap n' = lockMap (nsMap s)))) /\
  (forall volume path a readLock,
     ((volume, path), a, readLock) ∈ inflight s ->
     let n' := lockTimedOut volume path a (nsMap s) in
     refOf n' a = wrapU64 (refOf (nsMap s) a - 1) /\
     (lockMap (nsMap s) !! (volume, path) = Some a -> refOf n' a = refOf (nsMap s) a - 1) /\
     (refOf n' a = 0 -> lockMap n' = delete (volume, path) (lockMap (nsMap s))) /\
     (refOf n' a <> 0 -> lockMap n' = lockMap (nsMap s))) /\
  (forall volume path,
     lockMap (ForceUnlock volume path (nsMap s)) !! (volume, path) = None).
Proof.
  intros Hwf%wf_reachable. split_and!.
  - intros param. split.
    + intros [a Ha]. by eapply refCount_positive.
    + unfold refCount. destruct (lockMap (nsMap s) !! param); [eauto|lia].
  - intros volume path Hnone. by apply lockEnter_first.
  - intros volume path a Ha Hmax. by apply lockEnter_found.
  - intros volume path opsID readLock a Ha. by apply unlock_referenced.
  - intros volume path a readLock Hin n'. subst n'.
    destruct (lockTimedOut_spec volume path a (nsMap s)) as (Hdec & Hzero & Hpos).
    split; [done|]. split; [|by split].
    intros Ha. rewrite Hdec.
    pose proof (wf_positive _ Hwf _ _ Ha). pose proof (refOf_range _ a Hwf).
    apply wrapU64_id. lia.
  - intros volume path. apply ForceUnlock_removes.
Qed.

(** C8, as the code has it. [unlock] on a (volume, path) whose
    reference count is zero: if there is no entry it changes nothing at
    all, and logs nothing. If there is an entry with count zero, it
    first releases the locker of the entry and panics when the locker
    is not held in the mode of the call; when it is held, [unlock]
    returns, changes no counter (the count does not wrap below zero),
    logs the condition and removes the entry. *)
Theorem unlock_saturates_at_zero volume path opsID (readLock : bool) n :
  refCount n (volume, path) = 0 ->
  (lockMap n !! (volume, path) = None ->
   unlock volume path opsID readLock n = Some n) /\
  (forall a, lockMap n !! (volume, path) = Some a ->
     (held readLock (lockerOf n a) = false ->
      unlock volume path opsID readLock n = None) /\
     (held readLock (lockerOf n a) = true ->
      exists n',
        unlock volume path opsID readLock n = Some n' /\
        (if readLock then RWLockerSync.RUnlock (lockerOf n a)
         else RWLockerSync.Unlock (lockerOf n a)) = Some (lockerOf n' a) /\
        (forall b, refOf n' b = refOf n b) /\
        refCount n' (volume, path) = 0 /\
        logged n' = logged n ++ [errRefZero] /\
        lockMap n' = delete (volume, path) (lockMap n))).
Proof.
  intros Hzero. split.
  { intros Hnone. unfold unlock. by rewrite Hnone. }
  intros a Hfound.
  destruct (unlock_found volume path opsID readLock _ _ Hfound) as [Hpanic Hret].
  split; [done|]. intros Hheld. destruct (Hret Hheld) as (m & Hm & ->).
  eexists. split; [done|].
  rewrite lockerOf_unlockRef, lockerOf_setLocker, decide_True by done.
  split; [done|].
  unfold refCount in Hzero. rewrite Hfound in Hzero.
  assert ((refOf (setLocker n a m) a =? 0) = true) as E.
  { rewrite refOf_setLocker. by apply Z.eqb_eq. }
  unfold unlockRef, refCount. rewrite E. rewrite refOf_logged, E. cbn [negb].
  rewrite refOf_logged, E. cbn [deleteEntry lockMap logged setLocker].
  rewrite lookup_delete_eq. split_and!; try done.
  intros b. apply (refOf_setLocker n a b m).
Qed.

End NSLockFacts.

Section NSLockExamples.

Import NSLock.
Local Open Scope string_scope.
Local Open Scope list_scope.
Local Open Scope Z_scope.

Lemma oneAcquirer_reachable : reachable false oneAcquirer.
Proof.
  eapply reachable_step; [apply reachable_initial|].
  apply (step_enter "bucket" "object" false _ _ (initial false)).
  - vm_compute. reflexivity.
  - apply surjective_pairing.
Qed.

Lemma oneHolder_reachable : reachable false oneHolder.
Proof.
  eapply reachable_step; [apply oneAcquirer_reachable|].
  apply (step_locked ("bucket", "object") _ false [] [] _ _). reflexivity.
Qed.

Lemma ns_lock_entry_iff_referenced_witness :
  (is_Some (lockMap (nsMap oneHolder) !! ("bucket", "object"))
   <-> 0 < refCount (nsMap oneHolder) ("bucket", "object")) /\
  (exists n', unlock "bucket" "object" "op-1" false (nsMap oneHolder) = Some n' /\
     lockMap n' !! ("bucket", "object") = None) /\
  unlock "bucket" "object" "op-1" true (nsMap oneHolder) = None /\
  lockMap (ForceUnlock "bucket" "object" (nsMap oneHolder)) !! ("bucket", "object") = None.
Proof.
  destruct (ns_lock_entry_iff_referenced false oneHolder oneHolder_reachable)
    as (Hiff & _ & _ & Hunlock & _ & Hforce).
  split; [apply Hiff|]. split; [|split; [|apply Hforce]].
  - destruct (Hunlock "bucket" "object" "op-1" false 0%nat eq_refl) as [_ Hret].
    destruct (Hret eq_refl) as (n' & Hn' & _ & _ & Hgone & _).
    exists n'. split; [exact Hn'|]. apply Hgone. reflexivity.
  - destruct (Hunlock "bucket" "object" "op-1" true 0%nat eq_refl) as [Hpanic _].
    apply Hpanic. reflexivity.
Defined.

Lemma unlock_without_entry_logs_nothing :
  lockMap (newNSLock false) !! ("bucket", "object") = None /\
  logged <$> unlock "bucket" "object" "op-1" false (newNSLock false) = Some [] /\
  refCount zeroRefMap ("bucket", "object") = 0 /\
  unlock "bucket" "object" "op-1" false zeroRefMap = None /\
  unlock "bucket" "object" "op-1" true zeroRefMap = None.
Proof. repeat split; reflexivity. Qed.

Lemma unlock_saturates_at_zero_witness :
  (exists n',
     unlock "bucket" "object" "op-1" false zeroRefLockedMap = Some n' /\
     refCount n' ("bucket", "object") = 0 /\
     logged n' = [errRefZero]) /\
  unlock "bucket" "object" "op-1" false zeroRefMap = None /\
  unlock "bucket" "object" "op-1" false (newNSLock false) = Some (newNSLock false).
Proof.
  destruct (unlock_saturates_at_zero "bucket" "object" "op-1" false zeroRefLockedMap)
    as (_ & Hfound); [vm_compute; reflexivity|].
  destruct (Hfound 0%nat eq_refl) as (_ & Hret).
  destruct (Hret eq_refl) as (n' & Hn' & _ & _ & Hz & Hlog & _).
  destruct (unlock_saturates_at_zero "bucket" "object" "op-1" false zeroRefMap)
    as (_ & Hfound0); [vm_compute; reflexivity|].
  destruct (Hfound0 0%nat eq_refl) as (Hpanic & _).
  destruct (unlock_saturates_at_zero "bucket" "object" "op-1" false (newNSLock false))
    as (Hsame & _); [vm_compute; reflexivity|].
  split; [|split].
  - exists n'. split; [exact Hn'|]. split; [exact Hz|exact Hlog].
  - apply Hpanic. reflexivity.
  - apply Hsame. reflexivity.
Defined.

End NSLockExamples.

Section StripeFacts.

Import Heal.
Local Open Scope list_scope.
Local Open Scope Z_scope.

Lemma ceilFrac_spec n d :
  0 < d -> (ceilFrac n d - 1) * d < n <= ceilFrac n d * d.
Proof.
  intros Hd. unfold ceilFrac.
  pose proof (Z.mul_div_le (- n) d Hd).
  pose proof (Z.mul_succ_div_gt (- n) d Hd). nia.
Qed.

Lemma ceilFrac_unique n d c :
  0 < d -> (c - 1) * d < n <= c * d -> c = ceilFrac n d.
Proof.
  intros Hd Hc. pose proof (ceilFrac_spec n d Hd). nia.
Qed.

Lemma ceilFrac_bounds n d : 0 < d -> 0 <= n -> 0 <= ceilFrac n d <= n.
Proof.
  intros Hd Hn. pose proof (ceilFrac_spec n d Hd). nia.
Qed.

Lemma ceilFrac_zero_iff n d : 0 < d -> 0 <= n -> (ceilFrac n d = 0 <-> n = 0).
Proof.
  intros Hd Hn. pose proof (ceilFrac_spec n d Hd). nia.
Qed.

Lemma ceilFrac_mono n m d : 0 < d -> n <= m -> ceilFrac n d <= ceilFrac m d.
Proof.
  intros Hd Hnm. pose proof (ceilFrac_spec n d Hd). pose proof (ceilFrac_spec m d Hd). nia.
Qed.


(** The sizes as numbers: nothing wraps, and the read length is at
    most the size of the file. *)
Lemma stripeSizes_value (N blocksize size : Z) :
  0 < N -> 0 < blocksize -> 0 <= size ->
  blocksize <= int64_max -> size <= int64_max ->
  let c := ceilFrac blocksize N in
  let nb := ceilFrac size blocksize in
  let last := if size mod blocksize =? 0 then c else ceilFrac (size mod blocksize) N in
  stripeSizes N blocksize size
  = Some {| chunksize := c; numBlocks := nb; lastChunkSize := last;
            readLen := c * (nb - 1) + last |} /\
  0 <= last <= c /\ 0 <= c * (nb - 1) + last <= size.
Proof.
  intros HN Hbs Hsz Hbmax Hsmax c nb last. unfold stripeSizes.
  destruct (blocksize =? 0) eqn:E0; [lia|].
  rewrite Z.rem_mod_nonneg by lia.
  pose proof (ceilFrac_spec blocksize N HN) as Hc.
  pose proof (ceilFrac_spec size blocksize Hbs) as Hnb.
  pose proof (ceilFrac_bounds blocksize N HN ltac:(lia)) as Hcb.
  pose proof (ceilFrac_bounds size blocksize Hbs Hsz) as Hnbb.
  pose proof (Z.mod_pos_bound size blocksize Hbs) as Hrem.
  pose proof (Z.div_mod size blocksize ltac:(lia)) as Hdm.
  pose proof (ceilFrac_spec (size mod blocksize) N HN) as Hl.
  pose proof (ceilFrac_bounds (size mod blocksize) N HN ltac:(lia)) as Hlb.
  pose proof (ceilFrac_mono (size mod blocksize) blocksize N HN ltac:(lia)) as Hmono.
  fold c nb in Hc, Hnb, Hcb, Hnbb, Hmono |- *.
  set (r := size mod blocksize) in *.
  assert ((if negb (r =? 0) then ceilFrac r N else c) = last) as ->.
  { unfold last. by destruct (r =? 0). }
  assert (0 <= last <= c) as Hlast.
  { unfold last. destruct (r =? 0); lia. }
  assert (r <> 0 -> nb = size / blocksize + 1) as Hnb_short.
  { intros Hr. symmetry in Hdm. nia. }
  assert (r = 0 -> nb = size / blocksize) as Hnb_full.
  { intros Hr. nia. }
  assert (r <> 0 -> last <= r) as Hlast_r.
  { intros Hr. unfold last. destruct (r =? 0) eqn:E; [lia|]. lia. }
  assert (in_int64 (nb - 1)) as Hw1.
  { unfold in_int64, int64_min, int64_max in *. lia. }
  assert (- blocksize <= c * (nb - 1) /\ c * (nb - 1) + last <= size) as [Hlo Hhi].
  { assert (0 <= size / blocksize) as Hq by (apply Z.div_pos; lia).
    pose proof (Z.mul_le_mono_nonneg_r c blocksize (size / blocksize) Hq ltac:(lia)) as Hcq.
    destruct (decide (r = 0)) as [Hr|Hr].
    - rewrite (Hnb_full Hr).
      destruct (decide (size / blocksize = 0)) as [Hz|Hz].
      + rewrite Hz. lia.
      + assert (c * (size / blocksize - 1) + last <= c * (size / blocksize)) by lia.
        assert (0 <= c * (size / blocksize - 1)) by nia. lia.
    - rewrite (Hnb_short Hr). specialize (Hlast_r Hr).
      replace (size / blocksize + 1 - 1) with (size / blocksize) by lia.
      assert (0 <= c * (size / blocksize)) by nia. lia. }
  assert (0 <= c * (nb - 1) + last) as Hnn.
  { destruct (decide (nb = 0)) as [Hz|Hz]; [|nia].
    assert (size = 0) by nia. subst size.
    unfold last. destruct (r =? 0) eqn:E; [|by apply Z.eqb_neq in E].
    replace nb with 0 by done. lia. }
  rewrite (wrap64_id (nb - 1)) by done.
  rewrite (wrap64_id (c * (nb - 1)))
    by (unfold in_int64, int64_min, int64_max in *; lia).
  rewrite (wrap64_id (c * (nb - 1) + last))
    by (unfold in_int64, int64_min, int64_max in *; lia).
  done.
Qed.


End StripeFacts.

Section WriteLoop.

Import Heal.
Local Open Scope list_scope.
Local Open Scope nat_scope.

Context `{Coder}.

Lemma writeAt_spec n blocks w ok i :
  wfState n w -> length blocks = n -> i < n ->
  exists w' blk,
    blocks !! i = Some blk /\
    writeAt blocks i (w, ok) = Some (w', ok || cellWrites (cellOf w i)) /\
    wfState n w' /\
    cellOf w' i = stepCell blk (cellOf w i) /\
    forall j, j <> i -> cellOf w' j = cellOf w j.
Proof.
  intros Hwf Hlen Hi.
  destruct (lookup_lt_is_Some_2 blocks i ltac:(lia)) as [blk Hblk].
  destruct (lookup_lt_is_Some_2 (staleDisks w) i
              ltac:(by rewrite (wf_stale _ _ Hwf))) as [od Hod].
  destruct (lookup_lt_is_Some_2 (writeErrors w) i
              ltac:(by rewrite (wf_errors _ _ Hwf))) as [we Hwe].
  unfold writeAt, cellOf, cellWrites, stepCell. rewrite Hod. cbn.
  destruct od as [d|].
  2:{ exists w, blk. rewrite orb_false_r. split_and!; try done. by rewrite Hod. }
  rewrite Hwe. cbn.
  destruct (wf_hasher _ _ Hwf i d Hod) as [h Hh]. rewrite Hh.
  destruct we as [e|].
  { exists w, blk. rewrite orb_false_r. split_and!; try done. by rewrite Hod, Hwe, Hh. }
  rewrite Hblk. cbn. unfold AppendFile.
  destruct (fault d (calls d)) as [e|] eqn:Hf; cbn.
  - eexists _, blk. rewrite orb_false_r. split; [done|]. split; [done|].
    split; [|split].
    + split; cbn; rewrite ?length_insert; try apply Hwf.
      intros j dj. rewrite list_lookup_insert_Some. intros [(-> & _ & _) | [? Hj]]; [eauto|].
      by eapply wf_hasher.
    + cbn. rewrite !list_lookup_insert_eq
        by (rewrite ?(wf_stale _ _ Hwf), ?(wf_errors _ _ Hwf); done).
      by rewrite Hh.
    + intros j Hj. cbn. by rewrite !list_lookup_insert_ne.
  - eexists _, blk. rewrite orb_true_r. split; [done|]. split; [done|].
    split; [|split].
    + split; cbn; rewrite ?length_insert; try apply Hwf.
      intros j dj. rewrite list_lookup_insert_Some. intros [(-> & _ & _) | [? Hj]].
      * rewrite list_lookup_insert_eq by (by rewrite (wf_hashers _ _ Hwf)). eauto.
      * rewrite list_lookup_insert_ne by done. by eapply wf_hasher.
    + cbn. rewrite !list_lookup_insert_eq
        by (rewrite ?(wf_stale _ _ Hwf), ?(wf_errors _ _ Hwf), ?(wf_hashers _ _ Hwf); done).
      done.
    + intros j Hj. cbn. by rewrite !list_lookup_insert_ne.
Qed.

Lemma existsb_ext_elem {A} (f g : A -> bool) l :
  (forall x, x ∈ l -> f x = g x) -> existsb f l = existsb g l.
Proof.
  induction l as [|x l IH]; intros Hfg; [done|]. cbn.
  rewrite Hfg by apply list_elem_of_here.
  rewrite IH; [done|]. intros y Hy. apply Hfg. by apply list_elem_of_further.
Qed.

Lemma fold_writeAt n blocks (idxs : list nat) w ok :
  wfState n w -> length blocks = n -> NoDup idxs -> (forall i, i ∈ idxs -> i < n) ->
  exists w',
    foldl (fun acc i => acc ≫= writeAt blocks i) (Some (w, ok)) idxs
      = Some (w', ok || existsb (fun i => cellWrites (cellOf w i)) idxs) /\
    wfState n w' /\
    (forall j, j ∉ idxs -> cellOf w' j = cellOf w j) /\
    (forall j blk, j ∈ idxs -> blocks !! j = Some blk -> cellOf w' j = stepCell blk (cellOf w j)).
Proof.
  intros Hwf Hlen. revert w ok Hwf.
  induction idxs as [|i rest IH]; intros w ok Hwf Hnd Hlt.
  { exists w. cbn. rewrite orb_false_r. split_and!; try done.
    intros j blk Hj. inversion Hj. }
  apply NoDup_cons in Hnd as [Hi Hnd].
  destruct (writeAt_spec n blocks w ok i Hwf Hlen) as (w1 & blk & Hblk & Hw & Hwf1 & Hcell & Hother).
  { apply Hlt, list_elem_of_here. }
  destruct (IH w1 (ok || cellWrites (cellOf w i)) Hwf1 Hnd) as (w' & Hfold & Hwf' & Hout & Hin).
  { intros j Hj. apply Hlt. by apply list_elem_of_further. }
  exists w'. cbn [foldl mbind option_bind]. rewrite Hw, Hfold.
  split_and!.
  - cbn [existsb]. rewrite orb_assoc. do 2 f_equal.
    rewrite (existsb_ext_elem _ (fun i => cellWrites (cellOf w i))); [done|].
    intros j Hj. rewrite Hother; [done|]. by intros ->.
  - done.
  - intros j Hj. apply not_elem_of_cons in Hj as [Hji Hj].
    rewrite Hout by done. by apply Hother.
  - intros j blk' [-> | Hj]%elem_of_cons Hb.
    + rewrite Hout by done. rewrite Hcell. congruence.
    + rewrite (Hin j blk') by done. rewrite Hother; [done|]. by intros ->.
Qed.

Lemma writeBlock_spec n blocks w :
  wfState n w -> length blocks = n ->
  exists w',
    writeBlock blocks w = Some (w', existsb (fun i => cellWrites (cellOf w i)) (seq 0 n)) /\
    wfState n w' /\
    forall j blk, blocks !! j = Some blk -> cellOf w' j = stepCell blk (cellOf w j).
Proof.
  intros Hwf Hlen. unfold writeBlock. rewrite (wf_stale _ _ Hwf).
  destruct (fold_writeAt n blocks (seq 0 n) w false Hwf Hlen) as (w' & Hfold & Hwf' & _ & Hin).
  { apply NoDup_seq. }
  { intros i Hi%elem_of_seq. lia. }
  exists w'. split_and!; [done|done|].
  intros j blk Hb. apply Hin; [|done].
  apply elem_of_seq. apply lookup_lt_Some in Hb. lia.
Qed.

Lemma cellWrites_dead n w i :
  wfState n w -> cellWrites (cellOf w i) = negb (cellDead (cellOf w i) 1).
Proof.
  intros Hwf. unfold cellWrites, cellDead, cellOf, failsWithin.
  destruct (staleDisks w !! i) as [[d|]|] eqn:Hd; try done.
  destruct (wf_hasher _ _ Hwf i d Hd) as [h ->].
  destruct (writeErrors w !! i) as [[e|]|]; try done.
  cbn. by destruct (fault d (calls d)).
Qed.

Lemma cellDead_step n w i blk k :
  wfState n w ->
  cellDead (stepCell blk (cellOf w i)) k = cellDead (cellOf w i) (S k).
Proof.
  intros Hwf. unfold cellDead, stepCell, cellOf, failsWithin, AppendFile.
  destruct (staleDisks w !! i) as [[d|]|] eqn:Hd; try done.
  destruct (wf_hasher _ _ Hwf i d Hd) as [h ->].
  destruct (writeErrors w !! i) as [[e|]|]; try done.
  cbn. by destruct (fault d (calls d)).
Qed.

Lemma writes_iff_not_all_dead n w :
  wfState n w ->
  existsb (fun i => cellWrites (cellOf w i)) (seq 0 n) = negb (allDead n w 1).
Proof.
  intros Hwf. unfold allDead.
  induction (seq 0 n) as [|i l IH]; [done|]. cbn [existsb forallb].
  rewrite IH, (cellWrites_dead n) by done.
  by destruct (cellDead (cellOf w i) 1), (forallb _ l).
Qed.

Lemma allDead_step n w w' blocks k :
  wfState n w -> length blocks = n ->
  (forall j blk, blocks !! j = Some blk -> cellOf w' j = stepCell blk (cellOf w j)) ->
  allDead n w' k = allDead n w (S k).
Proof.
  intros Hwf Hlen Hstep. unfold allDead.
  assert (forall i, i ∈ seq 0 n -> i < n) as Hlt.
  { intros i Hi%elem_of_seq. lia. }
  induction (seq 0 n) as [|i l IH]; [done|]. cbn [forallb].
  destruct (lookup_lt_is_Some_2 blocks i) as [blk Hblk].
  { rewrite Hlen. apply Hlt, list_elem_of_here. }
  rewrite (Hstep i blk Hblk), (cellDead_step n) by done.
  rewrite IH; [done|]. intros j Hj. apply Hlt. by apply list_elem_of_further.
Qed.

Lemma cellAfter_zero n w i : wfState n w -> cellAfter 0 (cellOf w i) (cellOf w i).
Proof.
  intros Hwf. unfold cellAfter, cellOf.
  destruct (staleDisks w !! i) as [[d|]|] eqn:Hd; try done.
  destruct (wf_hasher _ _ Hwf i d Hd) as [h ->].
  destruct (writeErrors w !! i) as [[e|]|]; try done.
  cbn. exists d, []. by rewrite !app_nil_r.
Qed.

Lemma cellAfter_step n w i blk k c' :
  wfState n w ->
  cellAfter k (stepCell blk (cellOf w i)) c' -> cellAfter (S k) (cellOf w i) c'.
Proof.
  intros Hwf. unfold cellAfter, stepCell, cellOf, failsWithin, AppendFile.
  destruct (staleDisks w !! i) as [[d|]|] eqn:Hd; try done.
  destruct (wf_hasher _ _ Hwf i d Hd) as [h ->].
  destruct (writeErrors w !! i) as [[e|]|]; try done.
  cbn. destruct (fault d (calls d)) as [e|] eqn:Hf; cbn.
  - intros ->. eauto.
  - destruct (failsFrom (fault d) (S (calls d)) k); [done|].
    intros (d' & app & -> & Hc). exists d', (blk ++ app).
    by rewrite Hc, !app_assoc.
Qed.

Lemma slice_ok (b : bytes) lo hi :
  (0 <= lo)%Z -> (lo <= hi)%Z -> (hi <= Z.of_nat (length b))%Z -> is_Some (slice b lo hi).
Proof.
  intros H1 H2 H3. unfold slice.
  destruct (0 <=? lo)%Z eqn:E1; [|lia].
  destruct (lo <=? hi)%Z eqn:E2; [|lia].
  destruct (hi <=? Z.of_nat (length b))%Z eqn:E3; [|lia]. cbn. eauto.
Qed.

Lemma blocksAt_ok n rl buffers off csize :
  buffersOK n rl buffers ->
  (0 <= off)%Z -> (0 <= csize)%Z -> (off + csize <= rl)%Z -> (rl <= int64_max)%Z ->
  exists blocks, blocksAt n buffers off csize = Some blocks /\ length blocks = n.
Proof.
  intros [Hlen Hbuf] Hoff Hcs Hrl Hmax. unfold blocksAt.
  match goal with |- context [mapM ?f ?l] => destruct (mapM_is_Some_2 f l) as [blocks Hb] end.
  - apply Forall_forall. intros i Hi%elem_of_seq. cbn.
    destruct (lookup_lt_is_Some_2 buffers i ltac:(lia)) as [buf Hi'].
    rewrite Hi'. cbn.
    destruct (Nat.eqb (length buf) 0) eqn:E; [eauto|].
    apply Nat.eqb_neq in E.
    rewrite Forall_forall in Hbuf.
    destruct (Hbuf buf) as [|Hge]; [by eapply list_elem_of_lookup_2|done|].
    rewrite wrap64_id by (unfold in_int64, int64_min, int64_max in *; lia).
    apply slice_ok; lia.
  - exists blocks. split; [done|]. apply length_mapM in Hb.
    by rewrite length_seq in Hb.
Qed.

Lemma if_some {A} (c : bool) (x y : A) :
  (if c then Some x else Some y) = Some (if c then x else y).
Proof. by destruct c. Qed.

Lemma allocBlocks_ok n rl buffers len :
  buffersOK n rl buffers -> (0 <= len)%Z ->
  exists blocks, allocBlocks n buffers len = Some blocks.
Proof.
  intros [Hlen Hbuf] Hl. unfold allocBlocks.
  match goal with |- context [mapM ?f ?l] => apply (mapM_is_Some_2 f l) end.
  apply Forall_forall. intros i Hi%elem_of_seq. cbn.
  destruct (lookup_lt_is_Some_2 buffers i ltac:(lia)) as [buf Hi'].
  rewrite Hi'. cbn. unfold make.
  destruct (Nat.eqb (length buf) 0); [|eauto].
  destruct (len <? 0)%Z eqn:E; [lia|eauto].
Qed.

Lemma allocBlocks_short n buffers len :
  length buffers < n -> allocBlocks n buffers len = None.
Proof.
  intros Hlt. unfold allocBlocks.
  match goal with |- mapM ?f ?l = None =>
    destruct (mapM f l) as [blocks|] eqn:E; [|done] end.
  exfalso. apply mapM_Some_1 in E.
  destruct (Forall2_lookup_l _ _ _ (length buffers) (length buffers) E) as (b & _ & Hb).
  { apply lookup_seq. lia. }
  rewrite lookup_ge_None_2 in Hb by lia. done.
Qed.

Lemma healBlocks_spec (s : ErasureStorage) st buffers k blockNumber buffOffset w :
  let n := length (disks s) in
  wfState n w -> buffersOK n (readLen st) buffers -> decodeOK ->
  (0 <= chunksize st)%Z -> (0 <= lastChunkSize st)%Z ->
  (readLen st = chunksize st * (numBlocks st - 1) + lastChunkSize st)%Z ->
  (readLen st <= int64_max)%Z -> (numBlocks st <= int64_max)%Z ->
  (0 <= blockNumber)%Z -> (blockNumber + Z.of_nat k = numBlocks st)%Z ->
  (0 <= buffOffset)%Z -> (k <> 0%nat -> buffOffset = chunksize st * blockNumber)%Z ->
  exists w' oe,
    healBlocks s st buffers k blockNumber buffOffset w = Some (w', oe) /\
    wfState n w' /\
    (is_Some oe <-> exists j, j < k /\ allDead n w (S j) = true) /\
    (oe = None -> forall i, cellAfter k (cellOf w i) (cellOf w' i)).
Proof.
  intros n Hwf Hbuf Hdec Hc Hl Hrl Hmax Hnmax.
  revert blockNumber buffOffset w Hwf.
  induction k as [|k IH]; intros b off w Hwf Hb Hk Hoff0 Hoff.
  { exists w, None. cbn. split_and!; [done|done| |].
    - split; [by intros [? ?]|]. intros (j & ? & _). lia.
    - intros _ i. by eapply cellAfter_zero. }
  cbn [healBlocks].
  assert (in_int64 (numBlocks st - 1)) as Hnb1.
  { unfold in_int64, int64_min, int64_max in *. lia. }
  assert (0 <= csizeAt st b /\ off + csizeAt st b <= readLen st
          /\ (k <> 0%nat -> off + csizeAt st b = chunksize st * (b + 1)))%Z as (Hcs & Hsum & Hnext).
  { specialize (Hoff ltac:(done)). unfold csizeAt. rewrite wrap64_id by done.
    destruct (b =? numBlocks st - 1)%Z eqn:E.
    - apply Z.eqb_eq in E. split; [done|]. split; [subst; lia|]. lia.
    - apply Z.eqb_neq in E. split; [done|]. split; [nia|]. lia. }
  destruct (blocksAt_ok n (readLen st) buffers off (csizeAt st b))
    as (blocks & Hblocks & Hblen); try done.
  destruct (allocBlocks_ok n (readLen st) buffers (lastChunkSize st) Hbuf Hl)
    as (scratch & Hscratch).
  fold n. rewrite Hscratch, if_some, Hblocks. cbn [mbind option_bind].
  destruct (Hdec blocks) as (blocks' & Hd & Hdlen). rewrite Hd.
  destruct (writeBlock_spec n blocks' w Hwf) as (w1 & Hw & Hwf1 & Hstep); [lia|].
  rewrite Hw. cbn [mbind option_bind].
  rewrite writes_iff_not_all_dead by done. rewrite negb_involutive.
  destruct (allDead n w 1) eqn:Hdead.
  { eexists w1, (Some _). split_and!; [done|done| |done].
    split; [|eauto]. intros _. exists 0. split; [lia|done]. }
  rewrite (wrap64_id (b + 1)) by (unfold in_int64, int64_min, int64_max in *; lia).
  rewrite (wrap64_id (off + csizeAt st b))
    by (unfold in_int64, int64_min, int64_max in *; lia).
  destruct (IH (b + 1)%Z (off + csizeAt st b)%Z w1 Hwf1) as (w' & oe & Hrun & Hwf' & Herr & Hok);
    [lia|lia|lia|done|].
  exists w', oe. rewrite Hrun. split_and!; [done|done| |].
  - rewrite Herr. split.
    + intros (j & Hj & Hdj). exists (S j). split; [lia|].
      by rewrite <- (allDead_step n w w1 blocks') by (done || lia).
    + intros (j & Hj & Hdj). destruct j as [|j]; [congruence|].
      exists j. split; [lia|].
      by rewrite (allDead_step n w w1 blocks') by (done || lia).
  - intros Hnone i. destruct (decide (i < n)) as [Hi|Hi].
    + destruct (lookup_lt_is_Some_2 blocks' i ltac:(lia)) as [blk Hblk].
      apply (cellAfter_step n _ _ blk); [done|].
      rewrite <- (Hstep i blk Hblk). by apply Hok.
    + specialize (Hok Hnone i).
      assert (cellOf w1 i = cellOf w i) as Heq.
      { unfold cellOf. rewrite !lookup_ge_None_2; [done|..];
          rewrite ?(wf_stale _ _ Hwf), ?(wf_errors _ _ Hwf), ?(wf_hashers _ _ Hwf),
            ?(wf_stale _ _ Hwf1), ?(wf_errors _ _ Hwf1), ?(wf_hashers _ _ Hwf1); lia. }
      rewrite Heq in Hok. revert Hok. unfold cellAfter, cellOf.
      rewrite !(lookup_ge_None_2 (staleDisks w)) by (rewrite (wf_stale _ _ Hwf); lia).
      done.
Qed.

Lemma healBlocks_decode_error (s : ErasureStorage) st buffers k blockNumber buffOffset w
    j blocks e :
  let n := length (disks s) in
  wfState n w -> buffersOK n (readLen st) buffers ->
  (0 <= chunksize st)%Z -> (0 <= lastChunkSize st)%Z ->
  (readLen st = chunksize st * (numBlocks st - 1) + lastChunkSize st)%Z ->
  (readLen st <= int64_max)%Z -> (numBlocks st <= int64_max)%Z ->
  (0 <= blockNumber)%Z -> (blockNumber + Z.of_nat k = numBlocks st)%Z ->
  (buffOffset = chunksize st * blockNumber)%Z ->
  j < k ->
  (forall b, b < j -> exists blocks0 blocks',
     blocksAt n buffers (chunksize st * (blockNumber + Z.of_nat b))
       (csizeAt st (blockNumber + Z.of_nat b)) = Some blocks0 /\
     ErasureDecodeDataAndParityBlocks blocks0 = inr blocks' /\
     length blocks' = length blocks0) ->
  blocksAt n buffers (chunksize st * (blockNumber + Z.of_nat j))
    (csizeAt st (blockNumber + Z.of_nat j)) = Some blocks ->
  ErasureDecodeDataAndParityBlocks blocks = inl e ->
  (forall b, b < j -> allDead n w (S b) = false) ->
  exists w',
    healBlocks s st buffers k blockNumber buffOffset w = Some (w', Some e) /\ wfState n w'.
Proof.
  intros n Hwf Hbuf Hc Hl Hrl Hmax Hnmax.
  revert blockNumber buffOffset w j Hwf.
  induction k as [|k IH]; intros b off w j Hwf Hb Hk Hoff Hj Hearlier Hblocks Hfail Hdead; [lia|].
  cbn [healBlocks].
  destruct (allocBlocks_ok n (readLen st) buffers (lastChunkSize st) Hbuf Hl)
    as (scratch & Hscratch).
  fold n. rewrite Hscratch, if_some. cbn [mbind option_bind].
  destruct j as [|j].
  { rewrite Z.add_0_r in Hblocks. subst off. rewrite Hblocks. cbn [mbind option_bind].
    rewrite Hfail. eauto. }
  destruct (Hearlier 0 ltac:(lia)) as (blocks0 & blocks' & Hb0 & Hd0 & Hlen0).
  rewrite Z.add_0_r in Hb0. subst off. rewrite Hb0. cbn [mbind option_bind]. rewrite Hd0.
  assert (length blocks0 = n) as Hblen.
  { unfold blocksAt in Hb0. apply length_mapM in Hb0. by rewrite length_seq in Hb0. }
  destruct (writeBlock_spec n blocks' w Hwf) as (w1 & Hw & Hwf1 & Hstep); [lia|].
  rewrite Hw. cbn [mbind option_bind].
  rewrite writes_iff_not_all_dead by done. rewrite negb_involutive.
  rewrite (Hdead 0) by lia.
  assert (in_int64 (numBlocks st - 1)) as Hnb1.
  { unfold in_int64, int64_min, int64_max in *. lia. }
  assert (csizeAt st b = chunksize st) as Hcs.
  { unfold csizeAt. rewrite wrap64_id by done.
    destruct (b =? numBlocks st - 1)%Z eqn:E; [lia|done]. }
  rewrite Hcs.
  assert (chunksize st * (b + 1) <= readLen st)%Z as Hle by nia.
  rewrite (wrap64_id (b + 1)) by (unfold in_int64, int64_min, int64_max in *; lia).
  rewrite (wrap64_id (chunksize st * b + chunksize st))
    by (unfold in_int64, int64_min, int64_max in *; nia).
  apply (IH (b + 1)%Z _ w1 j); [done|lia|lia|lia|lia| | |done|].
  - intros b' Hb'. destruct (Hearlier (S b') ltac:(lia)) as (bl & bl' & ? & ? & ?).
    exists bl, bl'. replace (b + 1 + Z.of_nat b')%Z with (b + Z.of_nat (S b'))%Z by lia. done.
  - by replace (b + 1 + Z.of_nat j)%Z with (b + Z.of_nat (S j))%Z by lia.
  - intros b' Hb'. rewrite (allDead_step n w w1 blocks') by (done || lia).
    apply Hdead. lia.
Qed.

Lemma failsFrom_spec f c k :
  failsFrom f c k = true <-> exists j, j < k /\ f (c + j) <> None.
Proof.
  revert c. induction k as [|k IH]; intros c; cbn.
  { split; [done|]. intros (j & ? & _). lia. }
  destruct (f c) as [e|] eqn:Hf.
  - split; [|done]. intros _. exists 0. rewrite Nat.add_0_r, Hf. split; [lia|done].
  - rewrite IH. split.
    + intros (j & Hj & Hne). exists (S j). split; [lia|].
      by replace (c + S j) with (S c + j) by lia.
    + intros (j & Hj & Hne). destruct j as [|j].
      * rewrite Nat.add_0_r in Hne. congruence.
      * exists j. split; [lia|]. by replace (S c + j) with (c + S j) by lia.
Qed.

Lemma failsWithin_accumulated d b :
  failsWithin d (S b) = true <-> accumulatedError d b.
Proof.
  unfold failsWithin, accumulatedError. rewrite failsFrom_spec.
  split; intros (j & Hj & Hne); exists j; (split; [lia|done]).
Qed.

Lemma failsWithin_appends d k :
  failsWithin d k = false <-> appendsSucceed d k.
Proof.
  unfold appendsSucceed. rewrite <- not_true_iff_false. unfold failsWithin.
  rewrite failsFrom_spec. split.
  - intros Hno j Hj. destruct (fault d (calls d + j)) eqn:E; [|done].
    exfalso. apply Hno. exists j. split; [done|]. by rewrite E.
  - intros Hall (j & Hj & Hne). by apply Hne, Hall.
Qed.

Lemma init_spec (s : ErasureStorage) stale alg checksums :
  length stale = length (disks s) -> length checksums = length (disks s) ->
  exists hv,
    mapM (fun id => initAt stale alg checksums id.1 id.2) (imap pair (disks s)) = Some hv /\
    length hv = length (disks s) /\
    forall i od, stale !! i = Some od ->
      hv.*1 !! i = Some (match od with Some _ => Some [] | None => None end).
Proof.
  intros Hs Hc.
  match goal with |- context [mapM ?f ?l] => destruct (mapM_is_Some_2 f l) as [hv Hhv] end.
  { apply Forall_forall. intros [i disk] [j Hj]%list_elem_of_lookup_1.
    rewrite list_lookup_imap in Hj.
    destruct (disks s !! j) as [x|] eqn:Hd; [|done]. injection Hj as <- <-.
    apply lookup_lt_Some in Hd.
    destruct (lookup_lt_is_Some_2 stale j ltac:(lia)) as [od Hod].
    destruct (lookup_lt_is_Some_2 checksums j ltac:(lia)) as [c Hcs].
    cbn. unfold initAt. rewrite Hod. cbn. destruct od; [eauto|].
    destruct (negb x); [eauto|]. rewrite Hcs. cbn. eauto. }
  exists hv. split; [done|].
  pose proof (mapM_Some_1 _ _ _ Hhv) as Hall.
  pose proof (Forall2_length _ _ _ Hall) as Hlen. rewrite length_imap in Hlen.
  split; [done|]. intros i od Hod.
  apply lookup_lt_Some in Hod as Hi.
  destruct (lookup_lt_is_Some_2 (disks s) i ltac:(lia)) as [x Hx].
  destruct (Forall2_lookup_l _ _ _ i (i, x) Hall) as ([oh ov] & Hlook & Hinit).
  { by rewrite list_lookup_imap, Hx. }
  rewrite list_lookup_fmap, Hlook. cbn. f_equal.
  unfold initAt in Hinit. cbn in Hinit. rewrite Hod in Hinit. cbn in Hinit.
  destruct od; [by injection Hinit as <- <-|].
  destruct (negb x); [by injection Hinit as <- <-|].
  destruct (checksums !! i); [|done]. by injection Hinit as <- <-.
Qed.

Lemma fold_checksumAt n alg w (idxs : list nat) acc :
  wfState n w -> length acc = n -> NoDup idxs -> (forall i, i ∈ idxs -> i < n) ->
  exists cs,
    foldl (fun acc i => acc ≫= checksumAt alg w i) (Some acc) idxs = Some cs /\
    length cs = n /\
    (forall j, j ∉ idxs -> cs !! j = acc !! j) /\
    (forall j, j ∈ idxs ->
       cs !! j = match cellOf w j with
                 | (Some (Some d), Some None, Some (Some h)) => Some (Some (Sum alg h))
                 | _ => acc !! j
                 end).
Proof.
  intros Hwf. revert acc.
  induction idxs as [|i rest IH]; intros acc Hlen Hnd Hlt.
  { exists acc. split_and!; try done. intros j Hj. inversion Hj. }
  apply NoDup_cons in Hnd as [Hi Hnd].
  assert (i < n) as Hin by apply Hlt, list_elem_of_here.
  assert (exists acc1, checksumAt alg w i acc = Some acc1 /\ length acc1 = n /\
            (forall j, j <> i -> acc1 !! j = acc !! j) /\
            acc1 !! i = match cellOf w i with
                        | (Some (Some d), Some None, Some (Some h)) => Some (Some (Sum alg h))
                        | _ => acc !! i
                        end) as (acc1 & Hstep & Hlen1 & Hother & Hat).
  { unfold checksumAt, cellOf.
    destruct (lookup_lt_is_Some_2 (staleDisks w) i
                ltac:(by rewrite (wf_stale _ _ Hwf))) as [od Hod].
    destruct (lookup_lt_is_Some_2 (writeErrors w) i
                ltac:(by rewrite (wf_errors _ _ Hwf))) as [we Hwe].
    rewrite Hod, Hwe. cbn. destruct od as [d|]; [|by exists acc].
    destruct (wf_hasher _ _ Hwf i d Hod) as [h Hh]. rewrite Hh.
    destruct we as [e|]; [by exists acc|]. cbn.
    rewrite bool_decide_true by lia. eexists. split; [done|].
    rewrite length_insert. split; [done|]. split.
    - intros j Hj. by rewrite list_lookup_insert_ne.
    - by rewrite list_lookup_insert_eq by lia. }
  destruct (IH acc1 Hlen1 Hnd) as (cs & Hfold & Hlcs & Hout & Hins).
  { intros j Hj. apply Hlt. by apply list_elem_of_further. }
  exists cs. cbn [foldl mbind option_bind]. rewrite Hstep, Hfold.
  split_and!; [done|done| |].
  - intros j Hj. apply not_elem_of_cons in Hj as [Hji Hj].
    rewrite Hout by done. by apply Hother.
  - intros j [-> | Hj]%elem_of_cons.
    + by rewrite Hout.
    + rewrite Hins by done.
      destruct (cellOf w j) as [[[[d|]|] [[e|]|]] [[h|]|]]; try done;
        apply Hother; by intros ->.
Qed.

End WriteLoop.

Section HealFileFacts.

Import Heal.
Local Open Scope list_scope.
Local Open Scope nat_scope.

Context `{Coder}.

Lemma healBlocks_error_sources (s : ErasureStorage) st buffers k blockNumber buffOffset w w' e :
  healBlocks s st buffers k blockNumber buffOffset w = Some (w', Some e) ->
  (exists blocks, ErasureDecodeDataAndParityBlocks blocks = inl e) \/
  (exists errs, e = joinWriteErrors errs).
Proof.
  revert blockNumber buffOffset w. induction k as [|k IH]; intros b off w; [done|].
  cbn [healBlocks].
  destruct (if _ && _ then _ else _); [|done]. cbn [mbind option_bind].
  destruct (blocksAt _ _ _ _) as [blocks|]; [|done]. cbn [mbind option_bind].
  destruct (ErasureDecodeDataAndParityBlocks blocks) as [err|blocks'] eqn:Hd.
  { intros [= <- <-]. left. eauto. }
  destruct (writeBlock blocks' w) as [[w1 ok]|]; [|done]. cbn [mbind option_bind].
  destruct ok; cbn [negb].
  - apply IH.
  - intros [= <- <-]. right. eauto.
Qed.

Lemma heal_error_sources (s : ErasureStorage) stale blocksize size alg checksums stale' f e :
  HealFile s stale blocksize size alg checksums = Returns stale' f (Some e) ->
  e = errBitrotHashAlgoInvalid \/
  (exists offset len verifiers, readConcurrent offset len verifiers = inl e) \/
  (exists blocks, ErasureDecodeDataAndParityBlocks blocks = inl e) \/
  (exists errs, e = joinWriteErrors errs).
Proof.
  unfold HealFile.
  destruct (Available alg); cbn [negb]; [|intros [= <- <- <-]; by left].
  destruct (mapM _ _) as [hv|]; [|done].
  destruct (stripeSizes _ _ _) as [st|]; [|done].
  destruct (readConcurrent _ _ _) as [err|buffers] eqn:Hr.
  { intros [= <- <- <-]. right. left. eauto. }
  destruct (if _ <? _ then _ else _)%Z; [|done].
  destruct (healBlocks _ _ _ _ _ _ _) as [[w [err|]]|] eqn:Hb; [| |done].
  - intros [= <- <- <-]. right. right. by eapply healBlocks_error_sources.
  - by destruct (foldl _ _ _).
Qed.

Lemma allDead_initial n (stale : list (option Disk)) hashers b :
  length stale = n ->
  allDead n {| staleDisks := stale; writeErrors := replicate n None; hashers := hashers |} (S b)
    = true <->
  forall i d, stale !! i = Some (Some d) -> accumulatedError d b.
Proof.
  intros Hlen. unfold allDead. rewrite forallb_forall. split.
  - intros Hall i d Hd. apply failsWithin_accumulated.
    apply lookup_lt_Some in Hd as Hi.
    specialize (Hall i ltac:(apply in_seq; lia)).
    unfold cellDead, cellOf in Hall. cbn in Hall.
    by rewrite Hd, lookup_replicate_2 in Hall by lia.
  - intros Hall i [_ Hi]%in_seq. unfold cellDead, cellOf. cbn.
    destruct (stale !! i) as [[d|]|] eqn:Hd; [|done..].
    rewrite lookup_replicate_2 by lia. apply failsWithin_accumulated. by eapply Hall.
Qed.

(** C2, as the code has it. [HealFile] returns an error, and leaves
    the stale disks as they are, when the bitrot algorithm is
    unavailable and when the concurrent read fails; it returns the
    error of the reconstruction of a block when that fails and every
    block before it has been reconstructed and, for each of them, some
    non-nil stale disk was still without a write error (the stale disks
    are untouched if it is the first block). An error of [HealFile] is
    the error of an
    unavailable bitrot algorithm, of the concurrent read, of the
    reconstruction of a block, or the one built from the write errors.
    When the slices have the length of [s.disks], the algorithm is
    available, the read and the reconstruction succeed: [HealFile]
    returns, with an error exactly when for some block every non-nil
    stale disk has had a write error by that block; and when it returns
    without an error, [Checksums] has the length of [s.disks], holds at
    the index of every non-nil stale disk all of whose appends
    succeeded the checksum of the bytes appended to that disk, and is
    nil at every other index. *)
Theorem heal_file_write_errors :
  (forall (s : ErasureStorage) stale blocksize size alg checksums,
     Available alg = false ->
     HealFile s stale blocksize size alg checksums
     = Returns stale (emptyInfo 0) (Some errBitrotHashAlgoInvalid)) /\
  (forall (s : ErasureStorage) stale blocksize size alg checksums hv st e,
     Available alg = true ->
     mapM (fun id => initAt stale alg checksums id.1 id.2) (imap pair (disks s)) = Some hv ->
     stripeSizes (dataBlocks s) blocksize size = Some st ->
     readConcurrent 0 (readLen st) hv.*2 = inl e ->
     HealFile s stale blocksize size alg checksums
     = Returns stale (emptyInfo (length (disks s))) (Some e)) /\
  (forall (s : ErasureStorage) stale blocksize size alg checksums hv st buffers j blocks e,
     length stale = length (disks s) -> length checksums = length (disks s) ->
     (0 < dataBlocks s)%Z ->
     (0 < blocksize <= int64_max)%Z -> (0 <= size <= int64_max)%Z ->
     Available alg = true ->
     mapM (fun id => initAt stale alg checksums id.1 id.2) (imap pair (disks s)) = Some hv ->
     stripeSizes (dataBlocks s) blocksize size = Some st ->
     readConcurrent 0 (readLen st) hv.*2 = inr buffers ->
     buffersOK (length (disks s)) (readLen st) buffers ->
     j < Z.to_nat (numBlocks st) ->
     (forall b, b < j -> exists blocks0 blocks',
        blocksOf s st buffers b = Some blocks0 /\
        ErasureDecodeDataAndParityBlocks blocks0 = inr blocks' /\
        length blocks' = length blocks0) ->
     (forall b, b < j ->
        ~ (forall i d, stale !! i = Some (Some d) -> accumulatedError d b)) ->
     blocksOf s st buffers j = Some blocks ->
     ErasureDecodeDataAndParityBlocks blocks = inl e ->
     exists stale',
       HealFile s stale blocksize size alg checksums
       = Returns stale' (emptyInfo (length (disks s))) (Some e) /\
       length stale' = length stale /\
       (j = 0 -> stale' = stale)) /\
  (forall (s : ErasureStorage) stale blocksize size alg checksums stale' f e,
     HealFile s stale blocksize size alg checksums = Returns stale' f (Some e) ->
     e = errBitrotHashAlgoInvalid \/
     (exists offset len verifiers, readConcurrent offset len verifiers = inl e) \/
     (exists blocks, ErasureDecodeDataAndParityBlocks blocks = inl e) \/
     (exists errs, e = joinWriteErrors errs)) /\
  (forall (s : ErasureStorage) stale blocksize size alg checksums,
     length stale = length (disks s) -> length checksums = length (disks s) ->
     (0 < dataBlocks s)%Z ->
     (0 < blocksize <= int64_max)%Z -> (0 <= size <= int64_max)%Z ->
     Available alg = true ->
     readOK (length (disks s)) -> decodeOK ->
     let blocks := Z.to_nat (ceilFrac size blocksize) in
     exists stale' f err,
       HealFile s stale blocksize size alg checksums = Returns stale' f err /\
       (is_Some err <->
        exists b, b < blocks /\
          forall i d, stale !! i = Some (Some d) -> accumulatedError d b) /\
       (err = None ->
        length (Checksums f) = length (disks s) /\
        (forall i d, stale !! i = Some (Some d) -> appendsSucceed d blocks ->
           exists d' written,
             stale' !! i = Some (Some d') /\
             content d' = content d ++ written /\
             Checksums f !! i = Some (Some (Sum alg written))) /\
        (forall i, i < length (disks s) ->
           ~ (exists d, stale !! i = Some (Some d) /\ appendsSucceed d blocks) ->
           Checksums f !! i = Some None))).
Proof.
  split_and!; [| | |intros; by eapply heal_error_sources|].
  { intros s stale blocksize size alg checksums Havail.
    unfold HealFile. by rewrite Havail. }
  { intros s stale blocksize size alg checksums hv st e Havail Hinit Hst Hread.
    unfold HealFile. by rewrite Havail, Hinit, Hst, Hread. }
  { intros s stale blocksize size alg checksums hv st buffers j blocks e
      Hstale Hsums HN Hbs Hsz Havail Hhv Hst Hread Hbuf Hj Hearlier Halive Hblocks Hfail.
    set (n := length (disks s)) in *.
    unfold HealFile. rewrite Havail, Hhv, Hst, Hread. cbn [negb]. fold n.
    destruct (init_spec s stale alg checksums Hstale Hsums) as (hv' & Hhv' & Hlhv & Hinit).
    rewrite Hhv in Hhv'. injection Hhv' as <-.
    destruct (stripeSizes_value (dataBlocks s) blocksize size)
      as (Hst' & Hlast & Hrl); try lia.
    rewrite Hst in Hst'. injection Hst' as Hst'.
    pose proof (ceilFrac_bounds size blocksize ltac:(lia) ltac:(lia)) as Hnbb.
    pose proof (ceilFrac_bounds blocksize (dataBlocks s) ltac:(lia) ltac:(lia)) as Hcb.
    rewrite Hst' in *. clear Hst' Hst.
    set (st' := {| chunksize := ceilFrac blocksize (dataBlocks s) |}) in *.
    destruct (allocBlocks_ok n (readLen st') buffers (chunksize st') Hbuf ltac:(cbn; lia))
      as (scratch & ->).
    rewrite if_some.
    set (w0 := {| staleDisks := stale; writeErrors := replicate n None; hashers := hv.*1 |}).
    assert (wfState n w0) as Hwf0.
    { split; cbn.
      - done.
      - apply length_replicate.
      - by rewrite length_fmap.
      - intros i d Hd. rewrite (Hinit i _ Hd). eauto. }
    destruct (healBlocks_decode_error s st' buffers (Z.to_nat (numBlocks st')) 0 0 w0
                j blocks e) as (w' & Hrun & Hwf');
      [done|done|cbn; lia|cbn; lia|done|cbn; lia|cbn; lia|lia|cbn; lia|lia|done
      |exact Hearlier| exact Hblocks|done| |].
    { intros b Hb. apply not_true_iff_false. intros Hdead. apply (Halive b Hb).
      by apply (allDead_initial n stale hv.*1). }
    rewrite Hrun. eexists. split; [done|]. split; [by rewrite (wf_stale _ _ Hwf')|].
    intros ->. cbn [healBlocks] in Hrun.
    destruct (Z.to_nat (numBlocks st')) as [|k]; [lia|]. cbn [healBlocks] in Hrun.
    destruct (if _ && _ then _ else _); [|done]. cbn [mbind option_bind] in Hrun.
    unfold blocksOf in Hblocks. change (Z.of_nat 0) with 0%Z in Hblocks.
    rewrite Z.mul_0_r in Hblocks.
    rewrite Hblocks in Hrun. cbn [mbind option_bind] in Hrun.
    rewrite Hfail in Hrun. by injection Hrun as <-. }
  intros s stale blocksize size alg checksums Hstale Hsums HN Hbs Hsz Havail Hread Hdec k.
  set (n := length (disks s)) in *.
  unfold HealFile. rewrite Havail. cbn [negb]. fold n.
  destruct (init_spec s stale alg checksums Hstale Hsums) as (hv & -> & Hhv & Hinit).
  destruct (stripeSizes_value (dataBlocks s) blocksize size)
    as (-> & Hlast & Hrl); try lia.
  pose proof (ceilFrac_bounds size blocksize ltac:(lia) ltac:(lia)) as Hnbb.
  pose proof (ceilFrac_bounds blocksize (dataBlocks s) ltac:(lia) ltac:(lia)) as Hcb.
  set (st := {| chunksize := ceilFrac blocksize (dataBlocks s) |}) in *.
  destruct (Hread 0%Z (readLen st) hv.*2) as (buffers & -> & Hbuf);
    [by rewrite length_fmap|].
  destruct (allocBlocks_ok n (readLen st) buffers (chunksize st) Hbuf ltac:(cbn; lia))
    as (scratch & ->).
  rewrite if_some.
  set (w0 := {| staleDisks := stale; writeErrors := replicate n None; hashers := hv.*1 |}).
  assert (wfState n w0) as Hwf0.
  { split; cbn.
    - done.
    - apply length_replicate.
    - by rewrite length_fmap.
    - intros i d Hd. rewrite (Hinit i _ Hd). eauto. }
  destruct (healBlocks_spec s st buffers (Z.to_nat (numBlocks st)) 0 0 w0)
    as (w' & oe & -> & Hwf' & Herr & Hcells);
    [done|done|done|cbn; lia|cbn; lia|done|cbn; lia|cbn; lia|lia|cbn; lia|lia|cbn; lia|].
  fold n in Hwf', Herr, Hcells. subst k.
  change (numBlocks st) with (ceilFrac size blocksize) in *.
  destruct oe as [e|].
  - eexists _, _, _. split; [done|]. split; [|done].
    split; [intros _|eauto].
    destruct (proj1 Herr ltac:(eauto)) as (j & Hj & Hdead).
    exists j. split; [done|]. by apply (allDead_initial n stale hv.*1).
  - cbn [Checksums emptyInfo].
    destruct (fold_checksumAt n alg w' (seq 0 (length (staleDisks w'))) (replicate n None))
      as (cs & -> & Hlcs & _ & Hcs); [done|apply length_replicate|apply NoDup_seq| |].
    { intros i Hi%elem_of_seq. rewrite (wf_stale _ _ Hwf') in Hi. lia. }
    eexists _, _, _. split; [done|]. split.
    { split; [by intros [? ?]|]. intros (j & Hj & Hdead). apply Herr.
      exists j. split; [done|]. by apply (allDead_initial n stale hv.*1). }
    intros _. cbn [Checksums]. split; [done|].
    assert (forall i, i < n -> i ∈ seq 0 (length (staleDisks w'))) as Hseq.
    { intros i Hi. apply elem_of_seq. rewrite (wf_stale _ _ Hwf'). lia. }
    split.
    + intros i d Hd Hsucc. apply lookup_lt_Some in Hd as Hi.
      specialize (Hcells eq_refl i). unfold cellAfter, cellOf in Hcells. cbn in Hcells.
      rewrite Hd, lookup_replicate_2, (Hinit i _ Hd) in Hcells by lia.
      apply failsWithin_appends in Hsucc. rewrite Hsucc in Hcells.
      destruct Hcells as (d' & app & Hc' & Hcontent).
      exists d', app. rewrite Hcs by (apply Hseq; lia).
      unfold cellOf. injection Hc' as -> -> ->. done.
    + intros i Hi Hnot. rewrite Hcs by by apply Hseq.
      specialize (Hcells eq_refl i). unfold cellAfter, cellOf in Hcells |- *.
      cbn in Hcells.
      destruct (lookup_lt_is_Some_2 stale i ltac:(lia)) as [od Hod].
      rewrite Hod, lookup_replicate_2, (Hinit i _ Hod) in Hcells by lia.
      destruct od as [d|].
      * destruct (failsWithin d (Z.to_nat (ceilFrac size blocksize))) eqn:Hf.
        -- destruct Hcells as (d' & e & h' & Hc'). injection Hc' as Hd' He' _.
           rewrite Hd', He'. by apply lookup_replicate_2.
        -- exfalso. apply Hnot. exists d. split; [done|]. by apply failsWithin_appends.
      * injection Hcells as Hd' _ _. rewrite Hd'. by apply lookup_replicate_2.
Qed.

End HealFileFacts.

Section HealExamples.

Import Heal.
Local Open Scope list_scope.
Local Open Scope Z_scope.

Lemma plainCoder_readOK n : readOK (H := plainCoder) n.
Proof.
  intros offset len verifiers Hlen. eexists. split; [reflexivity|]. split.
  - by rewrite length_fmap.
  - apply Forall_forall. intros buf (x & -> & _)%list_elem_of_fmap.
    rewrite length_replicate. lia.
Qed.

Lemma plainCoder_decodeOK : decodeOK (H := plainCoder).
Proof. intros blocks. by exists blocks. Qed.

Lemma heal_unavailable_algorithm :
  HealFile (H := plainCoder) exampleStorage [None; Some healthyDisk; Some faultyDisk]
    4 10 noAlg [[]; []; []]
  = Returns [None; Some healthyDisk; Some faultyDisk] (emptyInfo 0)
      (Some errBitrotHashAlgoInvalid) /\
  forall j, fault healthyDisk j = None.
Proof. split; [vm_compute; reflexivity | done]. Qed.

(** With a negative number of data blocks the chunk size is negative:
    the buffers come back empty, and the allocation of the scratch
    blocks panics. *)
Lemma heal_negative_chunk_panics :
  stripeSizes (-2) 4 10
  = Some {| chunksize := -2; numBlocks := 3; lastChunkSize := -1; readLen := -5 |} /\
  HealFile (H := plainCoder) {| disks := [true; true; true]; dataBlocks := -2 |}
    [None; Some healthyDisk; Some faultyDisk] 4 10 plainAlg [[]; []; []]
  = Panics.
Proof. split; vm_compute; reflexivity. Qed.

Lemma heal_file_write_errors_witness :
  (exists stale' f err,
    HealFile (H := plainCoder) exampleStorage [None; Some healthyDisk; Some faultyDisk]
      4 10 plainAlg [[]; []; []] = Returns stale' f err /\
    (is_Some err <->
     exists b, (b < 3)%nat /\
       forall i d, [None; Some healthyDisk; Some faultyDisk] !! i = Some (Some d) ->
                   accumulatedError d b) /\
    (err = None ->
     length (Checksums f) = 3%nat /\
     (forall i d, [None; Some healthyDisk; Some faultyDisk] !! i = Some (Some d) ->
        appendsSucceed d 3 ->
        exists d' written,
          stale' !! i = Some (Some d') /\
          content d' = content d ++ written /\
          Checksums f !! i = Some (Some (Sum plainAlg written))) /\
     (forall i, (i < 3)%nat ->
        ~ (exists d, [None; Some healthyDisk; Some faultyDisk] !! i = Some (Some d) /\
                     appendsSucceed d 3) ->
        Checksums f !! i = Some None))) /\
  HealFile (H := failingReader) exampleStorage [None; Some healthyDisk; Some faultyDisk]
    4 10 plainAlg [[]; []; []]
  = Returns [None; Some healthyDisk; Some faultyDisk] (emptyInfo 3) (Some errFileNotFound) /\
  exists stale',
    HealFile (H := failingDecoder) exampleStorage [None; Some healthyDisk; Some faultyDisk]
      4 10 plainAlg [[]; []; []]
    = Returns stale' (emptyInfo 3) (Some (errOther "too few shards given")) /\
    length stale' = 3%nat /\
    (0%nat = 0%nat -> stale' = [None; Some healthyDisk; Some faultyDisk]).
Proof.
  split; [|split].
  - destruct (heal_file_write_errors (H := plainCoder)) as (_ & _ & _ & _ & Hheal).
    apply (Hheal exampleStorage [None; Some healthyDisk; Some faultyDisk] 4 10 plainAlg
             [[]; []; []]); try reflexivity.
    + unfold int64_max. lia.
    + unfold int64_max. lia.
    + apply plainCoder_readOK.
    + apply plainCoder_decodeOK.
  - destruct (heal_file_write_errors (H := failingReader)) as (_ & Hread & _).
    eapply (Hread exampleStorage [None; Some healthyDisk; Some faultyDisk] 4 10 plainAlg
              [[]; []; []]); reflexivity.
  - destruct (heal_file_write_errors (H := failingDecoder)) as (_ & _ & Hdecode & _).
    eapply (Hdecode exampleStorage [None; Some healthyDisk; Some faultyDisk] 4 10 plainAlg
              [[]; []; []] _ _ _ 0%nat).
    + reflexivity.
    + reflexivity.
    + reflexivity.
    + unfold int64_max. lia.
    + unfold int64_max. lia.
    + reflexivity.
    + cbv. reflexivity.
    + cbv. reflexivity.
    + cbv. reflexivity.
    + split; [reflexivity|].
      repeat (apply Forall_cons_2; [right; cbn; lia|]). apply Forall_nil_2.
    + cbn. lia.
    + intros b Hb. lia.
    + intros b Hb. lia.
    + cbv. reflexivity.
    + reflexivity.
Defined.


End HealExamples.

Section NSLockFrontEnd.

Import NSLock.
Local Open Scope string_scope.
Local Open Scope list_scope.
Local Open Scope Z_scope.

(** An entry that the map holds points to an allocated object, so a
    newly allocated address is none of them. *)
Lemma newAddr_not_entry s param :
  wf s -> lockMap (nsMap s) !! param <> Some (newAddr (nsMap s)).
Proof.
  intros Hwf Hp. apply (wf_positive _ Hwf) in Hp.
  apply refOf_store in Hp as [? Hp]. by rewrite newAddr_fresh in Hp.
Qed.

(** What the first critical section of [lock] does to the counts. *)
Lemma lockEnter_counts s volume path :
  wf s -> refCount (nsMap s) (volume, path) < uint64_mod - 1 ->
  let n1 := (lockEnter volume path (nsMap s)).1 in
  let a := (lockEnter volume path (nsMap s)).2 in
  lockMap n1 = <[(volume, path) := a]> (lockMap (nsMap s)) /\
  refOf n1 a = refCount (nsMap s) (volume, path) + 1 /\
  (forall b, b <> a -> refOf n1 b = refOf (nsMap s) b) /\
  (forall param, param <> (volume, path) -> lockMap (nsMap s) !! param <> Some a) /\
  (lockMap (nsMap s) !! (volume, path) = None -> store (nsMap s) !! a = None) /\
  logged n1 = logged (nsMap s) /\
  (forall b, lockerOf n1 b = lockerOf (nsMap s) b).
Proof.
  intros Hwf Hmax. unfold lockEnter, refCount in *.
  destruct (lockMap (nsMap s) !! (volume, path)) as [a0|] eqn:Hfound; cbn.
  - pose proof (wf_positive _ Hwf _ _ Hfound) as Hpos.
    rewrite wrapU64_id by lia. split_and!; try done.
    + by rewrite insert_id.
    + by rewrite refOf_setRef, decide_True.
    + intros b Hb. by rewrite refOf_setRef, decide_False.
    + intros param Hne Hp. apply Hne. by eapply (wf_inj _ Hwf).
    + intros b. apply lockerOf_setRef.
  - set (a := newAddr (nsMap s)).
    set (n0 := {| isDistXL := isDistXL (nsMap s);
                  store := <[a := {| locker := RWLockerSync.new; ref := 0 |}]>
                             (store (nsMap s));
                  lockMap := <[(volume, path) := a]> (lockMap (nsMap s));
                  logged := logged (nsMap s) |}).
    assert (refOf n0 a = 0) as E.
    { unfold refOf. cbn. by rewrite lookup_insert_eq. }
    rewrite E. split_and!; try done.
    + by rewrite refOf_setRef, decide_True.
    + intros b Hb. rewrite refOf_setRef, decide_False by done.
      unfold refOf. cbn. by rewrite lookup_insert_ne.
    + intros param _. by apply newAddr_not_entry.
    + intros _. apply newAddr_fresh.
    + intros b. rewrite lockerOf_setRef. unfold lockerOf. cbn.
      rewrite lookup_insert. case_decide; [|done]. subst b.
      pose proof (newAddr_fresh (nsMap s)) as Hf. fold a in Hf. by rewrite Hf.
Qed.


(** The count of a (volume, path) after the first critical section of a
    call for [(volume, path)]. *)
Lemma lockEnter_refCount s volume path param :
  wf s -> refCount (nsMap s) (volume, path) < uint64_mod - 1 ->
  refCount (lockEnter volume path (nsMap s)).1 param
  = if decide (param = (volume, path)) then refCount (nsMap s) param + 1
    else refCount (nsMap s) param.
Proof.
  intros Hwf Hmax.
  destruct (lockEnter_counts s volume path Hwf Hmax) as (Hmap & Ha & Hother & Hnot & _).
  unfold refCount at 1. rewrite Hmap, lookup_insert.
  destruct (decide (param = (volume, path))) as [->|Hne].
  - by rewrite decide_True.
  - rewrite decide_False by done. unfold refCount.
    destruct (lockMap (nsMap s) !! param) as [b|] eqn:Hb; [|done].
    apply Hother. intros ->. by apply (Hnot param).
Qed.

(** Taking the counter of the object of an entry back to what it was
    before the call entered gives back the map and the counts, whatever
    the locker of the object has done in between. *)
Lemma leave_restores s volume path nx n' :
  wf s -> refCount (nsMap s) (volume, path) < uint64_mod - 1 ->
  let n1 := (lockEnter volume path (nsMap s)).1 in
  let a := (lockEnter volume path (nsMap s)).2 in
  lockMap nx = lockMap n1 -> (forall b, refOf nx b = refOf n1 b) ->
  logged nx = logged n1 ->
  let n2 := setRef nx a (refOf nx a - 1) in
  n' = (if refOf n2 a =? 0 then deleteEntry n2 (volume, path) else n2) ->
  lockMap n' = lockMap (nsMap s) /\
  (forall param, refCount n' param = refCount (nsMap s) param) /\
  logged n' = logged (nsMap s) /\
  (forall b, lockerOf n' b = lockerOf nx b).
Proof.
  intros Hwf Hmax n1 a Hmapx Hrefx Hlogx n2 ->.
  destruct (lockEnter_counts s volume path Hwf Hmax)
    as (Hmap & Ha & Hother & Hnot & Hnew & Hlog & _).
  fold n1 a in Hmap, Ha, Hother, Hnot, Hnew, Hlog.
  assert (refOf n2 a = refCount (nsMap s) (volume, path)) as Hback.
  { unfold n2. rewrite refOf_setRef, decide_True by done. rewrite Hrefx. lia. }
  assert (forall b, b <> a -> refOf n2 b = refOf (nsMap s) b) as Hother2.
  { intros b Hb. unfold n2. rewrite refOf_setRef, decide_False by done.
    rewrite Hrefx. by apply Hother. }
  assert (forall b, lockerOf n2 b = lockerOf nx b) as Hlocker.
  { intros b. apply lockerOf_setRef. }
  rewrite Hback. unfold refCount in Hback |- *.
  destruct (lockMap (nsMap s) !! (volume, path)) as [a0|] eqn:Hfound.
  - pose proof (wf_positive _ Hwf _ _ Hfound) as Hpos.
    assert (a = a0) as ->.
    { subst a. unfold lockEnter. by rewrite Hfound. }
    destruct (refOf (nsMap s) a0 =? 0) eqn:E; [lia|].
    assert (lockMap n2 = lockMap (nsMap s)) as Hmap2.
    { unfold n2. cbn. rewrite Hmapx, Hmap. by apply insert_id. }
    split; [done|]. split; [|split; [by rewrite <- Hlog, <- Hlogx|done]].
    intros param. rewrite Hmap2. destruct (lockMap (nsMap s) !! param) as [b|]; [|done].
    destruct (decide (b = a0)) as [->|]; [done|by apply Hother2].
  - cbn [Z.eqb deleteEntry lockMap logged].
    assert (delete (volume, path) (lockMap n2) = lockMap (nsMap s)) as Hmap2.
    { unfold n2. cbn. rewrite Hmapx, Hmap. by apply delete_insert_id. }
    split; [done|]. split; [|split; [by rewrite <- Hlog, <- Hlogx|done]].
    intros param. rewrite Hmap2.
    destruct (lockMap (nsMap s) !! param) as [b|] eqn:Hb; [|done].
    rewrite refOf_deleteEntry. apply Hother2. intros ->.
    pose proof (wf_positive _ Hwf _ _ Hb) as Hpos.
    apply refOf_store in Hpos as [? Hs]. rewrite Hnew in Hs; done.
Qed.

Lemma refCount_nonneg s param : wf s -> 0 <= refCount (nsMap s) param.
Proof.
  intros Hwf. unfold refCount. destruct (lockMap (nsMap s) !! param) as [b|]; [|done].
  pose proof (refOf_range s b Hwf). lia.
Qed.

(** A call of [lock] whose locker does not grant the lock. *)
Lemma lock_timed_out s volume path (readLock : bool) :
  wf s -> refCount (nsMap s) (volume, path) < uint64_mod - 1 ->
  let a := (lockEnter volume path (nsMap s)).2 in
  (if readLock then RWLockerSync.GetRLock (lockerOf (nsMap s) a)
   else RWLockerSync.GetLock (lockerOf (nsMap s) a)).2 = false ->
  exists n',
    lock volume path readLock (nsMap s) = (n', false) /\
    lockMap n' = lockMap (nsMap s) /\
    (forall param, refCount n' param = refCount (nsMap s) param) /\
    logged n' = logged (nsMap s) /\
    (forall b, lockerOf n' b = lockerOf (nsMap s) b).
Proof.
  intros Hwf Hmax a Hbusy. unfold lock.
  pose proof (lockEnter_counts s volume path Hwf Hmax) as (_ & Ha & _ & _ & _ & _ & Hlk).
  pose proof (leave_restores s volume path) as Hleave.
  pose proof (refCount_nonneg s (volume, path) Hwf) as Hnonneg.
  fold a in Ha, Hlk. subst a.
  destruct (lockEnter volume path (nsMap s)) as [n1 a] eqn:Henter. cbn [fst snd] in *.
  rewrite Hlk.
  destruct (if readLock then _ else _) as [m locked]. cbn [snd] in Hbusy. subst locked.
  cbn [negb]. eexists. split; [done|].
  destruct (Hleave n1 (lockTimedOut volume path a n1) Hwf Hmax)
    as (Hmap & Hcount & Hlog & Hlocker); try done.
  { unfold lockTimedOut. by rewrite wrapU64_id by lia. }
  split_and!; try done. intros b. by rewrite Hlocker.
Qed.

(** X1. A lock request that times out gives the map back as it found
    it. When the lock of the entry is held by a writer, a request for a
    read lock and one for a write lock return [OperationTimedOut] for the
    path of the instance, and so does a request for a write lock when the
    lock is held by readers; the entries of the map, the count of every
    (volume, path), the lockers and the log are then what they were
    before the call. *)
Theorem get_lock_timed_out_restores isDistXL s li a :
  reachable isDistXL s ->
  refCount (nsMap s) (LockInstance.volume li, LockInstance.path li) < uint64_mod - 1 ->
  lockMap (nsMap s) !! (LockInstance.volume li, LockInstance.path li) = Some a ->
  let restored n' :=
    lockMap n' = lockMap (nsMap s) /\
    (forall param, refCount n' param = refCount (nsMap s) param) /\
    logged n' = logged (nsMap s) /\
    (forall b, lockerOf n' b = lockerOf (nsMap s) b) in
  (RWLockerSync.writer (lockerOf (nsMap s) a) = true ->
   exists n',
     LockInstance.GetRLock li (nsMap s)
       = (n', Some (OperationTimedOut (LockInstance.path li))) /\ restored n') /\
  (RWLockerSync.writer (lockerOf (nsMap s) a) = true \/
   RWLockerSync.readers (lockerOf (nsMap s) a) <> 0%nat ->
   exists n',
     LockInstance.GetLock li (nsMap s)
       = (n', Some (OperationTimedOut (LockInstance.path li))) /\ restored n').
Proof.
  intros Hwf%wf_reachable Hmax Hfound restored.
  assert ((lockEnter (LockInstance.volume li) (LockInstance.path li) (nsMap s)).2 = a) as Ha.
  { unfold lockEnter. by rewrite Hfound. }
  split.
  - intros Hw.
    destruct (lock_timed_out s (LockInstance.volume li) (LockInstance.path li) true Hwf Hmax)
      as (n' & Hlock & Hrest).
    { rewrite Ha. unfold RWLockerSync.GetRLock. by rewrite Hw. }
    exists n'. unfold LockInstance.GetRLock. rewrite Hlock. done.
  - intros Hbusy.
    destruct (lock_timed_out s (LockInstance.volume li) (LockInstance.path li) false Hwf Hmax)
      as (n' & Hlock & Hrest).
    { rewrite Ha. unfold RWLockerSync.GetLock.
      destruct (RWLockerSync.writer _); [done|].
      destruct (RWLockerSync.readers _); [by destruct Hbusy|done]. }
    exists n'. unfold LockInstance.GetLock. rewrite Hlock. done.
Qed.



(** X3. The critical sections for one (volume, path) leave every other
    (volume, path) alone: its entry in the map and its count are the
    same after the first critical section of [lock], after the one of a
    timed-out call, after [unlock] and after [ForceUnlock]. *)
Theorem other_paths_untouched isDistXL s volume path param :
  reachable isDistXL s ->
  refCount (nsMap s) (volume, path) < uint64_mod - 1 ->
  param <> (volume, path) ->
  (forall n',
     n' = (lockEnter volume path (nsMap s)).1 \/
     (exists a readLock, ((volume, path), a, readLock) ∈ inflight s /\
        n' = lockTimedOut volume path a (nsMap s)) \/
     (exists opsID readLock, unlock volume path opsID readLock (nsMap s) = Some n') \/
     n' = ForceUnlock volume path (nsMap s) ->
     lockMap n' !! param = lockMap (nsMap s) !! param /\
     refCount n' param = refCount (nsMap s) param).
Proof.
  intros Hwf%wf_reachable Hmax Hne n' Hn'.
  assert (forall n1 a m r,
            store n1 = <[a := {| locker := m; ref := r |}]> (store (nsMap s)) ->
            (lockMap n1 = lockMap (nsMap s) \/
             lockMap n1 = delete (volume, path) (lockMap (nsMap s))) ->
            (forall p, lockMap (nsMap s) !! p = Some a -> p = (volume, path)) ->
            lockMap n1 !! param = lockMap (nsMap s) !! param /\
            refCount n1 param = refCount (nsMap s) param) as Hupd.
  { intros n1 a m r Hstore Hmap Hone.
    assert (lockMap n1 !! param = lockMap (nsMap s) !! param) as Hsame.
    { destruct Hmap as [-> | ->]; [done|]. by rewrite lookup_delete_ne. }
    split; [done|]. unfold refCount. rewrite Hsame.
    destruct (lockMap (nsMap s) !! param) as [b|] eqn:Hb; [|done].
    unfold refOf. rewrite Hstore, lookup_insert_ne; [done|].
    intros ->. by apply Hne, Hone. }
  destruct Hn' as [-> | [(a & readLock & Hin & ->) | [(opsID & readLock & Hn') | ->]]].
  - pose proof (lockEnter_counts s volume path Hwf Hmax) as (Hmap & _).
    split.
    + by rewrite Hmap, lookup_insert_ne.
    + by rewrite lockEnter_refCount, decide_False.
  - unfold lockTimedOut.
    assert (forall p, lockMap (nsMap s) !! p = Some a -> p = (volume, path)) as Hone.
    { intros p Hp. symmetry. by eapply (wf_inflight _ Hwf). }
    cbv zeta. destruct (refOf _ a =? 0).
    + eapply (Hupd _ a); [reflexivity|by right|done].
    + eapply (Hupd _ a); [reflexivity|by left|done].
  - unfold unlock in Hn'.
    destruct (lockMap (nsMap s) !! (volume, path)) as [a|] eqn:Hfound;
      [|by injection Hn' as <-].
    destruct (if readLock then _ else _) as [m|]; [|done]. cbn [mbind option_bind] in Hn'.
    injection Hn' as <-.
    pose proof (wf_positive _ Hwf _ _ Hfound) as Hpos.
    assert (forall p, lockMap (nsMap s) !! p = Some a -> p = (volume, path)) as Hone.
    { intros p Hp. by eapply (wf_inj _ Hwf). }
    unfold unlockRef. rewrite refOf_setLocker.
    destruct (refOf (nsMap s) a =? 0) eqn:E; [lia|]. rewrite refOf_setLocker, E. cbn [negb].
    destruct (refOf (setRef _ _ _) a =? 0).
    + eapply (Hupd _ a); [cbn; apply insert_insert_eq|by right|done].
    + eapply (Hupd _ a); [cbn; apply insert_insert_eq|by left|done].
  - unfold ForceUnlock. destruct (lockMap (nsMap s) !! (volume, path)) as [a|] eqn:Hfound; [|done].
    unfold refCount. cbn. rewrite lookup_delete_ne by done. done.
Qed.

(** X4. After [ForceUnlock] the next call of [lock] for the same
    (volume, path) uses a new lock object: one that was not allocated
    before, that no call in flight holds and that no entry of the map
    pointed to; it becomes the entry of the (volume, path), with count 1,
    and the counter of every older object is left as it was. *)
Theorem force_unlock_then_lock_is_fresh isDistXL s volume path :
  reachable isDistXL s ->
  let n1 := ForceUnlock volume path (nsMap s) in
  let n2 := (lockEnter volume path n1).1 in
  let a := (lockEnter volume path n1).2 in
  store (nsMap s) !! a = None /\
  (forall param readLock, (param, a, readLock) ∉ inflight s) /\
  (forall param, lockMap (nsMap s) !! param <> Some a) /\
  lockMap n2 !! (volume, path) = Some a /\
  refCount n2 (volume, path) = 1 /\
  (forall b, b <> a -> refOf n2 b = refOf (nsMap s) b).
Proof.
  intros Hreach n1 n2 a.
  assert (reachable isDistXL {| nsMap := n1; inflight := inflight s |}) as Hreach1.
  { eapply reachable_step; [done|]. apply step_force_unlock. }
  pose proof (wf_reachable _ _ Hreach) as Hwf.
  pose proof (wf_reachable _ _ Hreach1) as Hwf1.
  assert (lockMap n1 !! (volume, path) = None) as Hnone by apply ForceUnlock_removes.
  assert (store n1 = store (nsMap s)) as Hstore.
  { unfold n1, ForceUnlock. by destruct (lockMap (nsMap s) !! _). }
  assert (refCount n1 (volume, path) < uint64_mod - 1) as Hmax.
  { unfold refCount. rewrite Hnone. done. }
  destruct (lockEnter_counts _ volume path Hwf1 Hmax)
    as (Hmap & Ha & Hother & _ & Hnew & _ & _).
  cbn [nsMap] in *. fold n2 a in Hmap, Ha, Hother, Hnew.
  specialize (Hnew Hnone). rewrite Hstore in Hnew.
  split; [done|]. split.
  { intros param readLock Hin. apply (wf_alloc _ Hwf) in Hin as [? Hin]. congruence. }
  split.
  { intros param Hp. apply (wf_positive _ Hwf) in Hp.
    apply refOf_store in Hp as [? Hp]. congruence. }
  split; [by rewrite Hmap, lookup_insert_eq|].
  split.
  { unfold refCount at 1. rewrite Hmap, lookup_insert_eq, Ha.
    unfold refCount. by rewrite Hnone. }
  intros b Hb. rewrite (Hother b Hb). unfold refOf. by rewrite Hstore.
Qed.

(** X5. A call that lost its entry to [ForceUnlock] and then times out
    removes the entry that a later call made for the same (volume,
    path): when the call in flight holds an object other than the one of
    the entry and is the last reference to its own object, its timeout
    deletes the entry, although the object of that entry still has a
    positive count, which is left as it was. *)
Theorem timed_out_call_removes_newer_entry isDistXL s volume path a readLock b :
  reachable isDistXL s ->
  ((volume, path), a, readLock) ∈ inflight s ->
  lockMap (nsMap s) !! (volume, path) = Some b ->
  a <> b ->
  refOf (nsMap s) a = 1 ->
  let n' := lockTimedOut volume path a (nsMap s) in
  lockMap n' !! (volume, path) = None /\
  refOf n' b = refOf (nsMap s) b /\
  0 < refOf n' b.
Proof.
  intros Hwf%wf_reachable Hin Hb Hab Hone n'. subst n'.
  pose proof (wf_positive _ Hwf _ _ Hb) as Hpos.
  unfold lockTimedOut. rewrite refOf_setRef, decide_True by done.
  rewrite Hone. change (wrapU64 (1 - 1) =? 0) with true. cbv iota.
  rewrite refOf_deleteEntry, refOf_setRef, decide_False by done.
  split; [apply lookup_delete_eq|done].
Qed.


End NSLockFrontEnd.

Section NSLockFrontEndExamples.

Import NSLock.
Local Open Scope string_scope.
Local Open Scope list_scope.
Local Open Scope Z_scope.

Lemma afterForceUnlock_reachable : reachable false afterForceUnlock.
Proof.
  eapply reachable_step.
  - eapply reachable_step; [apply oneAcquirer_reachable|].
    apply (step_force_unlock "bucket" "object").
  - apply (step_enter "bucket" "object" false _ _
             {| nsMap := ForceUnlock "bucket" "object" (nsMap oneAcquirer);
                inflight := inflight oneAcquirer |}).
    + vm_compute. reflexivity.
    + apply surjective_pairing.
Qed.

Lemma get_lock_timed_out_restores_witness :
  exists n',
    LockInstance.GetRLock (NewNSLock "bucket" "object" "op-2") (nsMap oneHolder)
      = (n', Some (OperationTimedOut "object")) /\
    lockMap n' = lockMap (nsMap oneHolder) /\
    refCount n' ("bucket", "object") = 1.
Proof.
  destruct (get_lock_timed_out_restores false oneHolder (NewNSLock "bucket" "object" "op-2")
              0%nat) as [Hread _].
  - apply oneHolder_reachable.
  - vm_compute. reflexivity.
  - reflexivity.
  - destruct (Hread eq_refl) as (n' & Hget & Hmap & Hcount & _).
    exists n'. split; [exact Hget|]. split; [exact Hmap|].
    rewrite Hcount. vm_compute. reflexivity.
Defined.


Lemma other_paths_untouched_witness :
  lockMap (ForceUnlock "bucket" "other" (nsMap oneAcquirer)) !! ("bucket", "object")
    = lockMap (nsMap oneAcquirer) !! ("bucket", "object") /\
  refCount (ForceUnlock "bucket" "other" (nsMap oneAcquirer)) ("bucket", "object")
    = refCount (nsMap oneAcquirer) ("bucket", "object").
Proof.
  apply (other_paths_untouched false oneAcquirer "bucket" "other" ("bucket", "object")).
  - apply oneAcquirer_reachable.
  - vm_compute. reflexivity.
  - discriminate.
  - right. right. right. reflexivity.
Defined.

Lemma force_unlock_then_lock_is_fresh_witness :
  store (nsMap oneAcquirer)
    !! (lockEnter "bucket" "object" (ForceUnlock "bucket" "object" (nsMap oneAcquirer))).2
    = None /\
  refCount (lockEnter "bucket" "object" (ForceUnlock "bucket" "object" (nsMap oneAcquirer))).1
    ("bucket", "object") = 1.
Proof.
  destruct (force_unlock_then_lock_is_fresh false oneAcquirer "bucket" "object")
    as (Hnew & _ & _ & _ & Hcount & _).
  - apply oneAcquirer_reachable.
  - split; [exact Hnew | exact Hcount].
Defined.

Lemma timed_out_call_removes_newer_entry_witness :
  lockMap (lockTimedOut "bucket" "object" 0%nat (nsMap afterForceUnlock))
    !! ("bucket", "object") = None /\
  0 < refOf (lockTimedOut "bucket" "object" 0%nat (nsMap afterForceUnlock)) 1%nat.
Proof.
  destruct (timed_out_call_removes_newer_entry false afterForceUnlock "bucket" "object"
              0%nat false 1%nat) as (Hnone & _ & Hpos).
  - apply afterForceUnlock_reachable.
  - vm_compute. apply list_elem_of_further, list_elem_of_here.
  - vm_compute. reflexivity.
  - discriminate.
  - vm_compute. reflexivity.
  - split; [exact Hnone | exact Hpos].
Defined.

End NSLockFrontEndExamples.

Section DsyncFacts.

Import Dsync.
Context {XHost RPCClient : Type}.
Variable ParseHost : string -> error + XHost.
Variable NewLockRPCClient : XHost -> error + RPCClient.
Variable lockServicePath : string.

Local Open Scope string_scope.
Local Open Scope list_scope.
Local Open Scope Z_scope.




End DsyncFacts.

Section DsyncExamples.

Import Dsync.
Local Open Scope string_scope.
Local Open Scope list_scope.
Local Open Scope Z_scope.


End DsyncExamples.

Section HealAppends.

Import Heal.
Local Open Scope list_scope.
Local Open Scope nat_scope.

Context `{Coder}.

Lemma callsFrom_le fault c k : callsFrom fault c k <= k.
Proof.
  revert c. induction k as [|k IH]; intros c; cbn; [done|].
  destruct (fault c); [lia|]. specialize (IH (S c)). lia.
Qed.

(** Every call but the last one made succeeded. *)
Lemma callsFrom_succeed fault c k j :
  S j < callsFrom fault c k -> fault (c + j) = None.
Proof.
  revert c j. induction k as [|k IH]; intros c j; cbn; [lia|].
  destruct (fault c) eqn:E; [lia|]. intros Hj. destruct j as [|j].
  - by rewrite Nat.add_0_r.
  - replace (c + S j) with (S c + j) by lia. apply IH. lia.
Qed.

(** When fewer calls than blocks were made, the last one failed. *)
Lemma callsFrom_short fault c k :
  callsFrom fault c k < k ->
  exists j, callsFrom fault c k = S j /\ fault (c + j) <> None.
Proof.
  revert c. induction k as [|k IH]; intros c; cbn; [lia|].
  destruct (fault c) eqn:E.
  - intros _. exists 0. rewrite Nat.add_0_r, E. done.
  - intros Hlt. destruct (IH (S c) ltac:(lia)) as (j & -> & Hj).
    exists (S j). split; [done|]. by replace (c + S j) with (S c + j) by lia.
Qed.

Lemma callsFrom_fails fault c k :
  failsFrom fault c k = true <->
  exists j, callsFrom fault c k = S j /\ fault (c + j) <> None.
Proof.
  revert c. induction k as [|k IH]; intros c; cbn.
  - split; [done|]. by intros (j & ? & _).
  - destruct (fault c) eqn:E.
    + split; [|done]. intros _. exists 0. rewrite Nat.add_0_r, E. done.
    + rewrite IH. split.
      * intros (j & -> & Hj). exists (S j). split; [done|].
        by replace (c + S j) with (S c + j) by lia.
      * intros (j & [= Hj] & Hf). destruct j as [|j].
        -- rewrite Nat.add_0_r in Hf. done.
        -- exists j. split; [done|]. by replace (S c + j) with (c + S j) by lia.
Qed.

(** A cell that is not a stale disk without a write error stays as it
    is. *)
Lemma cellSteps_stopped m c c' :
  (forall d, c.1.1 = Some (Some d) -> c.1.2 <> Some None) ->
  cellSteps m c c' -> c' = c.
Proof.
  revert c. induction m as [|m IH]; intros c Hstop; cbn; [done|].
  intros (blk & Hsteps).
  assert (stepCell blk c = c) as Heq.
  { destruct c as [[[[d|]|] [[e|]|]] [[h|]|]]; cbn; try done.
    by destruct (Hstop d eq_refl). }
  rewrite Heq in Hsteps. by apply IH.
Qed.

(** A stale disk without a write error after the writes of [m]
    blocks. *)
Lemma cellSteps_disk m d h c' :
  cellSteps m (Some (Some d), Some None, Some (Some h)) c' ->
  exists d' e' h',
    c' = (Some (Some d'), Some e', Some (Some h')) /\
    fault d' = fault d /\
    calls d' = calls d + callsFrom (fault d) (calls d) m /\
    (is_Some e' <-> failsFrom (fault d) (calls d) m = true).
Proof.
  revert d h. induction m as [|m IH]; intros d h; cbn.
  - intros ->. exists d, None, h. split_and!; [done|done|lia|].
    split; [by intros [? ?]|done].
  - intros (blk & Hsteps). unfold AppendFile in Hsteps.
    destruct (fault d (calls d)) as [e|] eqn:E; cbn in Hsteps.
    + apply cellSteps_stopped in Hsteps as ->; [|by intros d0 _].
      eexists _, _, _. split; [done|]. cbn. split_and!; [done|lia|].
      split; [done|eauto].
    + apply IH in Hsteps as (d' & e' & h' & -> & Hf & Hc & He). cbn in Hf, Hc, He.
      exists d', e', h'. split_and!; [done|done|lia|done].
Qed.

(** The cells after [healBlocks]: the loop wrote some number of blocks,
    all of them when it ends without an error. *)
Lemma healBlocks_cells (s : ErasureStorage) st buffers k blockNumber buffOffset w w' oe :
  let n := length (disks s) in
  wfState n w -> decodeOK ->
  healBlocks s st buffers k blockNumber buffOffset w = Some (w', oe) ->
  exists m, m <= k /\ (oe = None -> m = k) /\
    forall i, cellSteps m (cellOf w i) (cellOf w' i).
Proof.
  intros n Hwf Hdec. revert blockNumber buffOffset w Hwf.
  induction k as [|k IH]; intros b off w Hwf; cbn [healBlocks].
  { intros [= <- <-]. exists 0. by split_and!. }
  fold n. destruct (if _ && _ then _ else _); cbn [mbind option_bind]; [|done].
  destruct (blocksAt n buffers off (csizeAt st b)) as [blocks|] eqn:Hblocks;
    cbn [mbind option_bind]; [|done].
  assert (length blocks = n) as Hblen.
  { unfold blocksAt in Hblocks. apply length_mapM in Hblocks.
    rewrite length_seq in Hblocks. done. }
  destruct (Hdec blocks) as (blocks' & Hd & Hdlen). rewrite Hd.
  destruct (writeBlock_spec n blocks' w Hwf) as (w1 & Hw & Hwf1 & Hstep); [lia|].
  rewrite Hw. cbn [mbind option_bind].
  assert (forall i, exists blk, cellOf w1 i = stepCell blk (cellOf w i)) as Hcell.
  { intros i. destruct (decide (i < n)) as [Hi|Hi].
    - destruct (lookup_lt_is_Some_2 blocks' i ltac:(lia)) as [blk Hblk]. eauto.
    - exists []. unfold cellOf.
      rewrite !lookup_ge_None_2; [done|..];
        rewrite ?(wf_stale _ _ Hwf), ?(wf_errors _ _ Hwf), ?(wf_hashers _ _ Hwf),
          ?(wf_stale _ _ Hwf1), ?(wf_errors _ _ Hwf1), ?(wf_hashers _ _ Hwf1); lia. }
  destruct (negb _).
  { intros [= <- <-]. exists 1. split; [lia|]. split; [done|].
    intros i. destruct (Hcell i) as [blk Hblk]. exists blk. by rewrite Hblk. }
  intros Hrun. destruct (IH _ _ _ Hwf1 Hrun) as (m & Hm & Hnone & Hsteps).
  exists (S m). split; [lia|]. split; [intros Hoe; by rewrite Hnone|].
  intros i. destruct (Hcell i) as [blk Hblk]. exists blk. rewrite <- Hblk. apply Hsteps.
Qed.


End HealAppends.

Section HealFileMore.

Import Heal.
Local Open Scope list_scope.
Local Open Scope nat_scope.

Context `{Coder}.

(** X8. [HealFile] never appends to a stale disk after a write error of
    that disk. When the slices have the length of [s.disks], the
    algorithm is available, the read and the reconstruction succeed, it
    returns, and then: the stale disks are as many as before and a nil
    entry stays nil; a stale disk has been given at most one append for
    each block; every append it was given except the last one made
    succeeded; and, when [HealFile] ends without an error, a disk that
    was given fewer appends than there are blocks had its last append
    fail. *)
Theorem heal_no_append_after_write_error :
  forall (s : ErasureStorage) stale blocksize size alg checksums,
    length stale = length (disks s) -> length checksums = length (disks s) ->
    (0 < dataBlocks s)%Z ->
    (0 < blocksize <= int64_max)%Z -> (0 <= size <= int64_max)%Z ->
    Available alg = true ->
    readOK (length (disks s)) -> decodeOK ->
    let blocks := Z.to_nat (ceilFrac size blocksize) in
    exists stale' f err,
      HealFile s stale blocksize size alg checksums = Returns stale' f err /\
      length stale' = length stale /\
      (forall i, stale !! i = Some None -> stale' !! i = Some None) /\
      (forall i d, stale !! i = Some (Some d) ->
         exists d',
           stale' !! i = Some (Some d') /\
           fault d' = fault d /\
           calls d <= calls d' <= calls d + blocks /\
           (forall j, S (calls d + j) < calls d' -> fault d (calls d + j) = None) /\
           (err = None -> calls d' < calls d + blocks ->
            exists j, calls d' = S (calls d + j) /\ fault d (calls d + j) <> None)).
Proof.
  intros s stale blocksize size alg checksums Hstale Hsums HN Hbs Hsz Havail Hread Hdec k.
  set (n := length (disks s)) in *.
  unfold HealFile. rewrite Havail. cbn [negb]. fold n.
  destruct (init_spec s stale alg checksums Hstale Hsums) as (hv & -> & Hhv & Hinit).
  destruct (stripeSizes_value (dataBlocks s) blocksize size)
    as (-> & Hlast & Hrl); try lia.
  pose proof (ceilFrac_bounds size blocksize ltac:(lia) ltac:(lia)) as Hnbb.
  pose proof (ceilFrac_bounds blocksize (dataBlocks s) ltac:(lia) ltac:(lia)) as Hcb.
  set (st := {| chunksize := ceilFrac blocksize (dataBlocks s) |}) in *.
  destruct (Hread 0%Z (readLen st) hv.*2) as (buffers & -> & Hbuf);
    [by rewrite length_fmap|].
  destruct (allocBlocks_ok n (readLen st) buffers (chunksize st) Hbuf ltac:(cbn; lia))
    as (scratch & ->).
  rewrite if_some.
  set (w0 := {| staleDisks := stale; writeErrors := replicate n None; hashers := hv.*1 |}).
  assert (wfState n w0) as Hwf0.
  { split; cbn.
    - done.
    - apply length_replicate.
    - by rewrite length_fmap.
    - intros i d Hd. rewrite (Hinit i _ Hd). eauto. }
  destruct (healBlocks_spec s st buffers (Z.to_nat (numBlocks st)) 0 0 w0)
    as (w' & oe & Hrun & Hwf' & _ & _);
    [done|done|done|cbn; lia|cbn; lia|done|cbn; lia|cbn; lia|lia|cbn; lia|lia|cbn; lia|].
  fold n in Hwf'. rewrite Hrun.
  destruct (healBlocks_cells s st buffers _ _ _ w0 w' oe Hwf0 Hdec Hrun)
    as (m & Hm & Hnone & Hsteps).
  change (numBlocks st) with (ceilFrac size blocksize) in *. fold k in Hm, Hnone.
  assert (length (staleDisks w') = length stale /\
          (forall i, stale !! i = Some None -> staleDisks w' !! i = Some None) /\
          (forall i d, stale !! i = Some (Some d) ->
             exists d',
               staleDisks w' !! i = Some (Some d') /\
               fault d' = fault d /\
               calls d <= calls d' <= calls d + k /\
               (forall j, S (calls d + j) < calls d' -> fault d (calls d + j) = None) /\
               (oe = None -> calls d' < calls d + k ->
                exists j, calls d' = S (calls d + j) /\ fault d (calls d + j) <> None)))
    as Hfacts.
  { split; [by rewrite (wf_stale _ _ Hwf')|]. split.
    - intros i Hi. specialize (Hsteps i). unfold cellOf in Hsteps. cbn in Hsteps.
      rewrite Hi in Hsteps. apply cellSteps_stopped in Hsteps; [|done].
      by injection Hsteps as -> _ _.
    - intros i d Hd. apply lookup_lt_Some in Hd as Hi.
      specialize (Hsteps i). unfold cellOf in Hsteps. cbn in Hsteps.
      rewrite Hd, lookup_replicate_2, (Hinit i _ Hd) in Hsteps by lia.
      apply cellSteps_disk in Hsteps as (d' & e' & h' & Hc & Hf & Hcalls & _).
      injection Hc as -> _ _. exists d'. split; [done|]. split; [done|].
      pose proof (callsFrom_le (fault d) (calls d) m). split; [lia|]. split.
      + intros j Hj. apply (callsFrom_succeed _ _ m). lia.
      + intros Hoe Hlt. rewrite (Hnone Hoe) in Hcalls.
        destruct (callsFrom_short (fault d) (calls d) k ltac:(lia)) as (j & Hj & Hfail).
        exists j. split; [lia|done]. }
  destruct Hfacts as (Hlen & Hnil & Hdisk).
  destruct oe as [e|].
  - eexists _, _, _. split; [done|]. split; [done|]. split; [done|].
    intros i d Hd. destruct (Hdisk i d Hd) as (d' & ? & ? & ? & ? & _).
    exists d'. split_and!; try done; lia.
  - cbn [Checksums emptyInfo].
    destruct (fold_checksumAt n alg w' (seq 0 (length (staleDisks w'))) (replicate n None))
      as (cs & -> & _); [done|apply length_replicate|apply NoDup_seq| |].
    { intros i Hi%elem_of_seq. rewrite (wf_stale _ _ Hwf') in Hi. lia. }
    eexists _, _, _. split; [done|]. by split_and!.
Qed.

(** X9. Healing an empty file: for [size = 0] there is no block, so
    [HealFile] appends nothing and leaves every stale disk as it is (it
    does not create the destination file), and it returns without an
    error the checksum of no bytes for each non-nil stale disk, nil at
    the other indices. *)
Theorem heal_empty_file_appends_nothing :
  forall (s : ErasureStorage) stale blocksize alg checksums,
    length stale = length (disks s) -> length checksums = length (disks s) ->
    (0 < dataBlocks s)%Z -> (0 < blocksize <= int64_max)%Z ->
    Available alg = true ->
    readOK (length (disks s)) ->
    exists cs,
      HealFile s stale blocksize 0 alg checksums
        = Returns stale {| Size := 0; Algorithm := Some alg; Checksums := cs |} None /\
      length cs = length (disks s) /\
      (forall i d, stale !! i = Some (Some d) -> cs !! i = Some (Some (Sum alg []))) /\
      (forall i, stale !! i = Some None -> cs !! i = Some None).
Proof.
  intros s stale blocksize alg checksums Hstale Hsums HN Hbs Havail Hread.
  set (n := length (disks s)) in *.
  unfold HealFile. rewrite Havail. cbn [negb]. fold n.
  destruct (init_spec s stale alg checksums Hstale Hsums) as (hv & -> & Hhv & Hinit).
  destruct (stripeSizes_value (dataBlocks s) blocksize 0)
    as (-> & _ & _); try lia; try (unfold int64_max; lia).
  assert (ceilFrac 0 blocksize = 0%Z) as Hzero.
  { apply ceilFrac_zero_iff; lia. }
  rewrite Hzero. cbn [numBlocks readLen].
  destruct (Hread 0%Z (ceilFrac blocksize (dataBlocks s) * (0 - 1)
                       + (if (0 mod blocksize =? 0)%Z
                          then ceilFrac blocksize (dataBlocks s)
                          else ceilFrac (0 mod blocksize) (dataBlocks s)))%Z hv.*2)
    as (buffers & -> & Hbuf); [by rewrite length_fmap|].
  change (1 <? 0)%Z with false. cbv iota.
  cbn [Z.to_nat healBlocks].
  set (w0 := {| staleDisks := stale; writeErrors := replicate n None; hashers := hv.*1 |}).
  assert (wfState n w0) as Hwf0.
  { split; cbn.
    - done.
    - apply length_replicate.
    - by rewrite length_fmap.
    - intros i d Hd. rewrite (Hinit i _ Hd). eauto. }
  change (Z.to_nat 0) with 0. cbn [healBlocks Checksums emptyInfo].
  destruct (fold_checksumAt n alg w0 (seq 0 (length (staleDisks w0))) (replicate n None))
    as (cs & -> & Hlcs & _ & Hcs); [done|apply length_replicate|apply NoDup_seq| |].
  { intros i Hi%elem_of_seq. cbn in Hi. lia. }
  exists cs. split; [done|]. split; [done|].
  assert (forall i, i < n -> i ∈ seq 0 (length (staleDisks w0))) as Hseq.
  { intros i Hi. apply elem_of_seq. cbn. lia. }
  split.
  - intros i d Hd. apply lookup_lt_Some in Hd as Hi.
    rewrite Hcs by (apply Hseq; lia). unfold cellOf. cbn.
    by rewrite Hd, lookup_replicate_2, (Hinit i _ Hd) by lia.
  - intros i Hd. apply lookup_lt_Some in Hd as Hi.
    rewrite Hcs by (apply Hseq; lia). unfold cellOf. cbn.
    rewrite Hd. apply lookup_replicate_2. lia.
Qed.

(** X10. [HealFile] indexes [staleDisks] with every index of [s.disks]:
    with an available algorithm and fewer stale disks than disks it
    panics, before it reads or writes anything. *)
Theorem heal_short_stale_disks_panics :
  forall (s : ErasureStorage) stale blocksize size alg checksums,
    Available alg = true ->
    length stale < length (disks s) ->
    HealFile s stale blocksize size alg checksums = Panics.
Proof.
  intros s stale blocksize size alg checksums Havail Hlen.
  unfold HealFile. rewrite Havail. cbn [negb].
  destruct (mapM _ _) as [hv|] eqn:Hinit; [|done].
  exfalso.
  assert (is_Some (mapM (fun id => initAt stale alg checksums id.1 id.2)
                     (imap pair (disks s)))) as Hsome by eauto.
  rewrite mapM_is_Some, Forall_forall in Hsome.
  destruct (lookup_lt_is_Some_2 (disks s) (length stale) Hlen) as [disk Hdisk].
  destruct (Hsome (length stale, disk)) as [r Hr].
  - apply list_elem_of_lookup. exists (length stale).
    by rewrite list_lookup_imap, Hdisk.
  - unfold initAt in Hr. cbn [fst snd] in Hr.
    rewrite (lookup_ge_None_2 stale) in Hr by lia. done.
Qed.

(** X11. An error of the concurrent read is returned as it is, before
    anything is written: the stale disks are untouched and no checksum
    is reported. *)
Theorem heal_read_error_writes_nothing :
  forall (s : ErasureStorage) stale blocksize size alg checksums e,
    length stale = length (disks s) -> length checksums = length (disks s) ->
    blocksize <> 0%Z ->
    Available alg = true ->
    (forall len verifiers, readConcurrent 0%Z len verifiers = inl e) ->
    HealFile s stale blocksize size alg checksums
      = Returns stale (emptyInfo (length (disks s))) (Some e).
Proof.
  intros s stale blocksize size alg checksums e Hstale Hsums Hbs Havail Hread.
  unfold HealFile. rewrite Havail. cbn [negb].
  destruct (init_spec s stale alg checksums Hstale Hsums) as (hv & -> & _).
  unfold stripeSizes. apply Z.eqb_neq in Hbs. rewrite Hbs.
  cbv zeta. cbn [readLen]. by rewrite Hread.
Qed.

End HealFileMore.

Section HealMoreExamples.

Import Heal.
Local Open Scope list_scope.
Local Open Scope Z_scope.

Lemma heal_no_append_after_write_error_witness :
  exists stale' f err,
    HealFile (H := plainCoder) exampleStorage [None; Some healthyDisk; Some faultyDisk]
      4 10 plainAlg [[]; []; []] = Returns stale' f err /\
    length stale' = 3%nat /\
    exists d', stale' !! 2%nat = Some (Some d') /\ (calls d' <= 3)%nat.
Proof.
  destruct (heal_no_append_after_write_error (H := plainCoder) exampleStorage
              [None; Some healthyDisk; Some faultyDisk] 4 10 plainAlg [[]; []; []])
    as (stale' & f & err & Hrun & Hlen & _ & Hdisk); try reflexivity.
  - unfold int64_max. lia.
  - unfold int64_max. lia.
  - apply plainCoder_readOK.
  - apply plainCoder_decodeOK.
  - exists stale', f, err. split; [exact Hrun|]. split; [exact Hlen|].
    destruct (Hdisk 2%nat faultyDisk eq_refl) as (d' & Hd' & _ & [_ Hle] & _).
    exists d'. split; [exact Hd'|exact Hle].
Defined.

Lemma heal_empty_file_appends_nothing_witness :
  exists cs,
    HealFile (H := plainCoder) exampleStorage [None; Some healthyDisk; Some faultyDisk]
      4 0 plainAlg [[]; []; []]
    = Returns [None; Some healthyDisk; Some faultyDisk]
        {| Size := 0; Algorithm := Some plainAlg; Checksums := cs |} None /\
    cs !! 1%nat = Some (Some []).
Proof.
  destruct (heal_empty_file_appends_nothing (H := plainCoder) exampleStorage
              [None; Some healthyDisk; Some faultyDisk] 4 plainAlg [[]; []; []])
    as (cs & Hrun & _ & Hcs & _); try reflexivity.
  - unfold int64_max. lia.
  - apply plainCoder_readOK.
  - exists cs. split; [exact Hrun|]. apply (Hcs 1%nat healthyDisk). reflexivity.
Defined.

Lemma heal_short_stale_disks_panics_witness :
  HealFile (H := plainCoder) exampleStorage [None; Some healthyDisk] 4 10 plainAlg
    [[]; []; []] = Panics.
Proof.
  apply (heal_short_stale_disks_panics (H := plainCoder)); [reflexivity|].
  cbn. lia.
Defined.

Lemma heal_read_error_writes_nothing_witness :
  HealFile (H := failingReader) exampleStorage [None; Some healthyDisk; Some faultyDisk]
    4 10 plainAlg [[]; []; []]
  = Returns [None; Some healthyDisk; Some faultyDisk] (emptyInfo 3) (Some errFileNotFound).
Proof.
  apply (heal_read_error_writes_nothing (H := failingReader)); try reflexivity.
  discriminate.
Defined.

End HealMoreExamples.

Section ListPartsFacts.

Import PartFile Multipart.
Local Open Scope string_scope.
Local Open Scope list_scope.
Local Open Scope Z_scope.

Context `{Helpers}.
Variable checkListPartsArgs : string -> string -> option error.

Opaque getUploadIDDir.

Lemma insertPart_elem x y l : x ∈ insertPart y l <-> x = y \/ x ∈ l.
Proof.
  induction l as [|z l IH]; cbn.
  - rewrite list_elem_of_singleton, elem_of_nil. tauto.
  - destruct (PartInfo.PartNumber z <? PartInfo.PartNumber y).
    + rewrite !elem_of_cons, IH. tauto.
    + rewrite !elem_of_cons. tauto.
Qed.

Lemma sortPartsStable_elem x l : x ∈ sortPartsStable l <-> x ∈ l.
Proof.
  induction l as [|y l IH]; cbn; [done|].
  rewrite insertPart_elem, elem_of_cons, IH. done.
Qed.

Lemma insertPart_sorted x l :
  StronglySorted Z.lt (PartInfo.PartNumber <$> l) ->
  PartInfo.PartNumber x ∉ PartInfo.PartNumber <$> l ->
  StronglySorted Z.lt (PartInfo.PartNumber <$> insertPart x l).
Proof.
  induction l as [|y l IH]; cbn; intros Hs Hnin.
  - repeat constructor.
  - apply StronglySorted_inv in Hs as [Hs Hall].
    apply not_elem_of_cons in Hnin as [Hne Hnin].
    destruct (PartInfo.PartNumber y <? PartInfo.PartNumber x) eqn:E; cbn.
    + apply Z.ltb_lt in E. constructor; [by apply IH|].
      apply Forall_forall. intros n (p & -> & Hp)%list_elem_of_fmap.
      apply insertPart_elem in Hp as [-> | Hp]; [done|].
      rewrite Forall_forall in Hall. apply Hall. by apply list_elem_of_fmap_2.
    + apply Z.ltb_ge in E. constructor; [by constructor|].
      constructor; [lia|]. eapply Forall_impl; [done|]. cbn. lia.
Qed.

Lemma sortPartsStable_sorted l :
  NoDup (PartInfo.PartNumber <$> l) ->
  StronglySorted Z.lt (PartInfo.PartNumber <$> sortPartsStable l).
Proof.
  induction l as [|x l IH]; cbn; intros Hnd; [constructor|].
  apply NoDup_cons in Hnd as [Hnin Hnd].
  apply insertPart_sorted; [by apply IH|].
  intros (p & Hp & Hin)%list_elem_of_fmap.
  change (foldr insertPart [] l) with (sortPartsStable l) in Hin.
  rewrite sortPartsStable_elem in Hin.
  apply Hnin. rewrite Hp. by apply list_elem_of_fmap_2.
Qed.

(** The sorted slice holds each key of the map once, with its etag. *)
Lemma partsOfMap_elem partsMap p :
  p ∈ partsOfMap partsMap <->
  partsMap !! PartInfo.PartNumber p = Some (PartInfo.ETag p) /\
  PartInfo.LastModified p = 0 /\ PartInfo.Size p = 0.
Proof.
  unfold partsOfMap. rewrite sortPartsStable_elem, list_elem_of_fmap. split.
  - intros ([n e] & -> & Hin%elem_of_map_to_list). done.
  - intros (Hm & Hl & Hs). exists (PartInfo.PartNumber p, PartInfo.ETag p). split.
    + destruct p. cbn in *. by subst.
    + by apply elem_of_map_to_list.
Qed.

Lemma partsOfMap_sorted partsMap :
  StronglySorted Z.lt (PartInfo.PartNumber <$> partsOfMap partsMap).
Proof.
  apply sortPartsStable_sorted. rewrite <- list_fmap_compose.
  apply (NoDup_fst_map_to_list partsMap).
Qed.


(** What [partsMap] holds after the loop over the entries. *)
Lemma collectParts_spec t dir entries m0 m :
  collectParts t dir entries m0 = inr m ->
  (forall n e, m !! n = Some e ->
     m0 !! n = Some e \/
     exists entry, entry ∈ entries /\ entry <> fsMetaJSONFile /\
                   decodePartFile entry = inr (n, e)) /\
  (forall n, is_Some (m0 !! n) -> is_Some (m !! n)) /\
  (forall entry, entry ∈ entries -> entry <> fsMetaJSONFile ->
     exists n e, decodePartFile entry = inr (n, e) /\ is_Some (m !! n)).
Proof.
  revert m0. induction entries as [|entry rest IH]; intros m0; cbn.
  { intros [= <-]. split_and!; [by left|done|]. intros entry Hin. by apply elem_of_nil in Hin. }
  assert (forall m1,
            collectParts t dir rest m1 = inr m ->
            (forall n e, m1 !! n = Some e ->
               m0 !! n = Some e \/ decodePartFile entry = inr (n, e)
                                   /\ entry <> fsMetaJSONFile) ->
            (forall n, is_Some (m0 !! n) -> is_Some (m1 !! n)) ->
            (entry <> fsMetaJSONFile ->
             exists n e, decodePartFile entry = inr (n, e) /\ is_Some (m1 !! n)) ->
            (forall n e, m !! n = Some e ->
               m0 !! n = Some e \/
               exists entry', entry' ∈ entry :: rest /\ entry' <> fsMetaJSONFile /\
                              decodePartFile entry' = inr (n, e)) /\
            (forall n, is_Some (m0 !! n) -> is_Some (m !! n)) /\
            (forall entry', entry' ∈ entry :: rest -> entry' <> fsMetaJSONFile ->
               exists n e, decodePartFile entry' = inr (n, e) /\ is_Some (m !! n))) as Hstep.
  { intros m1 Hrun Hfrom Hkeep Hhere.
    destruct (IH m1 Hrun) as (IH1 & IH2 & IH3). split_and!.
    - intros n e Hm. destruct (IH1 n e Hm) as [Hm1 | (entry' & Hin & Hne & Hd)].
      + destruct (Hfrom n e Hm1) as [?|[Hd Hne]]; [by left|].
        right. exists entry. split_and!; [apply list_elem_of_here|done|done].
      + right. exists entry'. split_and!; [by apply list_elem_of_further|done|done].
    - intros n Hn. by apply IH2, Hkeep.
    - intros entry' [->|Hin]%elem_of_cons Hne.
      + destruct (Hhere Hne) as (n & e & Hd & Hn). exists n, e. split; [done|]. by apply IH2.
      + by apply IH3. }
  destruct (String.eqb entry fsMetaJSONFile) eqn:Efs.
  { apply String.eqb_eq in Efs. intros Hrun. apply (Hstep m0 Hrun); [by left|done|done]. }
  apply String.eqb_neq in Efs.
  destruct (decodePartFile entry) as [err|[partNumber etag1]] eqn:Hd; [done|].
  assert (forall n e, <[partNumber := etag1]> m0 !! n = Some e ->
            m0 !! n = Some e \/
            (inr (partNumber, etag1) : error + Z * string) = inr (n, e)
            /\ entry <> fsMetaJSONFile)
    as Hins.
  { intros n e. rewrite lookup_insert. case_decide as Hn; [|by left].
    intros [= <-]. subst n. by right. }
  assert (forall n, is_Some (m0 !! n) -> is_Some (<[partNumber := etag1]> m0 !! n)) as Hkeep.
  { intros n Hn. rewrite lookup_insert. case_decide; [eauto|done]. }
  assert (entry <> fsMetaJSONFile ->
          exists n e, (inr (partNumber, etag1) : error + Z * string) = inr (n, e)
                      /\ is_Some (<[partNumber := etag1]> m0 !! n)) as Hhere.
  { intros _. exists partNumber, etag1. split; [done|]. rewrite lookup_insert_eq. eauto. }
  destruct (m0 !! partNumber) as [etag2|] eqn:Hfound.
  - destruct (fsStatFile t _) as [|stat1]; [done|].
    destruct (fsStatFile t _) as [|stat2]; [done|].
    destruct (fiModTime stat2 <? fiModTime stat1).
    + intros Hrun. exact (Hstep _ Hrun Hins Hkeep Hhere).
    + intros Hrun. apply (Hstep m0 Hrun); [by left|done|].
      intros _. exists partNumber, etag1. split; [done|]. rewrite Hfound. eauto.
  - intros Hrun. exact (Hstep _ Hrun Hins Hkeep Hhere).
Qed.

Lemma skipToMarker_spec parts marker i :
  (exists pre pm post,
     parts = pre ++ pm :: post /\ PartInfo.PartNumber pm = marker /\
     (marker ∉ PartInfo.PartNumber <$> pre) /\
     skipToMarker parts marker i = (i + S (length pre))%nat) \/
  ((marker ∉ PartInfo.PartNumber <$> parts) /\
   skipToMarker parts marker i = (i + length parts)%nat).
Proof.
  revert i. induction parts as [|p parts IH]; intros i; cbn.
  - right. split; [apply not_elem_of_nil|lia].
  - destruct (PartInfo.PartNumber p =? marker) eqn:E.
    + apply Z.eqb_eq in E. left. exists [], p, parts. cbn.
      split_and!; [done|done|apply not_elem_of_nil|lia].
    + apply Z.eqb_neq in E.
      destruct (IH (S i)) as [(pre & pm & post & -> & Hm & Hnin & ->) | [Hnin ->]].
      * left. exists (p :: pre), pm, post. cbn. split_and!; [done|done| |lia].
        apply not_elem_of_cons. split; [congruence|done].
      * right. split; [|lia]. apply not_elem_of_cons. split; [congruence|done].
Qed.

Lemma takeParts_spec remaining partsCount maxParts taken :
  let k := Z.to_nat (maxParts - partsCount) in
  takeParts remaining partsCount maxParts taken
  = (taken ++ take k remaining, drop k remaining,
     partsCount + Z.of_nat (length (take k remaining))).
Proof.
  revert partsCount taken. induction remaining as [|p rest IH]; intros partsCount taken k.
  - cbn. rewrite take_nil, drop_nil, app_nil_r. cbn. by rewrite Z.add_0_r.
  - cbn [takeParts]. destruct (partsCount <? maxParts) eqn:E.
    + apply Z.ltb_lt in E. rewrite IH.
      assert (k = S (Z.to_nat (maxParts - (partsCount + 1)))) as -> by (unfold k; lia).
      cbn [take drop length]. rewrite <- app_assoc, Nat2Z.inj_succ.
      cbn [app]. f_equal. lia.
    + apply Z.ltb_ge in E. assert (k = 0%nat) as -> by (unfold k; lia).
      cbn. by rewrite app_nil_r, Z.add_0_r.
Qed.

(** The parts as the last loop leaves them when it ends without an
    error: the same numbers and etags, with the size and the
    modification time of their files. *)
Lemma statParts_ok t dir parts stated :
  statParts t dir parts = (stated, None) ->
  partKey <$> stated = partKey <$> parts /\
  forall p, p ∈ stated ->
    fsStatFile t (dir ++ [encodePartFile (PartInfo.PartNumber p) (PartInfo.ETag p)])
    = inr {| fiSize := PartInfo.Size p; fiModTime := PartInfo.LastModified p |}.
Proof.
  revert stated. induction parts as [|p parts IH]; intros stated; cbn.
  - intros [= <-]. split; [done|]. intros p Hp. by apply elem_of_nil in Hp.
  - destruct (fsStatFile t _) as [|stat] eqn:Hstat; [done|].
    destruct (statParts t dir parts) as [rest' err]. intros [= <- ->].
    destruct (IH rest' eq_refl) as [IH1 IH2]. split.
    + cbn. by rewrite IH1.
    + intros q [->|Hq]%elem_of_cons; [|by apply IH2].
      cbn. rewrite Hstat. by destruct stat.
Qed.


(** A run of [ListObjectParts] that ends without an error, step by
    step. *)
Lemma ListObjectParts_ok bucket object uploadID marker maxParts fs result :
  ListObjectParts checkListPartsArgs bucket object uploadID marker maxParts fs
    = (result, None) ->
  exists parts,
    listedParts fs bucket object uploadID = inr parts /\
    let i := if marker =? 0 then 0%nat else skipToMarker parts marker 0 in
    let k := Z.to_nat maxParts in
    let taken := take k (drop i parts) in
    let remaining := drop k (drop i parts) in
    statParts (tree fs) (getUploadIDDir bucket object uploadID) taken
      = (ListPartsInfo.Parts result, None) /\
    ListPartsInfo.IsTruncated result = match remaining with [] => false | _ => true end /\
    ListPartsInfo.NextPartNumberMarker result
    = (if ListPartsInfo.IsTruncated result && negb (length taken =? 0)%nat then
         match last taken with Some part => PartInfo.PartNumber part | None => 0 end
       else 0).
Proof.
  unfold ListObjectParts.
  destruct (checkListPartsArgs bucket object); [done|].
  destruct (statBucketDir (tree fs) bucket); [done|].
  destruct (fsStatFile (tree fs) _) as [[]|]; try done.
  destruct (listedParts fs bucket object uploadID) as [|parts]; [done|].
  rewrite takeParts_spec. cbn [app]. rewrite Z.sub_0_r.
  destruct (statParts _ _ _) as [stated err] eqn:Hstat.
  intros [= <- ->]. exists parts. split; [done|]. cbn.
  split; [done|]. split; [done|].
  destruct (drop _ (drop _ parts)); [done|]. cbn [andb].
  destruct (take _ _) as [|x taken]; [done|]. cbn [length].
  rewrite Nat2Z.inj_succ. cbn [Nat.eqb negb].
  destruct (0 + Z.succ (Z.of_nat (length taken)) =? 0) eqn:E; [|done].
  apply Z.eqb_eq in E. lia.
Qed.

(** The internal slice [parts]: sorted by part number without
    duplicates, each part from an entry of the directory. *)
Lemma listedParts_spec fs bucket object uploadID parts :
  listedParts fs bucket object uploadID = inr parts ->
  StronglySorted Z.lt (PartInfo.PartNumber <$> parts) /\
  exists entries,
    readDir (tree fs) (getUploadIDDir bucket object uploadID) = inr entries /\
    (forall p, p ∈ parts ->
       exists entry, entry ∈ entries /\ entry <> fsMetaJSONFile /\
         decodePartFile entry = inr (PartInfo.PartNumber p, PartInfo.ETag p)) /\
    (forall entry, entry ∈ entries -> entry <> fsMetaJSONFile ->
       exists n e, decodePartFile entry = inr (n, e) /\ n ∈ PartInfo.PartNumber <$> parts).
Proof.
  unfold listedParts.
  destruct (readDir (tree fs) _) as [|entries]; [done|].
  destruct (collectParts _ _ entries ∅) as [|partsMap] eqn:Hcollect; [done|].
  intros [= <-]. split; [apply partsOfMap_sorted|].
  exists entries. split; [done|].
  destruct (collectParts_spec _ _ _ _ _ Hcollect) as (Hfrom & _ & Hall). split.
  - intros p (Hp & _)%partsOfMap_elem.
    destruct (Hfrom _ _ Hp) as [Hempty|Hentry]; [by rewrite lookup_empty in Hempty|done].
  - intros entry Hin Hne. destruct (Hall entry Hin Hne) as (n & e & Hd & [e' He']).
    exists n, e. split; [done|].
    apply list_elem_of_fmap. 
    exists {| PartInfo.PartNumber := n; PartInfo.LastModified := 0;
              PartInfo.ETag := e'; PartInfo.Size := 0 |}.
    split; [done|]. by apply partsOfMap_elem.
Qed.


Lemma partKey_number (l : list PartInfo.t) :
  PartInfo.PartNumber <$> l = (partKey <$> l).*1.
Proof. by rewrite <- list_fmap_compose. Qed.

Lemma StronglySorted_drop {A} (R : A -> A -> Prop) n l :
  StronglySorted R l -> StronglySorted R (drop n l).
Proof.
  intros Hs. rewrite <- (take_drop n l) in Hs. by apply StronglySorted_app_1_r in Hs.
Qed.

Lemma StronglySorted_take {A} (R : A -> A -> Prop) n l :
  StronglySorted R l -> StronglySorted R (take n l).
Proof.
  intros Hs. rewrite <- (take_drop n l) in Hs. by apply StronglySorted_app_1_l in Hs.
Qed.

Lemma StronglySorted_lt_NoDup l : StronglySorted Z.lt l -> NoDup l.
Proof.
  induction 1 as [|x l _ IH Hall]; constructor; [|done].
  intros Hin. rewrite Forall_forall in Hall. specialize (Hall x Hin). lia.
Qed.

(** Where the marker loop leaves [i], when the part numbers are
    distinct: behind the part with the number of the marker, or at the
    end when there is none. *)
Lemma skipToMarker_sorted parts marker :
  StronglySorted Z.lt (PartInfo.PartNumber <$> parts) ->
  let i := skipToMarker parts marker 0 in
  (exists pm, parts !! pred i = Some pm /\ PartInfo.PartNumber pm = marker /\ (0 < i)%nat /\
     Forall (fun p => marker < PartInfo.PartNumber p) (drop i parts)) \/
  (i = length parts /\ (marker ∉ PartInfo.PartNumber <$> parts)).
Proof.
  intros Hs i. subst i.
  destruct (skipToMarker_spec parts marker 0)
    as [(pre & pm & post & -> & Hm & Hnin & ->) | [Hnin ->]]; [left|by right].
  exists pm. cbn. split; [by rewrite list_lookup_middle|]. split; [done|]. split; [lia|].
  rewrite fmap_app, fmap_cons in Hs.
  apply StronglySorted_app_1_r, StronglySorted_inv in Hs as [_ Hall].
  assert (drop (S (length pre)) (pre ++ pm :: post) = post) as ->.
  { clear. induction pre as [|x pre IH]; [done|]. cbn. apply IH. }
  rewrite Forall_fmap in Hall. by rewrite <- Hm.
Qed.

(** X14. A listing of parts that ends without an error is sorted by
    part number and names no part number twice; it has at most
    [maxParts] parts (none when [maxParts] is not positive); with a
    marker every listed part number is greater than the marker; and
    every listed part is a part file of the upload-id directory that an
    entry of the directory decodes to, listed with the size and the
    modification time of that file. *)
Theorem list_parts_sorted_with_file_info bucket object uploadID marker maxParts fs result :
  ListObjectParts checkListPartsArgs bucket object uploadID marker maxParts fs
    = (result, None) ->
  StronglySorted Z.lt (PartInfo.PartNumber <$> ListPartsInfo.Parts result) /\
  Z.of_nat (length (ListPartsInfo.Parts result)) <= Z.max 0 maxParts /\
  (marker <> 0 ->
   Forall (fun p => marker < PartInfo.PartNumber p) (ListPartsInfo.Parts result)) /\
  (forall p, p ∈ ListPartsInfo.Parts result ->
     fsStatFile (tree fs)
       (getUploadIDDir bucket object uploadID
          ++ [encodePartFile (PartInfo.PartNumber p) (PartInfo.ETag p)])
     = inr {| fiSize := PartInfo.Size p; fiModTime := PartInfo.LastModified p |} /\
     exists entries entry,
       readDir (tree fs) (getUploadIDDir bucket object uploadID) = inr entries /\
       entry ∈ entries /\
       decodePartFile entry = inr (PartInfo.PartNumber p, PartInfo.ETag p)).
Proof.
  intros (parts & Hparts & Hstat & _)%ListObjectParts_ok.
  destruct (listedParts_spec _ _ _ _ _ Hparts) as (Hsorted & entries & Hdir & Hfrom & _).
  apply statParts_ok in Hstat as [Hkeys Hinfo].
  set (i := if marker =? 0 then 0%nat else skipToMarker parts marker 0) in *.
  set (taken := take (Z.to_nat maxParts) (drop i parts)) in *.
  assert (PartInfo.PartNumber <$> ListPartsInfo.Parts result
          = PartInfo.PartNumber <$> taken) as Hnums.
  { by rewrite !partKey_number, Hkeys. }
  split_and!.
  - rewrite Hnums. unfold taken. rewrite fmap_take, fmap_drop.
    by apply StronglySorted_take, StronglySorted_drop.
  - apply (f_equal length) in Hkeys. rewrite !length_fmap in Hkeys. rewrite Hkeys.
    unfold taken. rewrite length_take. lia.
  - intros Hm.
    assert (Forall (fun n => marker < n) (PartInfo.PartNumber <$> taken)) as Hall.
    { rewrite Forall_fmap. unfold taken, i. apply Z.eqb_neq in Hm. rewrite Hm.
      apply Forall_take.
      destruct (skipToMarker_sorted parts marker Hsorted)
        as [(pm & _ & _ & _ & Hall) | [-> _]]; [done|].
      by rewrite drop_all. }
    rewrite <- Hnums, Forall_fmap in Hall. exact Hall.
  - intros p Hp. split; [by apply Hinfo|].
    assert (partKey p ∈ partKey <$> taken) as (q & Hq & Hin)%list_elem_of_fmap.
    { rewrite <- Hkeys. by apply list_elem_of_fmap_2. }
    assert (q ∈ parts) as Hqin.
    { unfold taken in Hin. by apply subseteq_take, subseteq_drop in Hin. }
    destruct (Hfrom q Hqin) as (entry & Hentry & _ & Hd).
    exists entries, entry. injection Hq as -> ->. done.
Qed.


(** The page of a listing, by the index [i] at which it starts. *)
Lemma ListObjectParts_page bucket object uploadID marker maxParts fs result :
  ListObjectParts checkListPartsArgs bucket object uploadID marker maxParts fs
    = (result, None) ->
  exists parts i,
    listedParts fs bucket object uploadID = inr parts /\
    StronglySorted Z.lt (PartInfo.PartNumber <$> parts) /\
    (i <= length parts)%nat /\
    (marker = 0 -> i = 0%nat) /\
    (marker <> 0 ->
     (exists pm, parts !! pred i = Some pm /\ PartInfo.PartNumber pm = marker /\ (0 < i)%nat) \/
     (i = length parts /\ (marker ∉ PartInfo.PartNumber <$> parts))) /\
    partKey <$> ListPartsInfo.Parts result
      = partKey <$> take (Z.to_nat maxParts) (drop i parts) /\
    (ListPartsInfo.IsTruncated result = true <->
     drop (Z.to_nat maxParts) (drop i parts) <> []) /\
    ListPartsInfo.NextPartNumberMarker result
    = match last (ListPartsInfo.Parts result) with
      | Some p => if ListPartsInfo.IsTruncated result then PartInfo.PartNumber p else 0
      | None => 0
      end.
Proof.
  intros (parts & Hparts & Hstat & Htrunc & Hnext)%ListObjectParts_ok.
  destruct (listedParts_spec _ _ _ _ _ Hparts) as (Hsorted & _).
  apply statParts_ok in Hstat as [Hkeys _].
  set (i := if marker =? 0 then 0%nat else skipToMarker parts marker 0) in *.
  exists parts, i. split; [done|]. split; [done|].
  assert ((marker = 0 -> i = 0%nat) /\
          (marker <> 0 ->
           (exists pm, parts !! pred i = Some pm /\ PartInfo.PartNumber pm = marker
                       /\ (0 < i)%nat) \/
           (i = length parts /\ (marker ∉ PartInfo.PartNumber <$> parts)))) as [Hi0 Hi1].
  { unfold i. destruct (marker =? 0) eqn:E.
    - apply Z.eqb_eq in E. by split.
    - apply Z.eqb_neq in E. split; [done|]. intros _.
      destruct (skipToMarker_sorted parts marker Hsorted)
        as [(pm & ? & ? & ? & _) | ?]; [left; eauto|by right]. }
  split_and!; [|done|done|done| |].
  - destruct (decide (marker = 0)) as [Hm|Hm]; [rewrite (Hi0 Hm); lia|].
    destruct (Hi1 Hm) as [(pm & Hpm%lookup_lt_Some & _ & Hpos)|[-> _]]; lia.
  - rewrite Htrunc. by destruct (drop _ (drop i parts)).
  - rewrite Hnext.
    assert (PartInfo.PartNumber <$> last (ListPartsInfo.Parts result)
            = PartInfo.PartNumber <$> last (take (Z.to_nat maxParts) (drop i parts)))
      as Hlast.
    { rewrite <- !fmap_last, !partKey_number. by rewrite Hkeys. }
    destruct (take (Z.to_nat maxParts) (drop i parts)) as [|x taken] eqn:Htaken.
    + apply (f_equal length) in Hkeys. rewrite !length_fmap in Hkeys.
      destruct (ListPartsInfo.Parts result); [|done].
      cbn. by rewrite andb_false_r.
    + cbn [length Nat.eqb negb]. rewrite andb_true_r.
      destruct (last (x :: taken)) as [q|] eqn:Hq;
        destruct (last (ListPartsInfo.Parts result)) as [p|]; try done.
      * injection Hlast as ->. done.
      * by destruct (ListPartsInfo.IsTruncated result).
Qed.

Lemma page_split {A} (l : list A) i k :
  l = take i l ++ take k (drop i l) ++ drop k (drop i l).
Proof. by rewrite !take_drop. Qed.

(** X15. The page of a listing of parts: the parts of the upload,
    sorted by number, are the parts before the page, then the page, then
    the parts left. Without a marker the page starts with the first
    part; with a marker it starts behind the part with that number, and
    there is no page at all when no part has that number. The page has
    [maxParts] parts or all that are left if these are fewer;
    [IsTruncated] tells whether parts are left; and
    [NextPartNumberMarker] is the number of the last part of a page
    that is truncated and not empty, and 0 otherwise. *)
Theorem list_parts_page bucket object uploadID marker maxParts fs result :
  ListObjectParts checkListPartsArgs bucket object uploadID marker maxParts fs
    = (result, None) ->
  exists parts pre post,
    listedParts fs bucket object uploadID = inr parts /\
    partKey <$> parts = pre ++ (partKey <$> ListPartsInfo.Parts result) ++ post /\
    (marker = 0 -> pre = []) /\
    (marker <> 0 ->
     (exists pre' etag, pre = pre' ++ [(marker, etag)]) \/
     (pre = partKey <$> parts /\ (marker ∉ PartInfo.PartNumber <$> parts))) /\
    length (ListPartsInfo.Parts result)
      = Nat.min (Z.to_nat maxParts) (length parts - length pre) /\
    (ListPartsInfo.IsTruncated result = true <-> post <> []) /\
    ListPartsInfo.NextPartNumberMarker result
    = match last (ListPartsInfo.Parts result) with
      | Some p => if ListPartsInfo.IsTruncated result then PartInfo.PartNumber p else 0
      | None => 0
      end.
Proof.
  intros (parts & i & Hparts & Hsorted & Hi & Hi0 & Hi1 & Hkeys & Htrunc & Hnext)
    %ListObjectParts_page.
  exists parts, (partKey <$> take i parts),
    (partKey <$> drop (Z.to_nat maxParts) (drop i parts)).
  split; [done|]. split.
  { rewrite Hkeys, <- !fmap_app. f_equal. apply page_split. }
  split.
  { intros Hm. by rewrite (Hi0 Hm). }
  split.
  { intros Hm. destruct (Hi1 Hm) as [(pm & Hpm & Hnum & Hpos) | [-> Hnin]].
    - left. exists (partKey <$> take (pred i) parts), (PartInfo.ETag pm).
      replace i with (S (pred i)) at 1 by lia.
      rewrite (take_S_r _ _ _ Hpm), fmap_app. by rewrite <- Hnum.
    - right. by rewrite firstn_all. }
  split.
  { apply (f_equal length) in Hkeys. rewrite !length_fmap in Hkeys.
    rewrite Hkeys, !length_fmap, !length_take, length_drop. lia. }
  split; [|done].
  rewrite Htrunc. split.
  - intros Hne Hnil. apply Hne. by apply fmap_nil_inv in Hnil.
  - intros Hne Hnil. apply Hne. by rewrite Hnil.
Qed.

(** X16. Pages chain: when a page is truncated and names a next marker
    other than 0, the listing from that marker continues where the page
    ended, so the two pages, one after the other, are a run of the
    sorted parts, with no part left out and none listed twice. *)
Theorem list_parts_next_page bucket object uploadID marker maxParts maxParts' fs r1 r2 :
  ListObjectParts checkListPartsArgs bucket object uploadID marker maxParts fs
    = (r1, None) ->
  ListPartsInfo.IsTruncated r1 = true ->
  ListPartsInfo.NextPartNumberMarker r1 <> 0 ->
  ListObjectParts checkListPartsArgs bucket object uploadID
    (ListPartsInfo.NextPartNumberMarker r1) maxParts' fs = (r2, None) ->
  exists parts pre post,
    listedParts fs bucket object uploadID = inr parts /\
    partKey <$> parts
      = pre ++ (partKey <$> ListPartsInfo.Parts r1)
            ++ (partKey <$> ListPartsInfo.Parts r2) ++ post /\
    length (ListPartsInfo.Parts r2)
      = Nat.min (Z.to_nat maxParts')
          (length parts - length pre - length (ListPartsInfo.Parts r1)) /\
    (ListPartsInfo.IsTruncated r2 = true <-> post <> []).
Proof.
  intros (parts & i1 & Hparts & Hsorted & Hi1 & _ & _ & Hkeys1 & Htrunc1 & Hnext1)
    %ListObjectParts_page Ht1 Hm.
  intros (parts' & i2 & Hparts' & _ & Hi2 & _ & Hmark & Hkeys2 & Htrunc2 & _)
    %ListObjectParts_page.
  rewrite Hparts in Hparts'. injection Hparts' as <-.
  set (k1 := Z.to_nat maxParts) in *. set (k2 := Z.to_nat maxParts') in *.
  apply Htrunc1 in Ht1 as Hleft.
  assert (length (drop i1 parts) > k1)%nat as Hlong.
  { destruct (decide (length (drop i1 parts) <= k1)%nat) as [Hle|]; [|lia].
    by rewrite (drop_ge _ _ Hle) in Hleft. }
  rewrite length_drop in Hlong.
  assert (length (ListPartsInfo.Parts r1) = k1) as Hlen1.
  { apply (f_equal length) in Hkeys1. rewrite !length_fmap in Hkeys1.
    rewrite Hkeys1, length_take, length_drop. lia. }
  (* the last part of the first page *)
  destruct (last (ListPartsInfo.Parts r1)) as [p1|] eqn:Hlast; [|done].
  rewrite Ht1 in Hnext1.
  assert (0 < k1)%nat as Hk1.
  { rewrite <- Hlen1. destruct (ListPartsInfo.Parts r1); [done|cbn; lia]. }
  assert (PartInfo.PartNumber <$> parts !! (i1 + k1 - 1)%nat
          = Some (ListPartsInfo.NextPartNumberMarker r1)) as Hat.
  { rewrite Hnext1.
    assert (PartInfo.PartNumber <$> last (take k1 (drop i1 parts))
            = Some (PartInfo.PartNumber p1)) as Hl.
    { rewrite <- fmap_last, partKey_number, <- Hkeys1, <- partKey_number, fmap_last.
      by rewrite Hlast. }
    rewrite last_lookup, length_take, length_drop in Hl.
    rewrite lookup_take_lt, lookup_drop in Hl by lia.
    rewrite <- Hl. do 2 f_equal. lia. }
  destruct (parts !! (i1 + k1 - 1)%nat) as [q|] eqn:Hq; [|done].
  injection Hat as Hqnum.
  (* the second page starts behind it *)
  assert (i2 = (i1 + k1)%nat) as ->.
  { destruct (Hmark Hm) as [(pm & Hpm & Hnum & Hpos) | [_ Hnin]].
    - pose proof (StronglySorted_lt_NoDup _ Hsorted) as Hnd.
      assert (pred i2 = (i1 + k1 - 1)%nat); [|lia].
      eapply (NoDup_lookup _ _ _ _ Hnd); rewrite list_lookup_fmap.
      + by rewrite Hpm; cbn; rewrite Hnum.
      + by rewrite Hq; cbn; rewrite Hqnum.
    - exfalso. apply Hnin. rewrite <- Hqnum.
      apply list_elem_of_fmap_2. by eapply list_elem_of_lookup_2. }
  exists parts, (partKey <$> take i1 parts), (partKey <$> drop k2 (drop (i1 + k1) parts)).
  split; [done|]. split.
  { rewrite Hkeys1, Hkeys2, <- !fmap_app. f_equal.
    rewrite (page_split parts i1 k1) at 1. do 2 f_equal.
    rewrite drop_drop. apply (page_split _ 0 k2). }
  split.
  { apply (f_equal length) in Hkeys2. rewrite !length_fmap in Hkeys2.
    rewrite Hkeys2, Hlen1, !length_fmap, !length_take, length_drop. lia. }
  rewrite Htrunc2. split.
  - intros Hne Hnil. apply Hne. by apply fmap_nil_inv in Hnil.
  - intros Hne Hnil. apply Hne. by rewrite Hnil.
Qed.

(** X17. A listing of parts without a marker that is not truncated is
    complete: every entry of the upload-id directory other than
    [fs.json] is a part file, and its part number is listed. *)
Theorem list_parts_complete bucket object uploadID maxParts fs result entries :
  ListObjectParts checkListPartsArgs bucket object uploadID 0 maxParts fs
    = (result, None) ->
  ListPartsInfo.IsTruncated result = false ->
  readDir (tree fs) (getUploadIDDir bucket object uploadID) = inr entries ->
  forall entry, entry ∈ entries -> entry <> fsMetaJSONFile ->
    exists n e,
      decodePartFile entry = inr (n, e) /\
      n ∈ PartInfo.PartNumber <$> ListPartsInfo.Parts result.
Proof.
  intros (parts & i & Hparts & _ & _ & Hi0 & _ & Hkeys & Htrunc & _)%ListObjectParts_page
    Hnot Hdir entry Hin Hne.
  rewrite (Hi0 eq_refl), drop_0 in Hkeys, Htrunc.
  assert (drop (Z.to_nat maxParts) parts = []) as Hnil.
  { destruct (drop (Z.to_nat maxParts) parts) eqn:E; [done|].
    assert (ListPartsInfo.IsTruncated result = true) as Ht by (by apply Htrunc).
    congruence. }
  rewrite <- (take_drop (Z.to_nat maxParts) parts) in Hparts.
  rewrite Hnil, app_nil_r in Hparts.
  destruct (listedParts_spec _ _ _ _ _ Hparts) as (_ & entries' & Hdir' & _ & Hall).
  rewrite Hdir in Hdir'. injection Hdir' as <-.
  destruct (Hall entry Hin Hne) as (n & e & Hd & Hn). exists n, e. split; [done|].
  by rewrite partKey_number, Hkeys, <- partKey_number.
Qed.


Lemma collectParts_undecodable t dir entries m0 entry :
  entry ∈ entries -> entry <> fsMetaJSONFile ->
  (exists err, decodePartFile entry = inl err) ->
  exists err, collectParts t dir entries m0 = inl err.
Proof.
  intros Hin Hne [err Hd].
  destruct (collectParts t dir entries m0) as [|m] eqn:Hrun; [eauto|].
  destruct (collectParts_spec _ _ _ _ _ Hrun) as (_ & _ & Hall).
  destruct (Hall entry Hin Hne) as (n & e & Hd' & _). congruence.
Qed.

(** X18. What makes a listing of parts fail, when the names are valid
    and the bucket exists: an upload id without its [fs.json] gives
    [InvalidUploadID]; and one entry of the upload-id directory, other
    than [fs.json], whose name is not that of a part file makes the
    whole listing fail. In both cases no part is listed. *)
Theorem list_parts_fails bucket object uploadID marker maxParts fs :
  checkListPartsArgs bucket object = None ->
  statBucketDir (tree fs) bucket = inr tt ->
  (fsStatFile (tree fs) (getUploadIDDir bucket object uploadID ++ [fsMetaJSONFile])
     = inl errFileNotFound \/
   (exists fi entries entry,
      fsStatFile (tree fs) (getUploadIDDir bucket object uploadID ++ [fsMetaJSONFile])
        = inr fi /\
      readDir (tree fs) (getUploadIDDir bucket object uploadID) = inr entries /\
      entry ∈ entries /\ entry <> fsMetaJSONFile /\
      exists err, decodePartFile entry = inl err)) ->
  exists result err,
    ListObjectParts checkListPartsArgs bucket object uploadID marker maxParts fs
      = (result, Some err) /\
    ListPartsInfo.Parts result = [] /\
    (fsStatFile (tree fs) (getUploadIDDir bucket object uploadID ++ [fsMetaJSONFile])
       = inl errFileNotFound -> err = InvalidUploadID uploadID).
Proof.
  intros Hcheck Hbucket Hcase. unfold ListObjectParts. rewrite Hcheck, Hbucket.
  destruct Hcase as [Hmeta | (fi & entries & entry & Hmeta & Hdir & Hin & Hne & Hd)];
    rewrite Hmeta.
  - eexists _, _. by split_and!.
  - unfold listedParts. rewrite Hdir.
    destruct (collectParts_undecodable (tree fs) (getUploadIDDir bucket object uploadID)
                entries ∅ entry Hin Hne Hd) as [err ->].
    eexists _, _. by split_and!.
Qed.

Transparent getUploadIDDir.

End ListPartsFacts.

Section ListPartsExamples.

Import PartFile Multipart.
Local Open Scope string_scope.
Local Open Scope list_scope.
Local Open Scope Z_scope.

Lemma examplePage1_run :
  ListObjectParts (H := plainHelpers) anyName "bucket" "object" "u1" 0 2 exampleFS
  = (examplePage1, None).
Proof. vm_compute. reflexivity. Qed.

Lemma examplePage2_run :
  ListObjectParts (H := plainHelpers) anyName "bucket" "object" "u1" 2 2 exampleFS
  = (examplePage2, None).
Proof. vm_compute. reflexivity. Qed.

Lemma examplePage2_next :
  ListObjectParts (H := plainHelpers) anyName "bucket" "object" "u1"
    (ListPartsInfo.NextPartNumberMarker examplePage1) 2 exampleFS
  = (examplePage2, None).
Proof. vm_compute. reflexivity. Qed.

Lemma examplePage3_run :
  ListObjectParts (H := plainHelpers) anyName "bucket" "object" "u1" 0 3 exampleFS
  = (examplePage3, None).
Proof. vm_compute. reflexivity. Qed.

Lemma exampleAllParts_run :
  ListObjectParts (H := plainHelpers) anyName "bucket" "object" "u1" 0 10 exampleFS
  = (exampleAllParts, None).
Proof. vm_compute. reflexivity. Qed.

Lemma strayEntries_listing :
  readDir (tree strayFS) (getUploadIDDir (H := plainHelpers) "bucket" "object" "u1")
  = inr strayEntries.
Proof. vm_compute. reflexivity. Qed.

Lemma list_parts_sorted_with_file_info_witness :
  PartInfo.PartNumber <$> ListPartsInfo.Parts examplePage2 = [3; 4] /\
  StronglySorted Z.lt (PartInfo.PartNumber <$> ListPartsInfo.Parts examplePage2) /\
  Z.of_nat (length (ListPartsInfo.Parts examplePage2)) <= Z.max 0 2 /\
  Forall (fun p => 2 < PartInfo.PartNumber p) (ListPartsInfo.Parts examplePage2).
Proof.
  split; [reflexivity|].
  destruct (list_parts_sorted_with_file_info (H := plainHelpers) anyName
              "bucket" "object" "u1" 2 2 exampleFS examplePage2 examplePage2_run)
    as (Hsorted & Hlen & Hmark & _).
  split; [exact Hsorted|]. split; [exact Hlen|].
  apply Hmark. intros Heq. discriminate Heq.
Defined.

Lemma list_parts_page_witness :
  exists parts pre post,
    listedParts (H := plainHelpers) exampleFS "bucket" "object" "u1" = inr parts /\
    partKey <$> parts = pre ++ (partKey <$> ListPartsInfo.Parts examplePage3) ++ post /\
    pre = [] /\
    length (ListPartsInfo.Parts examplePage3) = 3%nat /\
    ListPartsInfo.NextPartNumberMarker examplePage3 = 3.
Proof.
  destruct (list_parts_page (H := plainHelpers) anyName "bucket" "object" "u1" 0 3
              exampleFS examplePage3 examplePage3_run)
    as (parts & pre & post & Hparts & Hkeys & Hpre & _).
  exists parts, pre, post. split; [exact Hparts|]. split; [exact Hkeys|].
  split; [apply Hpre; reflexivity|]. split; reflexivity.
Defined.

Lemma list_parts_next_page_witness :
  PartInfo.PartNumber <$> ListPartsInfo.Parts examplePage1 = [1; 2] /\
  PartInfo.PartNumber <$> ListPartsInfo.Parts examplePage2 = [3; 4] /\
  exists parts pre post,
    listedParts (H := plainHelpers) exampleFS "bucket" "object" "u1" = inr parts /\
    partKey <$> parts
      = pre ++ (partKey <$> ListPartsInfo.Parts examplePage1)
            ++ (partKey <$> ListPartsInfo.Parts examplePage2) ++ post.
Proof.
  split; [reflexivity|]. split; [reflexivity|].
  destruct (list_parts_next_page (H := plainHelpers) anyName "bucket" "object" "u1" 0 2 2
              exampleFS examplePage1 examplePage2 examplePage1_run eq_refl
              (fun Heq => ltac:(discriminate Heq)) examplePage2_next)
    as (parts & pre & post & Hparts & Hkeys & _).
  exists parts, pre, post. split; [exact Hparts|exact Hkeys].
Defined.

Lemma list_parts_complete_witness :
  exists n e,
    decodePartFile "00004.dd" = inr (n, e) /\
    n ∈ PartInfo.PartNumber <$> ListPartsInfo.Parts exampleAllParts.
Proof.
  apply (list_parts_complete (H := plainHelpers) anyName "bucket" "object" "u1" 10
           exampleFS exampleAllParts _ exampleAllParts_run eq_refl exampleDir_listing).
  - apply list_elem_of_further, list_elem_of_here.
  - intros Heq. discriminate Heq.
Defined.

Lemma list_parts_fails_witness :
  (exists result,
     ListObjectParts (H := plainHelpers) anyName "bucket" "object" "u2" 0 10 exampleFS
       = (result, Some (InvalidUploadID "u2"))) /\
  (exists result err,
     ListObjectParts (H := plainHelpers) anyName "bucket" "object" "u1" 0 10 strayFS
       = (result, Some err) /\ ListPartsInfo.Parts result = []).
Proof.
  split.
  - destruct (list_parts_fails (H := plainHelpers) anyName "bucket" "object" "u2" 0 10
                exampleFS eq_refl) as (result & err & Hrun & _ & Herr).
    + vm_compute. reflexivity.
    + left. vm_compute. reflexivity.
    + exists result. rewrite (Herr ltac:(vm_compute; reflexivity)) in Hrun. exact Hrun.
  - destruct (list_parts_fails (H := plainHelpers) anyName "bucket" "object" "u1" 0 10
                strayFS eq_refl) as (result & err & Hrun & Hparts & _).
    + vm_compute. reflexivity.
    + right. exists {| fiSize := 2; fiModTime := 0 |}, strayEntries, "README".
      split; [vm_compute; reflexivity|]. split; [exact strayEntries_listing|].
      split; [vm_compute; repeat first [apply list_elem_of_here | apply list_elem_of_further]|].
      split; [intros Heq; discriminate Heq|]. eexists. vm_compute. reflexivity.
    + exists result, err. split; [exact Hrun|exact Hparts].
Defined.

End ListPartsExamples.
